(** * AnveshanaVidya: retrieval core (Trie, LRU cache, case-study ledger)

    A shallow embedding of the retrieval core of the repository:
    - [src/utils/Trie.ts]                   (module [Trie])
    - [src/utils/LRUCache.ts]               (module [LRU])
    - [src/types/caseStudySchema.ts]        (module [Schema])
    - [src/services/CaseStudyIngestion.ts]  (module [Ingestion])
    - [src/services/CaseStudyMigration.ts]  (module [Migration])
    - [src/services/PromptTemplates.ts]     (module [PromptTemplates])
    - [src/services/CaseStudyRAG.ts]        (module [RAGService])

    Modelling conventions.
    - JavaScript strings are modelled by [string] (sequences of 8-bit
      characters); [toLowerCase]/[toUpperCase] fold the ASCII letters. For
      ASCII text a UTF-16 code unit, a code point and an [ascii] coincide.
    - A JavaScript [Map]/[Set] whose iteration order is observable is an
      insertion-ordered association list / duplicate-free list; a [Map] that
      is only looked up is a [gmap].
    - Integer-valued [number]s are [Z]; relevance scores are exact rationals
      ([Q]) instead of IEEE doubles.
    - A thrown exception is an explicit error result.

    The file has four parts: the embedding of the code, the vocabulary of
    invariants and abstract views, the lemmas about the embedding, and the
    properties of the specification, each named by its claim. *)

From Stdlib Require Import String Ascii ZArith QArith List Lia Lqa Bool DecimalString DecimalPos DecimalZ Sorted.
From stdpp Require Import gmap strings list.

Local Open Scope string_scope.
Local Open Scope list_scope.
Local Open Scope Z_scope.

(** ** JavaScript string primitives *)

Module Js.

Definition is_upper (c : ascii) : bool :=
  let n := nat_of_ascii c in ((65 <=? n) && (n <=? 90))%nat.

Definition is_lower (c : ascii) : bool :=
  let n := nat_of_ascii c in ((97 <=? n) && (n <=? 122))%nat.

Definition is_digit (c : ascii) : bool :=
  let n := nat_of_ascii c in ((48 <=? n) && (n <=? 57))%nat.

Definition lower_char (c : ascii) : ascii :=
  if is_upper c then ascii_of_nat (nat_of_ascii c + 32) else c.

Definition upper_char (c : ascii) : ascii :=
  if is_lower c then ascii_of_nat (nat_of_ascii c - 32) else c.

(** [s.toLowerCase()] *)
Fixpoint toLowerCase (s : string) : string :=
  match s with
  | EmptyString => EmptyString
  | String c r => String (lower_char c) (toLowerCase r)
  end.

(** [s.toUpperCase()] *)
Fixpoint toUpperCase (s : string) : string :=
  match s with
  | EmptyString => EmptyString
  | String c r => String (upper_char c) (toUpperCase r)
  end.

(** [s.length] *)
Definition strlen (s : string) : Z := Z.of_nat (String.length s).

(** [s.startsWith(p)] *)
Fixpoint startsWith (s p : string) {struct p} : bool :=
  match p, s with
  | EmptyString, _ => true
  | String a p', String b s' => if ascii_dec a b then startsWith s' p' else false
  | String _ _, EmptyString => false
  end.

(** [s.includes(p)] *)
Fixpoint includes (s p : string) : bool :=
  startsWith s p ||
  match s with
  | EmptyString => false
  | String _ s' => includes s' p
  end.

(** [s.substring(0, n)] *)
Fixpoint take (n : nat) (s : string) : string :=
  match n, s with
  | O, _ => EmptyString
  | S n', String c r => String c (take n' r)
  | S _, EmptyString => EmptyString
  end.

(** [s.split(sep)] for a one-character separator: never the empty list. *)
Fixpoint split (sep : ascii) (s : string) : list string :=
  match s with
  | EmptyString => [EmptyString]
  | String c r =>
      if ascii_dec c sep then EmptyString :: split sep r
      else match split sep r with
           | [] => [String c EmptyString]
           | w :: ws => String c w :: ws
           end
  end.

(** [xs.join(sep)] *)
Fixpoint join (sep : string) (xs : list string) : string :=
  match xs with
  | [] => EmptyString
  | [x] => x
  | x :: r => x +:+ sep +:+ join sep r
  end.

(** Truthiness of a string value: only the empty string is falsy. *)
Definition truthy (s : string) : bool :=
  match s with EmptyString => false | String _ _ => true end.

(** Truthiness of [string | undefined]. *)
Definition truthy_opt (o : option string) : bool :=
  match o with Some s => truthy s | None => false end.

(** [a || b] on [string | undefined] operands with a string fallback. *)
Definition or_else (o : option string) (d : string) : string :=
  match o with
  | Some s => if truthy s then s else d
  | None => d
  end.

(** [\w] of a regular expression. *)
Definition is_word (c : ascii) : bool :=
  is_upper c || is_lower c || is_digit c || (nat_of_ascii c =? 95)%nat.

(** [\s] of a regular expression, on ASCII: space, tab, line feed,
    vertical tab, form feed, carriage return. *)
Definition is_space (c : ascii) : bool :=
  let n := nat_of_ascii c in ((n =? 32) || ((9 <=? n) && (n <=? 13)))%nat.

(** [s.replace(/[^...]/g, '')]: keep the characters satisfying [keep]. *)
Fixpoint filterChars (keep : ascii -> bool) (s : string) : string :=
  match s with
  | EmptyString => EmptyString
  | String c r =>
      if keep c then String c (filterChars keep r) else filterChars keep r
  end.

(** [s.split(/\s+/)]: never the empty list; a leading or trailing run of
    white space yields an empty first or last piece. *)
Fixpoint splitWs (s : string) : list string :=
  match s with
  | EmptyString => [EmptyString]
  | String c r =>
      let rest := splitWs r in
      if is_space c then
        match r with
        | String c' _ => if is_space c' then rest else EmptyString :: rest
        | EmptyString => EmptyString :: rest
        end
      else
        match rest with
        | w :: ws => String c w :: ws
        | [] => [String c EmptyString]
        end
  end.

(** [s.match(/\b\w{n,}\b/g) || []]: the maximal runs of word characters
    that have at least [n] characters, in order. *)
Fixpoint wordRunsAux (s : string) (cur : string) : list string :=
  match s with
  | EmptyString => [cur]
  | String c r =>
      if is_word c then wordRunsAux r (cur +:+ String c EmptyString)
      else cur :: wordRunsAux r EmptyString
  end.

Definition wordRuns (n : nat) (s : string) : list string :=
  filter (fun w => (n <= String.length w)%nat) (wordRunsAux s EmptyString).

(** The first occurrence of [p] in [s]: the text before it and after it. *)
Fixpoint drop (n : nat) (s : string) : string :=
  match n, s with
  | O, _ => s
  | S n', String _ r => drop n' r
  | S _, EmptyString => EmptyString
  end.

Fixpoint findFirst (s p : string) : option (string * string) :=
  if startsWith s p then Some (EmptyString, drop (String.length p) s)
  else
    match s with
    | EmptyString => None
    | String c r =>
        match findFirst r p with
        | Some (a, b) => Some (String c a, b)
        | None => None
        end
    end.

(** The replacement text of [String.prototype.replace] for a string
    pattern: [$$], [$&], [$`] and [$'] are substituted, any other [$]
    stands for itself. *)
Fixpoint getSubstitution (matched before after : string) (r : string) : string :=
  match r with
  | EmptyString => EmptyString
  | String c r1 =>
      if ascii_dec c "$" then
        match r1 with
        | EmptyString => String c EmptyString
        | String d r2 =>
            if ascii_dec d "$" then
              String "$" (getSubstitution matched before after r2)
            else if ascii_dec d "&" then
              matched +:+ getSubstitution matched before after r2
            else if ascii_dec d "`" then
              before +:+ getSubstitution matched before after r2
            else if ascii_dec d "'" then
              after +:+ getSubstitution matched before after r2
            else String c (getSubstitution matched before after r1)
        end
      else String c (getSubstitution matched before after r1)
  end.

(** [s.replace(pattern, replacement)] for a string [pattern]: the first
    occurrence only. *)
Definition replace (s pattern replacement : string) : string :=
  match findFirst s pattern with
  | None => s
  | Some (before, after) =>
      before +:+ getSubstitution pattern before after replacement +:+ after
  end.

(** [xs.slice(0, n)] *)
Definition slice0 {A} (n : Z) (xs : list A) : list A :=
  if n <? 0 then firstn (Z.to_nat (Z.of_nat (length xs) + n)) xs
  else firstn (Z.to_nat n) xs.

(** [xs.some(p)] and [xs.find(p)] *)
Definition some {A} (p : A -> bool) (xs : list A) : bool := existsb p xs.
Definition find {A} (p : A -> bool) (xs : list A) : option A := List.find p xs.

(** A line feed. *)
Definition nl : string := String (ascii_of_nat 10) EmptyString.

(** [`${x}`] for [x : string | undefined]. *)
Definition show (o : option string) : string :=
  match o with Some s => s | None => "undefined" end.

(** [`${n}`] for an integer [n]. *)
Definition showZ (n : Z) : string := NilZero.string_of_int (Z.to_int n).

End Js.

(** ** Insertion-ordered maps (JavaScript [Map])

    [Map.prototype.set] keeps the position of an existing key and appends a
    new key at the end; iteration follows that order. *)

Module OMap.
Section OMap.
Context {K V : Type} `{EqDecision K}.

Fixpoint get (k : K) (m : list (K * V)) : option V :=
  match m with
  | [] => None
  | (k', v) :: r => if decide (k' = k) then Some v else get k r
  end.

Definition has (k : K) (m : list (K * V)) : bool :=
  match get k m with Some _ => true | None => false end.

Fixpoint set (k : K) (v : V) (m : list (K * V)) : list (K * V) :=
  match m with
  | [] => [(k, v)]
  | (k', v') :: r =>
      if decide (k' = k) then (k', v) :: r else (k', v') :: set k v r
  end.

Fixpoint delete (k : K) (m : list (K * V)) : list (K * V) :=
  match m with
  | [] => []
  | (k', v') :: r =>
      if decide (k' = k) then delete k r else (k', v') :: delete k r
  end.

Definition keys (m : list (K * V)) : list K := map fst m.
Definition values (m : list (K * V)) : list V := map snd m.
Definition size (m : list (K * V)) : Z := Z.of_nat (length m).

End OMap.
End OMap.

(** ** Insertion-ordered sets (JavaScript [Set]) *)

Module OSet.
Section OSet.
Context {K : Type} `{EqDecision K}.

Definition has (k : K) (s : list K) : bool := bool_decide (k ∈ s).

Definition add (k : K) (s : list K) : list K :=
  if has k s then s else s ++ [k].

Definition of_list (l : list K) : list K :=
  fold_left (fun s k => add k s) l [].

End OSet.
End OSet.

(** ** Prefix index: [src/utils/Trie.ts] *)

Module Trie.

(** [class TrieNode]: [children] is a [Map<string, TrieNode>] keyed by one
    character; [value] is the word stored at an end node. *)
#[local] Unset Elimination Schemes.
Inductive TrieNode : Type :=
  mkTrieNode (children : list (ascii * TrieNode))
             (isEndOfWord : bool)
             (value : option string).
#[local] Set Elimination Schemes.

Definition children (n : TrieNode) : list (ascii * TrieNode) :=
  match n with mkTrieNode c _ _ => c end.
Definition isEndOfWord (n : TrieNode) : bool :=
  match n with mkTrieNode _ e _ => e end.
Definition value (n : TrieNode) : option string :=
  match n with mkTrieNode _ _ v => v end.

(** [new TrieNode()] *)
Definition newNode : TrieNode := mkTrieNode [] false None.

Record Trie : Type := mkTrie { root : TrieNode; size : Z }.

(** [new Trie()] *)
Definition empty : Trie := mkTrie newNode 0.

(** The loop of [insert] below the node [node], for the remaining
    characters [cs] of the normalized word; the flag tells whether the end
    node was newly marked (so that [size] grows). *)
Fixpoint insertPath (word : string) (cs : string) (node : TrieNode)
  : TrieNode * bool :=
  match cs with
  | EmptyString =>
      if isEndOfWord node then (node, false)
      else (mkTrieNode (children node) true (Some word), true)
  | String c rest =>
      let child :=
        match OMap.get c (children node) with
        | Some n => n
        | None => newNode
        end in
      let '(child', grew) := insertPath word rest child in
      (mkTrieNode (OMap.set c child' (children node))
                  (isEndOfWord node) (value node), grew)
  end.

(** [insert(word)] *)
Definition insert (word : string) (t : Trie) : Trie :=
  if negb (Js.truthy word) then t
  else
    let '(r, grew) := insertPath word (Js.toLowerCase word) (root t) in
    mkTrie r (if grew then size t + 1 else size t).

(** [findNode(prefix)] *)
Fixpoint findNode (prefix : string) (current : TrieNode) : option TrieNode :=
  match prefix with
  | EmptyString => Some current
  | String c rest =>
      match OMap.get c (children current) with
      | None => None
      | Some child => findNode rest child
      end
  end.

(** [search(word)] *)
Definition search (t : Trie) (word : string) : bool :=
  if negb (Js.truthy word) then false
  else match findNode (Js.toLowerCase word) (root t) with
       | Some node => isEndOfWord node
       | None => false
       end.

(** [startsWith(prefix)] *)
Definition startsWith (t : Trie) (prefix : string) : bool :=
  if negb (Js.truthy prefix) then true
  else match findNode (Js.toLowerCase prefix) (root t) with
       | Some _ => true
       | None => false
       end.

Definition full (results : list string) (limit : Z) : bool :=
  Z.of_nat (length results) >=? limit.

(** The [for (const [, childNode] of node.children)] loop of [dfsCollect];
    [recur] is the recursive call. A [return] inside the loop leaves the
    whole call, so the loop stops as soon as [results] is full. *)
Definition dfsLoop (recur : TrieNode -> list string -> list string) (limit : Z)
  : list (ascii * TrieNode) -> list string -> list string :=
  fix loop (ch : list (ascii * TrieNode)) (results : list string) : list string :=
    match ch with
    | [] => results
    | (_, childNode) :: rest =>
        let pushed := isEndOfWord childNode && Js.truthy_opt (value childNode) in
        let results1 :=
          if pushed
          then results ++ [default EmptyString (value childNode)]
          else results in
        if pushed && full results1 limit then results1
        else
          let results2 := recur childNode results1 in
          if full results2 limit then results2
          else loop rest results2
    end.

(** [dfsCollect(node, results, limit)]: [results] is the array being
    filled; the filled array is returned. *)
Fixpoint dfsCollect (node : TrieNode) (results : list string) (limit : Z)
  : list string :=
  if full results limit then results
  else dfsLoop (fun c r => dfsCollect c r limit) limit (children node) results.

(** [autocomplete(prefix, limit)]. The limit is an integer here; the
    source compares [results.length >= limit] on any number, so a
    fractional limit lets one item more through than its integer part. *)
Definition autocomplete (t : Trie) (prefix : string) (limit : Z) : list string :=
  if negb (Js.truthy prefix) then []
  else
    match findNode (Js.toLowerCase prefix) (root t) with
    | None => []
    | Some startNode =>
        let results :=
          if isEndOfWord startNode && Js.truthy_opt (value startNode)
          then [default EmptyString (value startNode)]
          else [] in
        dfsCollect startNode results limit
    end.

(** The two assignments [node.isEndOfWord = false; node.value = undefined]
    of [delete], on the node reached by [path]. *)
Definition unmarkNode (n : TrieNode) : TrieNode :=
  mkTrieNode (children n) false None.

Fixpoint alterNode (f : TrieNode -> TrieNode) (path : string) (node : TrieNode)
  : TrieNode :=
  match path with
  | EmptyString => f node
  | String c rest =>
      match OMap.get c (children node) with
      | None => node
      | Some child =>
          mkTrieNode (OMap.set c (alterNode f rest child) (children node))
                     (isEndOfWord node) (value node)
      end
  end.

(** [deleteHelper(node, word, index)], with [cs] the characters of [word]
    from [index] on; returns the updated node and the boolean result.
    A character is one unit here, so [word[index]] and the iteration
    [for (const char of word)] of [insert] and [findNode] read the same
    characters. On a character outside the Basic Multilingual Plane the
    source differs: [word[index]] is half of a surrogate pair, no child
    has that key and nothing is pruned. *)
Fixpoint deleteHelper (node : TrieNode) (cs : string) : TrieNode * bool :=
  match cs with
  | EmptyString => (node, OMap.size (children node) =? 0)
  | String c rest =>
      match OMap.get c (children node) with
      | None => (node, false)
      | Some childNode =>
          let '(childNode', shouldDeleteChild) := deleteHelper childNode rest in
          if shouldDeleteChild then
            let ch := OMap.delete c (children node) in
            (mkTrieNode ch (isEndOfWord node) (value node),
             (OMap.size ch =? 0) && negb (isEndOfWord node))
          else
            (mkTrieNode (OMap.set c childNode' (children node))
                        (isEndOfWord node) (value node), false)
      end
  end.

(** [delete(word)]: the updated trie and the returned boolean. *)
Definition delete (word : string) (t : Trie) : Trie * bool :=
  if negb (Js.truthy word) then (t, false)
  else
    let normalizedWord := Js.toLowerCase word in
    match findNode normalizedWord (root t) with
    | None => (t, false)
    | Some node =>
        if negb (isEndOfWord node) then (t, false)
        else
          let r1 := alterNode unmarkNode normalizedWord (root t) in
          let '(r2, _) := deleteHelper r1 normalizedWord in
          (mkTrie r2 (size t - 1), true)
    end.

(** [clear()] *)
Definition clear (t : Trie) : Trie := empty.

(** [getSize()] *)
Definition getSize (t : Trie) : Z := size t.

(** Sequences of mutating calls on one trie. *)
Inductive Op : Type :=
| OpInsert (word : string)
| OpDelete (word : string)
| OpClear.

Definition step (t : Trie) (o : Op) : Trie :=
  match o with
  | OpInsert w => insert w t
  | OpDelete w => fst (delete w t)
  | OpClear => clear t
  end.

Definition run (ops : list Op) : Trie := fold_left step ops empty.

(** The trie obtained by inserting the words [ws] in order. *)
Definition insertAll (ws : list string) : Trie :=
  fold_left (fun t w => insert w t) ws empty.

End Trie.

(** ** Bounded cache: [src/utils/LRUCache.ts]

    The node objects live in an explicit store [heap], indexed by their
    identity [loc]; [prev]/[next] and [head]/[tail] hold identities (or
    [None] for [null]), and the backing [Map] sends a key to the identity of
    its node. [nextLoc] is the identity that the next [new LRUNode] gets. *)

Module LRU.

Definition loc : Type := positive.

Section LRU.
Context {K V : Type} `{Countable K}.

(** [class LRUNode<K, V>] *)
Record LRUNode : Type := mkLRUNode {
  key : K;
  value : V;
  prev : option loc;
  next : option loc;
}.

(** [class LRUCache<K, V>] *)
Record LRUCache : Type := mkLRUCache {
  capacity : Z;
  cache : gmap K loc;
  heap : gmap loc LRUNode;
  head : option loc;
  tail : option loc;
  hits : Z;
  misses : Z;
  nextLoc : loc;
}.

(** Field assignments. *)
Definition set_value (v : V) (n : LRUNode) : LRUNode :=
  mkLRUNode (key n) v (prev n) (next n).
Definition set_prev (p : option loc) (n : LRUNode) : LRUNode :=
  mkLRUNode (key n) (value n) p (next n).
Definition set_next (q : option loc) (n : LRUNode) : LRUNode :=
  mkLRUNode (key n) (value n) (prev n) q.

Definition with_cache (m : gmap K loc) (c : LRUCache) : LRUCache :=
  mkLRUCache (capacity c) m (heap c) (head c) (tail c) (hits c) (misses c)
             (nextLoc c).
Definition with_heap (h : gmap loc LRUNode) (c : LRUCache) : LRUCache :=
  mkLRUCache (capacity c) (cache c) h (head c) (tail c) (hits c) (misses c)
             (nextLoc c).
Definition with_head (l : option loc) (c : LRUCache) : LRUCache :=
  mkLRUCache (capacity c) (cache c) (heap c) l (tail c) (hits c) (misses c)
             (nextLoc c).
Definition with_tail (l : option loc) (c : LRUCache) : LRUCache :=
  mkLRUCache (capacity c) (cache c) (heap c) (head c) l (hits c) (misses c)
             (nextLoc c).
Definition with_hits (n : Z) (c : LRUCache) : LRUCache :=
  mkLRUCache (capacity c) (cache c) (heap c) (head c) (tail c) n (misses c)
             (nextLoc c).
Definition with_misses (n : Z) (c : LRUCache) : LRUCache :=
  mkLRUCache (capacity c) (cache c) (heap c) (head c) (tail c) (hits c) n
             (nextLoc c).

(** [new LRUCache(capacity)]: either the thrown [Error] (its message) or
    the constructed cache. The capacity is an integer here. The guard of
    the source is [capacity <= 0] alone: it also lets a fractional
    capacity and [NaN] through, which are not covered. *)
Definition new (capacity : Z) : string + LRUCache :=
  if capacity <=? 0 then inl "Capacity must be greater than 0"
  else inr (mkLRUCache capacity ∅ ∅ None None 0 0 1%positive).

(** [removeNode(node)] *)
Definition removeNode (node : loc) (c : LRUCache) : LRUCache :=
  let c1 :=
    match heap c !! node with
    | None => c
    | Some n =>
        match prev n with
        | Some p => with_heap (alter (set_next (next n)) p (heap c)) c
        | None => with_head (next n) c
        end
    end in
  match heap c1 !! node with
  | None => c1
  | Some n =>
      match next n with
      | Some q => with_heap (alter (set_prev (prev n)) q (heap c1)) c1
      | None => with_tail (prev n) c1
      end
  end.

(** [addToHead(node)] *)
Definition addToHead (node : loc) (c : LRUCache) : LRUCache :=
  let h1 := alter (set_prev None) node (heap c) in
  let h2 := alter (set_next (head c)) node h1 in
  let h3 :=
    match head c with
    | Some hd => alter (set_prev (Some node)) hd h2
    | None => h2
    end in
  let c1 := with_head (Some node) (with_heap h3 c) in
  match tail c1 with
  | None => with_tail (Some node) c1
  | Some _ => c1
  end.

(** [moveToHead(node)] *)
Definition moveToHead (node : loc) (c : LRUCache) : LRUCache :=
  if decide (Some node = head c) then c
  else addToHead node (removeNode node c).

(** [removeTail()] *)
Definition removeTail (c : LRUCache) : LRUCache :=
  match tail c with
  | None => c
  | Some tailNode =>
      let c1 := removeNode tailNode c in
      match heap c1 !! tailNode with
      | Some n => with_cache (delete (key n) (cache c1)) c1
      | None => c1
      end
  end.

(** [get(key)]: the updated cache and the returned value
    ([None] for [undefined]). *)
Definition get (k : K) (c : LRUCache) : LRUCache * option V :=
  match cache c !! k with
  | None => (with_misses (misses c + 1) c, None)
  | Some node =>
      let c1 := moveToHead node (with_hits (hits c + 1) c) in
      (c1, value <$> heap c1 !! node)
  end.

(** [put(key, value)] *)
Definition put (k : K) (v : V) (c : LRUCache) : LRUCache :=
  match cache c !! k with
  | Some existingNode =>
      moveToHead existingNode
        (with_heap (alter (set_value v) existingNode (heap c)) c)
  | None =>
      let newNode := nextLoc c in
      let c1 :=
        mkLRUCache (capacity c) (<[k := newNode]> (cache c))
                   (<[newNode := mkLRUNode k v None None]> (heap c))
                   (head c) (tail c) (hits c) (misses c)
                   (Pos.succ newNode) in
      let c2 := addToHead newNode c1 in
      if Z.of_nat (size (cache c2)) >? capacity c2 then removeTail c2 else c2
  end.

(** [has(key)] *)
Definition has (k : K) (c : LRUCache) : bool :=
  bool_decide (is_Some (cache c !! k)).

(** [delete(key)]: the updated cache and the returned boolean. *)
Definition delete (k : K) (c : LRUCache) : LRUCache * bool :=
  match cache c !! k with
  | None => (c, false)
  | Some node =>
      let c1 := removeNode node c in
      (with_cache (base.delete k (cache c1)) c1, true)
  end.

(** [clear()] *)
Definition clear (c : LRUCache) : LRUCache :=
  mkLRUCache (capacity c) ∅ (heap c) None None 0 0 (nextLoc c).

(** [size()] *)
Definition size (c : LRUCache) : Z := Z.of_nat (base.size (cache c)).

(** The [while (current)] traversal shared by [keys()], [values()] and
    [entries()]: the nodes met from [current] along [next]. [None] when
    the fuel runs out before [null] is reached. *)
Fixpoint walk (fuel : nat) (h : gmap loc LRUNode) (current : option loc)
  : option (list LRUNode) :=
  match current with
  | None => Some []
  | Some l =>
      match fuel with
      | O => None
      | S fuel' =>
          match h !! l with
          | None => Some [] (* unreachable: a dangling reference *)
          | Some n => cons n <$> walk fuel' h (next n)
          end
      end
  end.

(** The linked list from [head]; the live nodes are a subset of the
    store, so its size (plus one for the final [null]) is enough fuel. *)
Definition nodes (c : LRUCache) : option (list LRUNode) :=
  walk (S (base.size (heap c))) (heap c) (head c).

(** [keys()]: most recently used first. *)
Definition keys (c : LRUCache) : option (list K) :=
  map key <$> nodes c.

(** [entries()] *)
Definition entries (c : LRUCache) : option (list (K * V)) :=
  map (fun n => (key n, value n)) <$> nodes c.

(** [values()] *)
Definition values (c : LRUCache) : option (list V) :=
  map value <$> nodes c.

(** [getCapacity()] *)
Definition getCapacity (c : LRUCache) : Z := capacity c.

(** [resetStats()] *)
Definition resetStats (c : LRUCache) : LRUCache :=
  with_misses 0 (with_hits 0 c).

(** Length of the doubly-linked list reachable from [head]. *)
Definition listLength (c : LRUCache) : option nat :=
  length <$> nodes c.

(** Calls on one cache object. *)
Inductive Op : Type :=
| OpGet (k : K)
| OpPut (k : K) (v : V)
| OpHas (k : K)
| OpDelete (k : K)
| OpClear.

Definition step (c : LRUCache) (o : Op) : LRUCache :=
  match o with
  | OpGet k => fst (get k c)
  | OpPut k v => put k v c
  | OpHas k => c
  | OpDelete k => fst (delete k c)
  | OpClear => clear c
  end.

Definition run (ops : list Op) (c : LRUCache) : LRUCache :=
  fold_left step ops c.

(** [put] of each pair in turn. *)
Definition putAll (kvs : list (K * V)) (c : LRUCache) : LRUCache :=
  fold_left (fun c kv => put (fst kv) (snd kv) c) kvs c.

End LRU.

Arguments LRUNode : clear implicits.
Arguments LRUCache K V {_ _}.
Arguments Op : clear implicits.

End LRU.

(** ** Case records: [src/types/caseStudySchema.ts]

    The string-literal union types ([severity], [evidence_value],
    [category], ...) are strings at run time and are modelled as strings.
    Only the fields read by the ingestion and answer code are kept. *)

Module Schema.

Record TimelineEvent : Type := mkTimelineEvent {
  timestamp : string;
  event : string;
  event_artifact_id : option string;  (* [artifact_id?] *)
  tool : option string;               (* [tool?] *)
  significance : string;
}.

Record ForensicArtifact : Type := mkForensicArtifact {
  artifact_id : string;
  type : string;
  description : string;
  location : string;
  evidence_value : string;
}.

Record ToolUsage : Type := mkToolUsage {
  tool_name : string;
  purpose : string;
  output_summary : string;
}.

Record Finding : Type := mkFinding {
  finding_id : string;
  category : string;
  finding_description : string;       (* [description] *)
  supporting_artifacts : list string;
  confidence : string;
  impact : string;
}.

Record InvestigationLesson : Type := mkInvestigationLesson {
  lesson_id : string;
  lesson_category : string;           (* [category] *)
  lesson_description : string;        (* [description] *)
  best_practice : string;
}.

Record CaseStudyEnhanced : Type := mkCaseStudyEnhanced {
  case_id : string;
  title : string;
  summary : string;
  industry : string;
  incident_type : string;
  severity : string;
  timeline : list TimelineEvent;
  artifacts : list ForensicArtifact;
  tools_used : list ToolUsage;
  findings : list Finding;
  conclusions : list string;
  lessons_learned : list InvestigationLesson;
  keywords : list string;
}.

(** [interface Citation]; [confidence] is documented there as a
    "0-1 relevance score". *)
Record Citation : Type := mkCitation {
  cit_case_id : string;               (* [case_id] *)
  cit_artifact_id : option string;    (* [artifact_id?] *)
  cit_finding_id : option string;     (* [finding_id?] *)
  cit_confidence : Q;                 (* [confidence] *)
}.

(** [type PromptMode] *)
Inductive PromptMode : Type := direct_qa | guided_walkthrough | teaching.

(** [interface RAGResponse] *)
Record RAGResponse : Type := mkRAGResponse {
  query : string;
  mode : PromptMode;
  answer : string;
  citations : list Citation;
  response_confidence : Q;            (* [confidence] *)
  follow_up_suggestions : list string;
  related_topics : option (list string);
}.

End Schema.

(** ** Case ledger and relevance search:
       [src/services/CaseStudyIngestion.ts] *)

Module Ingestion.
Import Schema.

Record IngestionRule : Type := mkRule {
  field : string;
  weight : Q;
  indexed : bool;
  trie_indexed : bool;
}.

Definition INGESTION_RULES : list IngestionRule :=
  [ mkRule "case_id" 1 true true;
    mkRule "title" 0.95 true true;
    mkRule "summary" 0.85 true false;
    mkRule "incident_type" 0.9 true true;
    mkRule "industry" 0.5 true false;
    mkRule "keywords" 0.8 true true;
    mkRule "artifacts.type" 0.75 true true;
    mkRule "findings.category" 0.7 true false;
    mkRule "tools_used.tool_name" 0.65 true true;
    mkRule "lessons_learned.category" 0.5 true false ].

Record IndexedCase : Type := mkIndexedCase {
  ic_case : CaseStudyEnhanced;                       (* [case] *)
  ic_keywords : list string;                         (* [keywords: Set] *)
  artifact_map : list (string * ForensicArtifact);   (* [Map] *)
  finding_map : list (string * Finding);             (* [Map] *)
  tool_names : list string;                          (* [Set] *)
}.

Record SearchResult : Type := mkSearchResult {
  sr_case_id : string;                (* [case_id] *)
  relevance_score : Q;
  matched_keywords : list string;
  matched_artifacts : list string;
  matched_findings : list string;
}.

(** The fields of [class CaseStudyIngestionService]. *)
Record Service : Type := mkService {
  indexedCases : list (string * IndexedCase);        (* [Map] *)
  keywordIndex : list (string * list string);        (* [Map<string, Set>] *)
  artifactTrie : Trie.Trie;
  toolTrie : Trie.Trie;
  caseTrie : Trie.Trie;
}.

Definition empty : Service :=
  mkService [] [] Trie.empty Trie.empty Trie.empty.

(** The values that [getNestedValue] meets on a case record: a string, an
    array of strings, an array of objects (each given by its string
    properties), or [undefined]. *)
Inductive JsValue : Type :=
| JString (s : string)
| JStrings (xs : list string)
| JObjects (xs : list (string -> option string))
| JUndefined.

(** Property access [caseStudy[part]], for the modelled fields. *)
Definition caseField (c : CaseStudyEnhanced) (part : string) : JsValue :=
  if String.eqb part "case_id" then JString (case_id c)
  else if String.eqb part "title" then JString (title c)
  else if String.eqb part "summary" then JString (summary c)
  else if String.eqb part "industry" then JString (industry c)
  else if String.eqb part "incident_type" then JString (incident_type c)
  else if String.eqb part "severity" then JString (severity c)
  else if String.eqb part "conclusions" then JStrings (conclusions c)
  else if String.eqb part "keywords" then JStrings (keywords c)
  else if String.eqb part "artifacts" then
    JObjects (map (fun a p =>
      if String.eqb p "artifact_id" then Some (artifact_id a)
      else if String.eqb p "type" then Some (type a)
      else if String.eqb p "description" then Some (description a)
      else if String.eqb p "location" then Some (location a)
      else if String.eqb p "evidence_value" then Some (evidence_value a)
      else None) (artifacts c))
  else if String.eqb part "findings" then
    JObjects (map (fun f p =>
      if String.eqb p "finding_id" then Some (finding_id f)
      else if String.eqb p "category" then Some (category f)
      else if String.eqb p "description" then Some (finding_description f)
      else if String.eqb p "confidence" then Some (confidence f)
      else if String.eqb p "impact" then Some (impact f)
      else None) (findings c))
  else if String.eqb part "tools_used" then
    JObjects (map (fun t p =>
      if String.eqb p "tool_name" then Some (tool_name t)
      else if String.eqb p "purpose" then Some (purpose t)
      else if String.eqb p "output_summary" then Some (output_summary t)
      else None) (tools_used c))
  else if String.eqb part "lessons_learned" then
    JObjects (map (fun l p =>
      if String.eqb p "lesson_id" then Some (lesson_id l)
      else if String.eqb p "category" then Some (lesson_category l)
      else if String.eqb p "description" then Some (lesson_description l)
      else if String.eqb p "best_practice" then Some (best_practice l)
      else None) (lessons_learned c))
  else JUndefined.

(** The [for (const part of parts)] loop of [getNestedValue], after the
    first part has been read from the case record; [None] is the returned
    [null]. Properties of strings are not modelled (no rule names one). *)
Definition getNestedLoop (parts : list string) (current : JsValue)
  : option JsValue :=
  match parts with
  | [] => Some current
  | part :: rest =>
      match current with
      | JObjects items =>
          (* [return current.map(item => item[part]).filter(Boolean)] *)
          Some (JStrings (filter (fun s => Js.truthy s = true)
                            (omap (fun item => item part) items)))
      | JStrings _ => Some (JStrings [])
      | JString _ | JUndefined => None
      end
  end.

(** [getNestedValue(obj, path)] on a case record. *)
Definition getNestedValue (c : CaseStudyEnhanced) (path : string)
  : option JsValue :=
  match Js.split "." path with
  | [] => None
  | part :: rest =>
      match caseField c part with
      | JUndefined => None
      | v => getNestedLoop rest v
      end
  end.

(** [extractKeywords(caseStudy, keywords)] *)
Definition extractKeywords (c : CaseStudyEnhanced) (kws : list string)
  : list string :=
  fold_left
    (fun kws rule =>
       if negb (indexed rule) then kws
       else
         match getNestedValue c (field rule) with
         | Some (JStrings vs) =>
             fold_left (fun kws v => OSet.add (Js.toLowerCase v) kws) vs kws
         | Some (JString v) => OSet.add (Js.toLowerCase v) kws
         | _ => kws
         end)
    INGESTION_RULES kws.

(** The [caseStudy.keywords.forEach] loop of [ingestCase]: the only place
    where [keywordIndex] is written. *)
Definition indexKeyword (cid : string) (st : list string * list (string * list string))
  (keyword : string) : list string * list (string * list string) :=
  let '(kws, index) := st in
  let normalized := Js.toLowerCase keyword in
  let kws := OSet.add normalized kws in
  let index :=
    if negb (OMap.has normalized index) then OMap.set normalized [] index
    else index in
  let index :=
    match OMap.get normalized index with
    | Some ids => OMap.set normalized (OSet.add cid ids) index
    | None => index
    end in
  (kws, index).

(** [ingestCase(caseStudy)] *)
Definition ingestCase (c : CaseStudyEnhanced) (s : Service) : Service :=
  let kws := extractKeywords c [] in
  (* artifacts *)
  let '(amap, atrie, kws) :=
    fold_left
      (fun '(amap, atrie, kws) a =>
         (OMap.set (artifact_id a) a amap,
          Trie.insert (Js.toLowerCase (type a)) atrie,
          OSet.add (Js.toLowerCase (type a)) kws))
      (artifacts c) ([], artifactTrie s, kws) in
  (* findings *)
  let '(fmap, kws) :=
    fold_left
      (fun '(fmap, kws) f =>
         (OMap.set (finding_id f) f fmap, OSet.add (category f) kws))
      (findings c) ([], kws) in
  (* tools *)
  let '(tnames, ttrie, kws) :=
    fold_left
      (fun '(tnames, ttrie, kws) t =>
         (OSet.add (tool_name t) tnames,
          Trie.insert (Js.toLowerCase (tool_name t)) ttrie,
          OSet.add (Js.toLowerCase (tool_name t)) kws))
      (tools_used c) ([], toolTrie s, kws) in
  (* case identifiers *)
  let ctrie :=
    Trie.insert (Js.toLowerCase (title c))
      (Trie.insert (Js.toLowerCase (case_id c)) (caseTrie s)) in
  let kws := OSet.add (Js.toLowerCase (case_id c)) kws in
  let kws := OSet.add (Js.toLowerCase (incident_type c)) kws in
  (* keywords *)
  let '(kws, index) :=
    fold_left (indexKeyword (case_id c)) (keywords c) (kws, keywordIndex s) in
  mkService
    (OMap.set (case_id c) (mkIndexedCase c kws amap fmap tnames) (indexedCases s))
    index atrie ttrie ctrie.

(** [ingestCases(cases)] *)
Definition ingestCases (cs : list CaseStudyEnhanced) (s : Service) : Service :=
  fold_left (fun s c => ingestCase c s) cs s.

(** [tokenize(query)] *)
Definition tokenize (query : string) : list string :=
  filter (fun term => 2 < Js.strlen term)
    (Js.splitWs
       (Js.filterChars
          (fun c => Js.is_word c || Js.is_space c || bool_decide (c = "-"%char))
          (Js.toLowerCase query))).

(** [calculateTermWeight(term)]; a weight of 0 would be falsy. *)
Definition calculateTermWeight (term : string) : Q :=
  match Js.find (fun r => Js.includes (field r) term) INGESTION_RULES with
  | Some rule => if Qeq_bool (weight rule) 0 then 0.5 else weight rule
  | None => 0.5
  end.

Definition newResult (caseId : string) : SearchResult :=
  mkSearchResult caseId 0 [] [] [].

(** The body of [matchingCaseIds.forEach(caseId => ...)] for one [term].
    [indexedCases.get(caseId)!] is dereferenced: [None] is the
    [TypeError] of a missing entry. *)
Definition scoreCase (s : Service) (term : string)
  (results : option (list (string * SearchResult))) (caseId : string)
  : option (list (string * SearchResult)) :=
  match results with
  | None => None
  | Some results =>
      let results :=
        if negb (OMap.has caseId results)
        then OMap.set caseId (newResult caseId) results else results in
      match OMap.get caseId results, OMap.get caseId (indexedCases s) with
      | Some result, Some indexedCase =>
          let r1 :=
            mkSearchResult (sr_case_id result)
              (relevance_score result + calculateTermWeight term)
              (matched_keywords result ++ [term])
              (matched_artifacts result) (matched_findings result) in
          let r2 :=
            fold_left
              (fun r '(artifactId, artifact) =>
                 if Js.includes (Js.toLowerCase (type artifact)) term
                    || Js.includes (Js.toLowerCase (description artifact)) term
                 then mkSearchResult (sr_case_id r) (relevance_score r + 0.3)
                        (matched_keywords r)
                        (matched_artifacts r ++ [artifactId])
                        (matched_findings r)
                 else r)
              (artifact_map indexedCase) r1 in
          let r3 :=
            fold_left
              (fun r '(findingId, finding) =>
                 if Js.includes (Js.toLowerCase (finding_description finding)) term
                 then mkSearchResult (sr_case_id r) (relevance_score r + 0.25)
                        (matched_keywords r) (matched_artifacts r)
                        (matched_findings r ++ [findingId])
                 else r)
              (finding_map indexedCase) r2 in
          Some (OMap.set caseId r3 results)
      | _, _ => None
      end
  end.

(** Stable sort by descending [relevance_score]
    ([.sort((a, b) => b.relevance_score - a.relevance_score)]). *)
Fixpoint insertByScore (x : SearchResult) (l : list SearchResult)
  : list SearchResult :=
  match l with
  | [] => [x]
  | y :: r =>
      if Qlt_le_dec (relevance_score x) (relevance_score y)
      then y :: insertByScore x r
      else x :: y :: r
  end.

Definition sortByScore (l : list SearchResult) : list SearchResult :=
  fold_right insertByScore [] l.

(** [search(query, limit)] *)
Definition search (s : Service) (query : string) (limit : Z)
  : option (list SearchResult) :=
  let queryTerms := tokenize query in
  let results :=
    fold_left
      (fun results term =>
         let matchingCaseIds := default [] (OMap.get term (keywordIndex s)) in
         fold_left (scoreCase s term) matchingCaseIds results)
      queryTerms (Some []) in
  match results with
  | None => None
  | Some results => Some (Js.slice0 limit (sortByScore (OMap.values results)))
  end.

(** [validateCitation(citation)] *)
Definition validateCitation (s : Service) (citation : string) : bool :=
  match Js.split ":" citation with
  | [caseId] => OMap.has caseId (indexedCases s)
  | [caseId; itemId] =>
      match OMap.get caseId (indexedCases s) with
      | None => false
      | Some indexed_ =>
          OMap.has itemId (artifact_map indexed_)
          || OMap.has itemId (finding_map indexed_)
      end
  | _ => false
  end.

(** [getAllCaseIds()] *)
Definition getAllCaseIds (s : Service) : list string :=
  OMap.keys (indexedCases s).

(** [getCaseById(caseId)]; [None] is the returned [null]. *)
Definition getCaseById (s : Service) (caseId : string)
  : option CaseStudyEnhanced :=
  match OMap.get caseId (indexedCases s) with
  | Some indexed_ => Some (ic_case indexed_)
  | None => None
  end.

(** [getArtifact(caseId, artifactId)] *)
Definition getArtifact (s : Service) (caseId artifactId : string)
  : option ForensicArtifact :=
  match OMap.get caseId (indexedCases s) with
  | Some indexed_ => OMap.get artifactId (artifact_map indexed_)
  | None => None
  end.

(** [getFinding(caseId, findingId)] *)
Definition getFinding (s : Service) (caseId findingId : string)
  : option Finding :=
  match OMap.get caseId (indexedCases s) with
  | Some indexed_ => OMap.get findingId (finding_map indexed_)
  | None => None
  end.

(** [getCasesByArtifactType(artifactType)] *)
Definition getCasesByArtifactType (s : Service) (artifactType : string)
  : list CaseStudyEnhanced :=
  let normalized := Js.toLowerCase artifactType in
  fold_left
    (fun results indexed_ =>
       let hasArtifact :=
         Js.some (fun artifact =>
                    String.eqb (Js.toLowerCase (type artifact)) normalized)
                 (OMap.values (artifact_map indexed_)) in
       if hasArtifact then results ++ [ic_case indexed_] else results)
    (OMap.values (indexedCases s)) [].

(** [getCasesByTool(toolName)] *)
Definition getCasesByTool (s : Service) (toolName : string)
  : list CaseStudyEnhanced :=
  let normalized := Js.toLowerCase toolName in
  fold_left
    (fun results indexed_ =>
       if Js.some (fun tool => String.eqb (Js.toLowerCase tool) normalized)
                  (tool_names indexed_)
       then results ++ [ic_case indexed_] else results)
    (OMap.values (indexedCases s)) [].

(** [getAutocompleteSuggestions(partial)] *)
Definition getAutocompleteSuggestions (s : Service) (partial : string)
  : list string :=
  let caseSuggestions :=
    Trie.autocomplete (caseTrie s) (Js.toLowerCase partial) 3 in
  let artifactSuggestions :=
    Trie.autocomplete (artifactTrie s) (Js.toLowerCase partial) 3 in
  let toolSuggestions :=
    Trie.autocomplete (toolTrie s) (Js.toLowerCase partial) 3 in
  Js.slice0 8 (caseSuggestions ++ artifactSuggestions ++ toolSuggestions).

(** [getStats()] *)
Record Stats : Type := mkStats {
  total_cases : Z;
  total_keywords : Z;
  total_artifacts : Z;
  total_findings : Z;
  unique_tools : Z;
}.

Definition getStats (s : Service) : Stats :=
  mkStats
    (OMap.size (indexedCases s))
    (OMap.size (keywordIndex s))
    (fold_left (fun sum indexed_ => sum + OMap.size (artifact_map indexed_))
               (OMap.values (indexedCases s)) 0)
    (fold_left (fun sum indexed_ => sum + OMap.size (finding_map indexed_))
               (OMap.values (indexedCases s)) 0)
    (Z.of_nat (length (OSet.of_list
       (flat_map tool_names (OMap.values (indexedCases s)))))).

End Ingestion.

(** ** Legacy cases: [src/services/CaseStudyMigration.ts] *)

Module Migration.
Import Schema.

Record LegacyArtifact : Type := mkLegacyArtifact {
  la_type : string;                   (* [type] *)
  la_description : string;            (* [description] *)
  la_location : string;               (* [location] *)
}.

Record LegacyStep : Type := mkLegacyStep {
  step : Z;
  action : string;
  ls_tool : string;                   (* [tool] *)
  expectedResult : string;
}.

Record LegacyCase : Type := mkLegacyCase {
  id : string;
  scenario : string;
  lc_artifacts : list LegacyArtifact; (* [artifacts] *)
  workflow : list LegacyStep;
  outcomes : list string;
  legalNotes : list string;
}.

(** [xs.some(v => s.includes(v))] *)
Definition includesAny (s : string) (xs : list string) : bool :=
  Js.some (fun v => Js.includes s v) xs.

Definition inferEvidenceValue (ty : string) : string :=
  let normalized := Js.toLowerCase ty in
  if includesAny normalized
       ["memory dump"; "pcap"; "disk image"; "registry hive"; "edr alerts"]
  then "high"
  else if includesAny normalized
            ["logs"; "email"; "browser history"; "usb history"]
  then "medium"
  else "low".

Definition inferSignificance (act : string) : string :=
  let normalized := Js.toLowerCase act in
  if includesAny normalized
       ["isolate"; "preserve"; "image"; "memory dump"; "initial compromise"]
  then "critical"
  else if includesAny normalized
            ["analyze"; "identify"; "reconstruct"; "lateral movement"]
  then "major"
  else "minor".

Definition extractToolPurpose (t : string) (wf : list LegacyStep) : string :=
  match Js.find (fun w => String.eqb (ls_tool w) t) wf with
  | Some st => Js.take 100 (action st)
  | None => "Analysis"
  end.

Definition extractToolOutput (t : string) (wf : list LegacyStep) : string :=
  match Js.find (fun w => String.eqb (ls_tool w) t) wf with
  | Some st => Js.take 150 (expectedResult st)
  | None => "N/A"
  end.

Definition classifyFinding (outcome : string) : string :=
  let normalized := Js.toLowerCase outcome in
  if includesAny normalized ["vector"; "entry"; "phishing"] then "attack_vector"
  else if includesAny normalized ["lateral"; "movement"; "propagat"]
  then "lateral_movement"
  else if includesAny normalized ["persistence"; "scheduled"; "startup"]
  then "persistence"
  else if includesAny normalized ["exfiltrat"; "steal"; "transfer"]
  then "exfiltration"
  else if includesAny normalized ["encrypt"; "ransom"; "damage"] then "impact"
  else if includesAny normalized ["apt"; "actor"; "group"] then "attribution"
  else "evidence".

Definition extractRelevantArtifacts (outcome : string)
  (arts : list ForensicArtifact) : list string :=
  Js.slice0 3
    (map artifact_id
       (filter (fun art => Js.includes (Js.toLowerCase outcome)
                             (Js.toLowerCase (type art)) = true) arts)).

Definition inferConfidence (outcome : string) : string :=
  let normalized := Js.toLowerCase outcome in
  if includesAny normalized ["confirmed"; "identified"; "proved"; "established"]
  then "confirmed"
  else if includesAny normalized ["likely"; "probable"; "appears"; "indicates"]
  then "probable"
  else "possible".

Definition inferImpact (outcome : string) : string :=
  let normalized := Js.toLowerCase outcome in
  if includesAny normalized ["encrypt"; "breach"; "exfiltrat"; "compromise"]
  then "critical"
  else if includesAny normalized ["access"; "credential"; "malware"] then "high"
  else if includesAny normalized ["attempt"; "suspicious"] then "medium"
  else "low".

Definition generateLessons (legacy : LegacyCase) : list InvestigationLesson :=
  (if Js.some (fun w => Js.includes (ls_tool w) "FTK"
                        || Js.includes (ls_tool w) "Volatility") (workflow legacy)
   then [mkInvestigationLesson (id legacy +:+ "_lesson_1") "technical"
           "Memory and disk forensics critical for attack reconstruction"
           "Always preserve volatile memory before shutdown"]
   else [])
  ++
  (if Js.some (fun w => Js.includes (Js.toLowerCase (action w)) "hash"
                        || Js.includes (Js.toLowerCase (action w)) "chain")
        (workflow legacy)
   then [mkInvestigationLesson (id legacy +:+ "_lesson_2") "procedural"
           "Evidence integrity maintained through proper chain of custody"
           "Document hash values and maintain detailed custody logs"]
   else [])
  ++
  (if (0 <? Z.of_nat (length (legalNotes legacy)))%Z
   then [mkInvestigationLesson (id legacy +:+ "_lesson_3") "legal"
           "Compliance requirements impact investigation scope"
           "Coordinate with legal team before evidence collection"]
   else []).

Definition extractKeywords (legacy : LegacyCase) : list string :=
  let kws := fold_left (fun s k => OSet.add k s) (Js.split "-" (id legacy)) [] in
  let kws :=
    fold_left
      (fun s art =>
         fold_left
           (fun s word =>
              if (3 <? Js.strlen word)%Z then OSet.add (Js.toLowerCase word) s
              else s)
           (Js.split " " (la_type art)) s)
      (lc_artifacts legacy) kws in
  let kws :=
    fold_left (fun s w => OSet.add (Js.toLowerCase (ls_tool w)) s)
      (workflow legacy) kws in
  let scenarioWords := Js.wordRuns 4 (Js.toLowerCase (scenario legacy)) in
  let kws :=
    fold_left (fun s w => OSet.add w s) (Js.slice0 10 scenarioWords) kws in
  Js.slice0 20 kws.

Definition classifyIncidentType (i scen : string) : string :=
  let normalized := Js.toLowerCase (i +:+ " " +:+ scen) in
  if Js.includes normalized "ransom" then "Ransomware"
  else if Js.includes normalized "insider" then "Insider Threat"
  else if includesAny normalized ["apt"; "advanced"] then "APT"
  else if includesAny normalized ["breach"; "exfiltrat"] then "Data Breach"
  else if Js.includes normalized "malware" then "Malware"
  else if Js.includes normalized "ddos" then "DDoS"
  else if Js.includes normalized "mobile" then "Mobile"
  else "Incident".

Definition inferIndustry (scen : string) : string :=
  let normalized := Js.toLowerCase scen in
  if includesAny normalized ["healthcare"; "hospital"; "patient"] then "Healthcare"
  else if includesAny normalized ["financial"; "bank"] then "Finance"
  else if includesAny normalized ["retail"; "customer"] then "Retail"
  else if Js.includes normalized "government" then "Government"
  else "Technology".

Definition inferSeverity (scen : string) (outs : list string) : string :=
  let text := Js.toLowerCase (scen +:+ " " +:+ Js.join " " outs) in
  if includesAny text ["encrypt"; "breach"; "exfiltrat"] then "critical"
  else if includesAny text ["compromise"; "access"] then "high"
  else "medium".

Definition generateTitle (i : string) : string :=
  Js.join " "
    (map (fun word =>
            match word with
            | String c r => String (Js.upper_char c) r
            | EmptyString => EmptyString
            end)
       (Js.split "-" i)).

(** [Array.from(new Set(xs))] *)
Definition dedupe (xs : list string) : list string :=
  fold_left (fun s x => OSet.add x s) xs [].

(** [xs.map((x, idx) => f x idx)] *)
Fixpoint mapi {A B} (f : A -> nat -> B) (idx : nat) (xs : list A) : list B :=
  match xs with
  | [] => []
  | x :: r => f x idx :: mapi f (S idx) r
  end.

(** [migrateLegacyCase(legacy)] *)
Definition migrateLegacyCase (legacy : LegacyCase) : CaseStudyEnhanced :=
  let arts :=
    mapi (fun art idx =>
            mkForensicArtifact
              (id legacy +:+ "_artifact_" +:+ Js.showZ (Z.of_nat idx + 1))
              (la_type art) (la_description art) (la_location art)
              (inferEvidenceValue (la_type art)))
      0 (lc_artifacts legacy) in
  let tl :=
    mapi (fun st idx =>
            mkTimelineEvent
              ("Step " +:+ Js.showZ (step st))
              (action st)
              (artifact_id <$> nth_error arts idx)
              (Some (ls_tool st))
              (inferSignificance (action st)))
      0 (workflow legacy) in
  let toolsUsed :=
    map (fun t =>
           mkToolUsage t (extractToolPurpose t (workflow legacy))
             (extractToolOutput t (workflow legacy)))
      (dedupe (map ls_tool (workflow legacy))) in
  let fnds :=
    mapi (fun outcome idx =>
            mkFinding
              (id legacy +:+ "_finding_" +:+ Js.showZ (Z.of_nat idx + 1))
              (classifyFinding outcome) outcome
              (extractRelevantArtifacts outcome arts)
              (inferConfidence outcome) (inferImpact outcome))
      0 (outcomes legacy) in
  mkCaseStudyEnhanced
    (id legacy)
    (generateTitle (id legacy))
    (Js.take 200 (scenario legacy))
    (inferIndustry (scenario legacy))
    (classifyIncidentType (id legacy) (scenario legacy))
    (inferSeverity (scenario legacy) (outcomes legacy))
    tl arts toolsUsed fnds
    (Js.slice0 3 (outcomes legacy))
    (generateLessons legacy)
    (extractKeywords legacy).

End Migration.

(** ** Prompt helpers: [src/services/PromptTemplates.ts] *)

Module PromptTemplates.

(** [REFUSAL_TEMPLATES.NON_FORENSIC] *)
Definition NON_FORENSIC : string :=
  "I apologize, but I specialize exclusively in digital forensics case study analysis and investigation techniques. I can only assist with:"
  +:+ Js.nl +:+ Js.nl
  +:+ "• Forensic case study questions" +:+ Js.nl
  +:+ "• Investigation methodologies" +:+ Js.nl
  +:+ "• Evidence analysis techniques" +:+ Js.nl
  +:+ "• Tool usage in forensic contexts" +:+ Js.nl
  +:+ "• Forensic concepts and terminology" +:+ Js.nl +:+ Js.nl
  +:+ "Please ask a question related to digital forensics case studies or investigation procedures.".

(** [REFUSAL_TEMPLATES.INSUFFICIENT_CONTEXT] *)
Definition INSUFFICIENT_CONTEXT : string :=
  "I don't have enough information in the current case study knowledge base to answer that question accurately. "
  +:+ Js.nl +:+ Js.nl
  +:+ "The available case studies cover:" +:+ Js.nl
  +:+ "{{available_cases}}" +:+ Js.nl +:+ Js.nl
  +:+ "Would you like to:" +:+ Js.nl
  +:+ "• Rephrase your question to match available cases?" +:+ Js.nl
  +:+ "• Ask about general forensic methodology?" +:+ Js.nl
  +:+ "• Explore a related topic from the case studies?".

(** One match of [/\[([^\]]+)\]/] at the start of [s], which begins after an
    opening bracket: the characters up to the next closing bracket, if there
    is at least one of them, and the text after that bracket. *)
Fixpoint bracketBody (s : string) : option (string * string) :=
  match s with
  | EmptyString => None
  | String c r =>
      if ascii_dec c "]" then Some (EmptyString, r)
      else match bracketBody r with
           | Some (body, rest) => Some (String c body, rest)
           | None => None
           end
  end.

(** [response.match(/\[([^\]]+)\]/g) || []]: the successive leftmost
    matches, each without its first and last character. [fuel] bounds the
    number of scan steps; the length of the text plus one is enough. *)
Fixpoint matchCitations (fuel : nat) (s : string) : list string :=
  match fuel with
  | O => []
  | S fuel' =>
      match s with
      | EmptyString => []
      | String c r =>
          if ascii_dec c "[" then
            match bracketBody r with
            | Some (String b body, rest) =>
                String b body :: matchCitations fuel' rest
            | _ => matchCitations fuel' r
            end
          else matchCitations fuel' r
      end
  end.

(** [extractCitations(response)]: every match with all of its brackets
    removed ([match.replace(/[\[\]]/g, '')]). *)
Definition extractCitations (response : string) : list string :=
  map (Js.filterChars
         (fun c => negb (bool_decide (c = "["%char) || bool_decide (c = "]"%char))))
      (matchCitations (S (String.length response)) response).

End PromptTemplates.

(** ** Query pipeline: [src/services/CaseStudyRAG.ts]

    A [TypeError] raised while an answer is built (a property read on
    [undefined]) is the result [None]. [buildCaseStudyContext] is not
    modelled: its result is passed to the generators as [_context] and
    never read, and it has no effect. *)

Module RAGService.
Import Schema.

(** [detectPromptMode(query)] *)
Definition detectPromptMode (query : string) : PromptMode :=
  let normalized := Js.toLowerCase query in
  let walkthroughKeywords :=
    ["how do i"; "step by step"; "guide me"; "walkthrough";
     "investigate"; "what steps"; "procedure"; "process"] in
  let teachingKeywords :=
    ["explain"; "what is"; "how does"; "teach me";
     "learn about"; "understand"; "concept"; "why"] in
  if Js.some (fun kw => Js.includes normalized kw) walkthroughKeywords
  then guided_walkthrough
  else if Js.some (fun kw => Js.includes normalized kw) teachingKeywords
  then teaching
  else direct_qa.

(** [isForensicQuery(query)] *)
Definition isForensicQuery (query : string) : bool :=
  let normalized := Js.toLowerCase query in
  let allowedGeneral := ["hello"; "hi"; "help"; "what can you"; "who are you"] in
  if Js.some (fun kw => Js.includes normalized kw) allowedGeneral then true
  else
    let forensicKeywords :=
      ["forensic"; "investigation"; "case"; "artifact"; "evidence";
       "malware"; "ransomware"; "breach"; "incident"; "analysis";
       "tool"; "autopsy"; "volatility"; "wireshark"; "memory";
       "disk"; "registry"; "log"; "timeline"; "hash"; "mft";
       "ntfs"; "file system"; "network"; "packet"; "pcap"] in
    Js.some (fun kw => Js.includes normalized kw) forensicKeywords.

(** The fields of [class CaseStudyRAGService]. *)
Record Service : Type := mkService {
  ingestionService : Ingestion.Service;
  enhancedCases : list (string * CaseStudyEnhanced);   (* [Map] *)
}.

(** [new CaseStudyRAGService()] *)
Definition new : Service := mkService Ingestion.empty [].

(** [initializeFromLegacy(legacyCases)] *)
Definition initializeFromLegacy (legacyCases : list Migration.LegacyCase)
  (s : Service) : Service :=
  let enhanced := map Migration.migrateLegacyCase legacyCases in
  mkService
    (Ingestion.ingestCases enhanced (ingestionService s))
    (fold_left (fun m c => OMap.set (case_id c) c m) enhanced (enhancedCases s)).

(** [generateDirectQA(query, _context, cases)] *)
Definition generateDirectQA (query : string) (cases : list CaseStudyEnhanced)
  : option string :=
  match cases with
  | [] => None
  | firstCase :: _ =>
      let q := Js.toLowerCase query in
      if Js.includes q "what tool" || Js.includes q "which tool" then
        let tools := Js.slice0 3 (map tool_name (tools_used firstCase)) in
        match tools_used firstCase with
        | [] => None
        | tool0 :: _ =>
            Some ("The investigation used: " +:+ Js.join ", " tools
                  +:+ " [" +:+ case_id firstCase +:+ "]." +:+ Js.nl +:+ Js.nl
                  +:+ "For example, " +:+ Js.show (head tools)
                  +:+ " was used to " +:+ purpose tool0 +:+ " "
                  +:+ "[" +:+ case_id firstCase +:+ ":"
                  +:+ Js.or_else (artifact_id <$> head (artifacts firstCase))
                        "artifact_1"
                  +:+ "].")
        end
      else if Js.includes q "artifact" then
        let arts := Js.slice0 3 (artifacts firstCase) in
        match arts with
        | [] => None
        | art0 :: _ =>
            Some ("Key artifacts analyzed:" +:+ Js.nl
                  +:+ Js.join Js.nl
                        (map (fun art =>
                                "• **" +:+ type art +:+ "** ["
                                +:+ case_id firstCase +:+ ":" +:+ artifact_id art
                                +:+ "]: " +:+ description art) arts)
                  +:+ Js.nl +:+ Js.nl +:+ "These artifacts provided "
                  +:+ evidence_value art0
                  +:+ " evidence value for the investigation.")
        end
      else if Js.includes q "timeline" || Js.includes q "when" then
        let events := Js.slice0 3 (timeline firstCase) in
        Some ("**Timeline of Events** [" +:+ case_id firstCase +:+ "]:" +:+ Js.nl
              +:+ Js.join Js.nl
                    (map (fun evt =>
                            "• " +:+ timestamp evt +:+ ": " +:+ event evt
                            +:+ " [Tool: " +:+ Js.or_else (tool evt) "N/A" +:+ "]")
                       events))
      else
        let f0 := head (findings firstCase) in
        let keyFinding :=
          if Js.truthy_opt (finding_description <$> f0)
          then Js.show (finding_description <$> f0)
          else Js.show (head (conclusions firstCase)) in
        Some ("**" +:+ title firstCase +:+ "** [" +:+ case_id firstCase +:+ "]"
              +:+ Js.nl +:+ Js.nl
              +:+ summary firstCase +:+ Js.nl +:+ Js.nl
              +:+ "**Incident Type**: " +:+ incident_type firstCase
              +:+ " (" +:+ severity firstCase +:+ " severity)" +:+ Js.nl
              +:+ "**Key Finding**: " +:+ keyFinding +:+ " "
              +:+ "[" +:+ case_id firstCase +:+ ":"
              +:+ Js.or_else (finding_id <$> f0) "finding_1" +:+ "]")
  end.

(** [generateWalkthrough(_query, _context, cases)] *)
Definition generateWalkthrough (cases : list CaseStudyEnhanced)
  : option string :=
  match cases with
  | [] => None
  | firstCase :: _ =>
      let intro :=
        "**Investigation Walkthrough: " +:+ title firstCase +:+ "**"
        +:+ Js.nl +:+ Js.nl in
      let steps :=
        Migration.mapi
          (fun evt idx =>
             "**Step " +:+ Js.showZ (Z.of_nat idx + 1) +:+ ": " +:+ event evt
             +:+ "**" +:+ Js.nl
             +:+ "- **Tool**: " +:+ Js.or_else (tool evt) "Manual analysis"
             +:+ Js.nl
             +:+ match Js.find
                         (fun a => bool_decide
                                     (Some (artifact_id a) = event_artifact_id evt))
                         (artifacts firstCase) with
                 | Some artifact =>
                     "- **Artifact**: " +:+ type artifact +:+ " ["
                     +:+ case_id firstCase +:+ ":" +:+ artifact_id artifact
                     +:+ "]" +:+ Js.nl
                     +:+ "- **Location**: " +:+ location artifact +:+ Js.nl
                 | None => ""
                 end
             +:+ "- **Significance**: " +:+ significance evt
             +:+ Js.nl +:+ Js.nl)
          0 (Js.slice0 3 (timeline firstCase)) in
      Some (intro +:+ Js.join "" steps
            +:+ Js.nl +:+ "*Cite: [" +:+ case_id firstCase +:+ ":workflow]*"
            +:+ Js.nl +:+ Js.nl
            +:+ "**Next Steps**: Continue analyzing remaining artifacts or ask about specific tools used.")
  end.

(** [generateTeaching(query, _context, cases)] *)
Definition generateTeaching (query : string) (cases : list CaseStudyEnhanced)
  : option string :=
  match cases with
  | [] => None
  | firstCase :: _ =>
      let intro :=
        "**Forensic Concept: Illustrated by " +:+ title firstCase +:+ "**"
        +:+ Js.nl +:+ Js.nl in
      let normalized := Js.toLowerCase query in
      if Js.includes normalized "artifact" || Js.includes normalized "evidence"
      then
        match artifacts firstCase with
        | [] => None
        | artifact :: _ =>
            Some (intro
                  +:+ "**Understanding Forensic Artifacts**" +:+ Js.nl +:+ Js.nl
                  +:+ "Artifacts are digital traces left by system activity. For example:"
                  +:+ Js.nl +:+ Js.nl
                  +:+ "**" +:+ type artifact +:+ "** [" +:+ case_id firstCase
                  +:+ ":" +:+ artifact_id artifact +:+ "]" +:+ Js.nl
                  +:+ "- **What it is**: " +:+ description artifact +:+ Js.nl
                  +:+ "- **Where found**: " +:+ location artifact +:+ Js.nl
                  +:+ "- **Evidence value**: " +:+ evidence_value artifact
                  +:+ Js.nl +:+ Js.nl
                  +:+ "In this case, this artifact was "
                  +:+ (if String.eqb (evidence_value artifact) "high"
                       then "critical" else "important") +:+ " "
                  +:+ "for establishing the investigation timeline.")
        end
      else if Js.includes normalized "timeline" || Js.includes normalized "sequence"
      then
        Some (intro
              +:+ "**Timeline Analysis in Forensics**" +:+ Js.nl +:+ Js.nl
              +:+ "Timeline reconstruction helps investigators understand the sequence of events. "
              +:+ "In [" +:+ case_id firstCase +:+ "], the timeline revealed:"
              +:+ Js.nl +:+ Js.nl
              +:+ Js.join ""
                    (map (fun evt =>
                            "• " +:+ timestamp evt +:+ ": " +:+ event evt +:+ Js.nl)
                       (Js.slice0 3 (timeline firstCase)))
              +:+ Js.nl
              +:+ "This sequential analysis identified the attack progression and attribution.")
      else
        Some (intro
              +:+ "**Case Overview**: " +:+ summary firstCase +:+ Js.nl +:+ Js.nl
              +:+ "**Key Learning Points**:" +:+ Js.nl
              +:+ Js.join ""
                    (map (fun lesson =>
                            Js.nl +:+ "**"
                            +:+ Js.toUpperCase (lesson_category lesson)
                            +:+ "**: " +:+ lesson_description lesson +:+ Js.nl
                            +:+ "*Best Practice*: " +:+ best_practice lesson
                            +:+ Js.nl)
                       (Js.slice0 3 (lessons_learned firstCase))))
  end.

(** [generateResponse(query, mode, context, cases)] *)
Definition generateResponse (query : string) (m : PromptMode)
  (cases : list CaseStudyEnhanced) : option string :=
  match m with
  | direct_qa => generateDirectQA query cases
  | guided_walkthrough => generateWalkthrough cases
  | teaching => generateTeaching query cases
  end.

(** [parseCitation(citationStr)] *)
Definition parseCitation (citationStr : string) : Citation :=
  let parts := Js.split ":" citationStr in
  mkCitation (default EmptyString (nth_error parts 0))
             (nth_error parts 1) (nth_error parts 2) 0.8.

(** [generateFollowUps(mode, cases)] *)
Definition generateFollowUps (m : PromptMode) (cases : list CaseStudyEnhanced)
  : option (list string) :=
  match m with
  | direct_qa =>
      match cases with
      | [] => None
      | firstCase :: _ =>
          Some ["What tools were used in " +:+ case_id firstCase +:+ "?";
                "Show me the timeline for " +:+ case_id firstCase;
                "What were the key findings?"]
      end
  | guided_walkthrough =>
      Some ["Show me the next investigation steps";
            "How do I analyze similar artifacts?";
            "What tools should I use?"]
  | teaching =>
      Some ["Explain another forensic concept";
            "Show me a practical example";
            "What are the best practices?"]
  end.

(** [extractRelatedTopics(cases)] *)
Definition extractRelatedTopics (cases : list CaseStudyEnhanced) : list string :=
  Js.slice0 5
    (fold_left
       (fun topics c =>
          fold_left (fun t kw => OSet.add kw t) (Js.slice0 3 (keywords c))
            (OSet.add (incident_type c) topics))
       cases []).

(** The follow-up suggestions of the two early returns of [processQuery]. *)
Definition refusalFollowUps : list string :=
  ["Show me a case study";
   "Explain memory forensics";
   "How to investigate ransomware?"].

Definition noMatchFollowUps : list string :=
  ["Tell me about ransomware-investigation";
   "What artifacts are in insider-data-theft case?";
   "List all case studies"].

(** [extractCitations(answer).filter(cit => validateCitation(cit))]: the
    citation strings of an answer that pass the ledger check. *)
Definition validatedCitationStrings (s : Ingestion.Service) (ans : string)
  : list string :=
  filter (fun cit => Ingestion.validateCitation s cit = true)
    (PromptTemplates.extractCitations ans).

(** [processQuery(query)] *)
Definition processQuery (s : Service) (q : string) : option RAGResponse :=
  if negb (isForensicQuery q) then
    Some (mkRAGResponse q direct_qa PromptTemplates.NON_FORENSIC [] 0
            refusalFollowUps None)
  else
    let m := detectPromptMode q in
    match Ingestion.search (ingestionService s) q 3 with
    | None => None
    | Some [] =>
        let availableCases :=
          Js.join Js.nl
            (map (fun i => "• " +:+ i)
               (Ingestion.getAllCaseIds (ingestionService s))) in
        Some (mkRAGResponse q m
                (Js.replace PromptTemplates.INSUFFICIENT_CONTEXT
                   "{{available_cases}}" availableCases)
                [] 0 noMatchFollowUps None)
    | Some ((top :: _) as searchResults) =>
        let relevantCases :=
          omap (fun result =>
                  OMap.get (Ingestion.sr_case_id result) (enhancedCases s))
            searchResults in
        let cits :=
          map (fun result =>
                 mkCitation (Ingestion.sr_case_id result)
                   (head (Ingestion.matched_artifacts result))
                   (head (Ingestion.matched_findings result))
                   (Ingestion.relevance_score result))
            searchResults in
        match generateResponse q m relevantCases with
        | None => None
        | Some ans =>
            let validatedCitations :=
              map parseCitation
                (validatedCitationStrings (ingestionService s) ans) in
            match generateFollowUps m relevantCases with
            | None => None
            | Some followUpSuggestions =>
                Some (mkRAGResponse q m ans
                        (match validatedCitations with
                         | [] => cits
                         | _ :: _ => validatedCitations
                         end)
                        (if Qeq_bool (Ingestion.relevance_score top) 0
                         then 0.5 else Ingestion.relevance_score top)
                        followUpSuggestions
                        (Some (extractRelatedTopics relevantCases)))
            end
        end
    end.

(** [getCaseById(caseId)] *)
Definition getCaseById (s : Service) (caseId : string)
  : option CaseStudyEnhanced :=
  OMap.get caseId (enhancedCases s).

(** [getAllCases()] *)
Definition getAllCases (s : Service) : list CaseStudyEnhanced :=
  OMap.values (enhancedCases s).

(** [getAutocompleteSuggestions(partial)] *)
Definition getAutocompleteSuggestions (s : Service) (partial : string)
  : list string :=
  Ingestion.getAutocompleteSuggestions (ingestionService s) partial.

(** [searchCases(query, limit)] *)
Definition searchCases (s : Service) (query : string) (limit : Z)
  : option (list Ingestion.SearchResult) :=
  Ingestion.search (ingestionService s) query limit.

End RAGService.

(** * Specification vocabulary

    Invariants and abstract views used to state the properties below. *)

(** ** PrefixIndex *)

Module TrieInv.
Import Js Trie.

(** Membership of a normalized word below a node. *)
Definition memN (cs : string) (n : TrieNode) : bool :=
  match findNode cs n with
  | Some m => isEndOfWord m
  | None => false
  end.

(** The stored-word invariant.

    At every end node the stored word is non-empty and its lowercase form
    spells the path from the root to that node. *)

#[local] Unset Elimination Schemes.
Inductive wf : string -> TrieNode -> Prop :=
| wf_intro p ch e v :
    (e = true -> exists w, v = Some w /\ truthy w = true /\ toLowerCase w = p) ->
    Forall (fun cn => wf (p +:+ String (fst cn) "") (snd cn)) ch ->
    wf p (mkTrieNode ch e v).
#[local] Set Elimination Schemes.


End TrieInv.

(** ** BoundedCache *)

Module LRUInv.

Abbreviation loc := LRU.loc.

(** Neighbours in a duplicate-free list. *)
Fixpoint nextOf (ls : list loc) (x : loc) : option loc :=
  match ls with
  | [] => None
  | a :: r => if decide (a = x) then head r else nextOf r x
  end.

Definition prevOf (ls : list loc) (x : loc) : option loc :=
  nextOf (reverse ls) x.

Definition without (l : loc) (ls : list loc) : list loc :=
  filter (fun y => y <> l) ls.

Section Inv.
Context {K V : Type} `{Countable K}.
Implicit Types (c : LRU.LRUCache K V) (h : gmap loc (LRU.LRUNode K V)).
Implicit Types (n : LRU.LRUNode K V) (ls : list loc) (l x : loc).
Implicit Types (es : list (loc * K)) (k : K) (ks : list K).

(** The store holds the doubly-linked list [ls], from [head] to [tail]. *)
Record LInv c ls : Prop := mkLInv {
  linv_nodup : NoDup ls;
  linv_head : LRU.head c = head ls;
  linv_tail : LRU.tail c = last ls;
  linv_node : forall l, l ∈ ls ->
    exists n, LRU.heap c !! l = Some n /\
              LRU.prev n = prevOf ls l /\ LRU.next n = nextOf ls l;
}.

(** The payload of a node: untouched by pointer updates. *)
Definition dataAt h l : option (K * V) :=
  (fun n => (LRU.key n, LRU.value n)) <$> h !! l.

(** The assignments [o.next = q] and [o.prev = q] of [removeNode] and
    [addToHead], skipped when [o] is [null]. *)
Definition upd_next (o q : option loc) h : gmap loc (LRU.LRUNode K V) :=
  match o with Some p => alter (LRU.set_next q) p h | None => h end.
Definition upd_prev (o q : option loc) h : gmap loc (LRU.LRUNode K V) :=
  match o with Some p => alter (LRU.set_prev q) p h | None => h end.

(** [es] without the node [l]. *)
Definition withoutE l es : list (loc * K) := filter (fun e => e.1 <> l) es.

(** The cache invariant: [es] lists the live nodes from most to least
    recently used, each with its key; the backing map is exactly the inverse
    of that list; identities from [nextLoc] on are unused. *)
Record Inv c es : Prop := mkInv {
  inv_list : LInv c es.*1;
  inv_keys : NoDup es.*2;
  inv_data : forall l k, (l, k) ∈ es -> fst <$> dataAt (LRU.heap c) l = Some k;
  inv_cache : forall k l, LRU.cache c !! k = Some l <-> (l, k) ∈ es;
  inv_fresh : forall l, is_Some (LRU.heap c !! l) -> (l < LRU.nextLoc c)%positive;
}.

(** The operations on the list of keys, most recently used first. *)
Definition touchK k ks : list K := k :: filter (fun k' => k' <> k) ks.

Definition getK k ks : list K :=
  if decide (k ∈ ks) then touchK k ks else ks.

Definition putK (cap : Z) k ks : list K :=
  if decide (k ∈ ks) then touchK k ks
  else if Z.of_nat (S (length ks)) >? cap then removelast (k :: ks)
       else k :: ks.

Definition deleteK k ks : list K := filter (fun k' => k' <> k) ks.

(** [ks] is the content of the cache [c], most recently used first. *)
Definition Repr c ks : Prop := exists es, Inv c es /\ es.*2 = ks.

End Inv.

End LRUInv.

(** ** CaseLedger and CitationValidator *)

Module LedgerSpec.
Import Schema.

(** The ledger after ingesting [cs] in order. *)
Definition ledger (cs : list CaseStudyEnhanced) : Ingestion.Service :=
  Ingestion.ingestCases cs Ingestion.empty.

(** The case that the ledger holds under [cid]: the last one ingested with
    that id. *)
Definition caseOf (cs : list CaseStudyEnhanced) (cid : string)
  : option CaseStudyEnhanced :=
  List.find (fun c => String.eqb (case_id c) cid) (rev cs).

(** The [artifact_map] and [finding_map] that [ingestCase] builds. *)
Definition artifactMapOf (c : CaseStudyEnhanced)
  : list (string * ForensicArtifact) :=
  fold_left (fun m a => OMap.set (artifact_id a) a m) (artifacts c) [].

Definition findingMapOf (c : CaseStudyEnhanced) : list (string * Finding) :=
  fold_left (fun m f => OMap.set (finding_id f) f m) (findings c) [].

(** A citation that the ledger accepts: a known case id alone, or a known
    case id followed by the id of an artifact or finding of that case. *)
Definition RealCitation (cs : list CaseStudyEnhanced) (cit : string) : Prop :=
  match Js.split ":" cit with
  | [cid] => exists c, caseOf cs cid = Some c
  | [cid; item] =>
      exists c, caseOf cs cid = Some c /\
        ((exists a, In a (artifacts c) /\ artifact_id a = item) \/
         (exists f, In f (findings c) /\ finding_id f = item))
  | _ => False
  end.

End LedgerSpec.

(** ** Sample data *)

Module Examples.
Import Schema.

(** [new LRUCache<number, number>(3)] and three entries for it. *)
Definition c3 : LRU.LRUCache nat nat :=
  LRU.mkLRUCache 3 ∅ ∅ None None 0 0 1%positive.

Definition kvs3 : list (nat * nat) := [(1, 10); (2, 20); (3, 30)]%nat.

(** A legacy case as the loader supplies it. *)
Definition legacyRansomware : Migration.LegacyCase :=
  Migration.mkLegacyCase "ransomware-investigation"
    "A hospital was hit by ransomware; files were encrypted."
    [Migration.mkLegacyArtifact "Memory Dump" "RAM capture of infected host"
       "evidence/host1.raw"]
    [Migration.mkLegacyStep 1 "Capture memory image" "Volatility" "Process list"]
    ["Initial entry vector was phishing email"; "Files encrypted by malware"]
    ["HIPAA breach notification"].

Definition legacyPhishing : Migration.LegacyCase :=
  Migration.mkLegacyCase "phishing-campaign"
    "Finance staff received credential harvesting mail."
    [Migration.mkLegacyArtifact "Email Headers" "Headers of the lure" "mail/lure.eml"]
    [Migration.mkLegacyStep 1 "Trace the sender" "MXToolbox" "Relay path"]
    ["Sender domain was spoofed"]
    [].

(** A case record with the ids of the specification's example. *)
Definition demoCase : CaseStudyEnhanced :=
  mkCaseStudyEnhanced "ransomware-investigation" "Ransomware Investigation"
    "Hospital hit by ransomware." "Healthcare" "Ransomware" "critical"
    []
    [mkForensicArtifact "artifact_1" "Memory Dump" "RAM capture" "host1.raw" "high"]
    [mkToolUsage "Volatility" "list processes" "process list"]
    [mkFinding "finding_1" "impact" "Files were encrypted" ["artifact_1"]
       "confirmed" "critical"]
    ["Files were encrypted"] [] ["ransomware"; "memory"].

End Examples.

(** ** PrefixIndex: the set of stored words *)

Module TrieModel.
Import Js Trie TrieInv.

(** The trie seen as the duplicate-free list of its stored words, each in
    lowercase: what [insert], [delete] and [clear] do to that list. *)
Definition absStep (m : list string) (o : Op) : list string :=
  match o with
  | OpInsert w => if truthy w then OSet.add (toLowerCase w) m else m
  | OpDelete w => filter (fun x => x <> toLowerCase w) m
  | OpClear => []
  end.

Definition absRun (ops : list Op) : list string := fold_left absStep ops [].

(** Every [children] map has pairwise distinct keys. *)
#[local] Unset Elimination Schemes.
Inductive uniq : TrieNode -> Prop :=
| uniq_intro ch e v :
    NoDup (map fst ch) ->
    Forall (fun cn => uniq (snd cn)) ch ->
    uniq (mkTrieNode ch e v).

(** Every word kept at a node satisfies [P]. *)
Inductive valuesIn (P : string -> Prop) : TrieNode -> Prop :=
| valuesIn_intro ch e v :
    (forall w, v = Some w -> P w) ->
    Forall (fun cn => valuesIn P (snd cn)) ch ->
    valuesIn P (mkTrieNode ch e v).

#[local] Set Elimination Schemes.


(** The relation between a trie and the list of its stored words. *)
Definition Stores (t : Trie) (m : list string) : Prop :=
  NoDup m /\ ("" ∉ m) /\ size t = Z.of_nat (length m) /\
  forall q, search t q = true <-> q <> "" /\ toLowerCase q ∈ m.

(** The word [x] is stored below the root [r]. *)
Definition stored (r : TrieNode) (x : string) : Prop :=
  truthy x = true /\ memN (toLowerCase x) r = true.


End TrieModel.

(** ** BoundedCache: the cache as a recency-ordered association list *)

Module LRUModel.
Import LRUInv.

Section Model.
Context {K V : Type} `{Countable K}.
Implicit Types (c : LRU.LRUCache K V) (m : list (K * V)) (k : K) (v : V).

(** The value bound to [k], if any. *)
Fixpoint assoc k m : option V :=
  match m with
  | [] => None
  | (k', v) :: r => if decide (k' = k) then Some v else assoc k r
  end.

Definition dropK k m : list (K * V) := filter (fun kv => kv.1 <> k) m.

(** What the calls do to the list of entries, most recently used first. *)
Definition getM k m : list (K * V) * option V :=
  match assoc k m with
  | Some v => ((k, v) :: dropK k m, Some v)
  | None => (m, None)
  end.

Definition putM (cap : Z) k v m : list (K * V) :=
  if decide (k ∈ m.*1) then (k, v) :: dropK k m
  else if Z.of_nat (S (length m)) >? cap then removelast ((k, v) :: m)
       else (k, v) :: m.

Definition deleteM k m : list (K * V) * bool :=
  (dropK k m, bool_decide (k ∈ m.*1)).

Definition stepM (cap : Z) m (o : LRU.Op K V) : list (K * V) :=
  match o with
  | LRU.OpGet k => fst (getM k m)
  | LRU.OpPut k v => putM cap k v m
  | LRU.OpHas k => m
  | LRU.OpDelete k => fst (deleteM k m)
  | LRU.OpClear => []
  end.

Definition runM (cap : Z) (ops : list (LRU.Op K V)) : list (K * V) :=
  fold_left (stepM cap) ops [].

(** [m] lists the entries of the cache [c], most recently used first. *)
Definition ReprKV c m : Prop :=
  exists es, Inv c es /\ m.*1 = es.*2 /\
    forall l k, (l, k) ∈ es ->
      exists v, dataAt (LRU.heap c) l = Some (k, v) /\ (k, v) ∈ m.

(** The number of [get] calls since the cache was created or last
    cleared, split into those that found their key and those that did
    not. *)
Definition statsM (cap : Z) (ops : list (LRU.Op K V)) : Z * Z :=
  snd (fold_left
         (fun '(m, (h, s)) o =>
            (stepM cap m o,
             match o with
             | LRU.OpGet k =>
                 if decide (k ∈ m.*1) then (h + 1, s) else (h, s + 1)
             | LRU.OpClear => (0, 0)
             | _ => (h, s)
             end))
         ops ([], (0, 0))).

End Model.

End LRUModel.

(** ** CaseLedger: search, lookups and suggestions *)

Module LedgerModel.
Import Schema LedgerSpec.

(** Every character of [s] satisfies [p]. *)
Fixpoint allChars (p : ascii -> bool) (s : string) : bool :=
  match s with
  | EmptyString => true
  | String c r => p c && allChars p r
  end.

(** The characters a query token can contain: lowercase letters, digits,
    underscore and hyphen. *)
Definition tokenChar (c : ascii) : bool :=
  Js.is_lower c || Js.is_digit c || bool_decide (c = "_"%char)
  || bool_decide (c = "-"%char).

(** The case ids that [keywordIndex] lists under the term [t]. *)
Definition idsFor (s : Ingestion.Service) (t : string) : list string :=
  default [] (OMap.get t (Ingestion.keywordIndex s)).

(** The keyword index lists each id once, and only ids of stored cases. *)
Definition WfIndex (s : Ingestion.Service) : Prop :=
  forall t, NoDup (idsFor s t) /\
            forall id, id ∈ idsFor s t ->
              OMap.has id (Ingestion.indexedCases s) = true.

(** What one query term adds to the result of a case that the index lists
    under it. *)
Definition bump (term : string) (indexedCase : Ingestion.IndexedCase)
  (result : Ingestion.SearchResult) : Ingestion.SearchResult :=
  let r1 :=
    Ingestion.mkSearchResult (Ingestion.sr_case_id result)
      (Ingestion.relevance_score result + Ingestion.calculateTermWeight term)
      (Ingestion.matched_keywords result ++ [term])
      (Ingestion.matched_artifacts result) (Ingestion.matched_findings result) in
  let r2 :=
    fold_left
      (fun r '(artifactId, artifact) =>
         if Js.includes (Js.toLowerCase (type artifact)) term
            || Js.includes (Js.toLowerCase (description artifact)) term
         then Ingestion.mkSearchResult (Ingestion.sr_case_id r)
                (Ingestion.relevance_score r + 0.3)
                (Ingestion.matched_keywords r)
                (Ingestion.matched_artifacts r ++ [artifactId])
                (Ingestion.matched_findings r)
         else r)
      (Ingestion.artifact_map indexedCase) r1 in
  fold_left
    (fun r '(findingId, finding) =>
       if Js.includes (Js.toLowerCase (finding_description finding)) term
       then Ingestion.mkSearchResult (Ingestion.sr_case_id r)
              (Ingestion.relevance_score r + 0.25)
              (Ingestion.matched_keywords r) (Ingestion.matched_artifacts r)
              (Ingestion.matched_findings r ++ [findingId])
       else r)
    (Ingestion.finding_map indexedCase) r2.

(** The result of the case [id] for the query terms [terms], starting from
    [o]: each term under which the index lists [id] adds its share, in the
    order of the terms. *)
Definition perCase (s : Ingestion.Service) (terms : list string) (id : string)
  (o : option Ingestion.SearchResult) : option Ingestion.SearchResult :=
  fold_left
    (fun o t =>
       if decide (id ∈ idsFor s t) then
         match OMap.get id (Ingestion.indexedCases s) with
         | Some ic => Some (bump t ic (default (Ingestion.newResult id) o))
         | None => o
         end
       else o)
    terms o.

(** Some case ingested under [id] lists a keyword whose lowercase form is
    the term [t]. *)
Definition Indexed (cs : list CaseStudyEnhanced) (t id : string) : Prop :=
  exists c, In c cs /\ case_id c = id /\
            exists kw, In kw (keywords c) /\ Js.toLowerCase kw = t.

(** The words that ingestion puts into the three suggestion tries. *)
Definition caseWords (cs : list CaseStudyEnhanced) : list string :=
  flat_map (fun c => [Js.toLowerCase (case_id c); Js.toLowerCase (title c)]) cs.

Definition artifactWords (cs : list CaseStudyEnhanced) : list string :=
  flat_map (fun c => map (fun a => Js.toLowerCase (type a)) (artifacts c)) cs.

Definition toolWords (cs : list CaseStudyEnhanced) : list string :=
  flat_map (fun c => map (fun t => Js.toLowerCase (tool_name t)) (tools_used c)) cs.

(** Non-increasing relevance. *)
Definition byScore (a b : Ingestion.SearchResult) : Prop :=
  (Ingestion.relevance_score b <= Ingestion.relevance_score a)%Q.

End LedgerModel.

(** ** Migration and the query pipeline *)

Module PipelineModel.
Import Schema LedgerSpec LedgerModel.

(** No colon occurs in [s]. *)
Definition noColon (s : string) : bool :=
  allChars (fun c => negb (bool_decide (c = ":"%char))) s.

(** No bracket occurs in [s]. *)
Definition noBracket (s : string) : bool :=
  allChars (fun c => negb (bool_decide (c = "["%char) || bool_decide (c = "]"%char))) s.

(** No dollar sign occurs in [s]. *)
Definition noDollar (s : string) : bool :=
  allChars (fun c => negb (bool_decide (c = "$"%char))) s.

(** The service after [initializeFromLegacy(legacyCases)] on a new
    service. *)
Definition loaded (legacyCases : list Migration.LegacyCase) : RAGService.Service :=
  RAGService.initializeFromLegacy legacyCases RAGService.new.

(** The citation names a record that the ledger holds: a stored case,
    and, where present, an artifact or finding of that case. *)
Definition CitesRecord (s : Ingestion.Service) (c : Citation) : Prop :=
  Ingestion.getCaseById s (cit_case_id c) <> None /\
  (forall a, cit_artifact_id c = Some a ->
     Ingestion.getArtifact s (cit_case_id c) a <> None \/
     Ingestion.getFinding s (cit_case_id c) a <> None) /\
  (forall f, cit_finding_id c = Some f ->
     Ingestion.getFinding s (cit_case_id c) f <> None).

End PipelineModel.

(** ** More example records *)

Module Examples2.

(** A legacy case that lists no workflow step. *)
Definition legacyNoWorkflow : Migration.LegacyCase :=
  Migration.mkLegacyCase "malware-outbreak"
    "Workstations were infected by malware."
    [Migration.mkLegacyArtifact "Disk Image" "Image of the first host"
       "evidence/host7.dd"]
    []
    ["Malware identified on three hosts"]
    [].

(** A legacy case whose id holds two dollar signs in a row. *)
Definition legacyDollar : Migration.LegacyCase :=
  Migration.mkLegacyCase "a$$b"
    "Workstations were infected by malware."
    [Migration.mkLegacyArtifact "Disk Image" "Image of the first host"
       "evidence/host7.dd"]
    []
    ["Malware identified on three hosts"]
    [].

End Examples2.

(** * Properties *)

(** ** Facts about the JavaScript primitives *)

Module JsFacts.
Import Js.

Lemma toLowerCase_empty s : toLowerCase s = "" <-> s = "".
Proof. destruct s; simpl; split; intros H; congruence. Qed.

Lemma truthy_toLowerCase s : truthy (toLowerCase s) = truthy s.
Proof. by destruct s. Qed.

Lemma lower_char_idem c : lower_char (lower_char c) = lower_char c.
Proof.
  unfold lower_char. destruct (is_upper c) eqn:E; [|by rewrite E].
  unfold is_upper in *. rewrite nat_ascii_embedding.
  - apply andb_true_iff in E as [E1 E2].
    apply Nat.leb_le in E1, E2.
    replace ((65 <=? nat_of_ascii c + 32)%nat && (nat_of_ascii c + 32 <=? 90)%nat)
      with false; [done|].
    symmetry. apply andb_false_iff. right. apply Nat.leb_gt. lia.
  - apply andb_true_iff in E as [E1 E2]. apply Nat.leb_le in E2. lia.
Qed.

Lemma toLowerCase_idem s : toLowerCase (toLowerCase s) = toLowerCase s.
Proof. induction s; simpl; [done|]. by rewrite lower_char_idem, IHs. Qed.

Lemma startsWith_refl s : startsWith s s = true.
Proof. induction s; simpl; [done|]. by destruct (ascii_dec _ _). Qed.

Lemma startsWith_app s t : startsWith (s +:+ t) s = true.
Proof.
  induction s as [|c s IH]; [done|].
  change (startsWith (String c (s +:+ t)) (String c s) = true).
  simpl. by destruct (ascii_dec _ _).
Qed.

Lemma startsWith_trans a b c :
  startsWith a b = true -> startsWith b c = true -> startsWith a c = true.
Proof.
  revert a b. induction c as [|x c IH]; intros a b Hab Hbc; [done|].
  destruct b as [|y b]; simpl in Hbc; [done|].
  destruct (ascii_dec x y) as [->|]; [|done].
  destruct a as [|z a]; simpl in Hab; [done|].
  destruct (ascii_dec y z) as [->|]; [|done].
  simpl. destruct (ascii_dec z z); [|done]. eauto.
Qed.

End JsFacts.

Module OMapFacts.
Import OMap.
Section OMapFacts.
Context {K V : Type} `{EqDecision K}.
Implicit Types (m : list (K * V)) (k : K) (v : V).

Lemma get_set k k' v m :
  get k' (set k v m) = if decide (k = k') then Some v else get k' m.
Proof.
  induction m as [|[a b] m IH]; simpl.
  - repeat case_decide; congruence.
  - repeat (case_decide; simpl); congruence.
Qed.

Lemma get_delete k k' m :
  get k' (delete k m) = if decide (k = k') then None else get k' m.
Proof.
  induction m as [|[a b] m IH]; simpl.
  - by case_decide.
  - repeat (case_decide; simpl); congruence.
Qed.

Lemma get_Some_In k v m : get k m = Some v -> In (k, v) m.
Proof.
  induction m as [|[a b] m IH]; simpl; [done|].
  case_decide; [intros [= ->]; subst; by left | intros; right; auto].
Qed.

Lemma In_set k v m x :
  In x (set k v m) -> x = (k, v) \/ In x m.
Proof.
  induction m as [|[a b] m IH]; simpl.
  - intros [<-|[]]. by left.
  - case_decide; simpl.
    + intros [<-|H']; subst; auto.
    + intros [<-|H']; auto. destruct (IH H'); auto.
Qed.

Lemma In_delete k m x : In x (delete k m) -> In x m.
Proof.
  induction m as [|[a b] m IH]; simpl; [done|].
  case_decide; simpl; intros; [auto|]. destruct H0; auto.
Qed.

Lemma keys_set_has k v m :
  has k m = true -> keys (set k v m) = keys m.
Proof.
  unfold has, keys. induction m as [|[a b] m IH]; simpl; [done|].
  case_decide; simpl; [done|]. intros. f_equal. auto.
Qed.

Lemma keys_set_new k v m :
  has k m = false -> keys (set k v m) = keys m ++ [k].
Proof.
  unfold has, keys. induction m as [|[a b] m IH]; simpl; [done|].
  case_decide; simpl; [done|]. intros. f_equal. auto.
Qed.

Lemma has_In_keys k m : has k m = true <-> In k (keys m).
Proof.
  unfold has, keys. induction m as [|[a b] m IH]; simpl; [by split|].
  case_decide; subst; [by split; auto|].
  rewrite IH. split; [auto|]. intros [|]; [done|auto].
Qed.
End OMapFacts.
End OMapFacts.

Module OSetFacts.
Import OSet.
Section OSetFacts.
Context {K : Type} `{EqDecision K}.

Lemma In_add (k k' : K) (s : list K) : In k' (add k s) <-> k' = k \/ In k' s.
Proof.
  unfold add, has. case_bool_decide as Hk.
  - apply list_elem_of_In in Hk. split; [auto|]. intros [->|]; auto.
  - rewrite in_app_iff. simpl. split; [intros [?|[->|[]]]; auto|intros [->|?]; auto].
Qed.
End OSetFacts.
End OSetFacts.

(** ** More facts about insertion-ordered maps *)

Module OMapFacts2.
Section OMapFacts2.
Context {K V : Type} `{EqDecision K}.
Implicit Types (m : list (K * V)) (c : K) (v : V).

Lemma set_get_id c v m :
  OMap.get c m = Some v -> OMap.set c v m = m.
Proof.
  induction m as [|[a b] m IH]; simpl; [done|].
  case_decide; [by intros [= ->]|]. intros Hg. f_equal. auto.
Qed.

Lemma NoDup_keys_set c v m :
  NoDup (map fst m) -> NoDup (map fst (OMap.set c v m)).
Proof.
  intros Hnd. destruct (OMap.has c m) eqn:E.
  - pose proof (OMapFacts.keys_set_has c v m E) as Hk.
    unfold OMap.keys in Hk. by rewrite Hk.
  - pose proof (OMapFacts.keys_set_new c v m E) as Hk.
    unfold OMap.keys in Hk. rewrite Hk. apply NoDup_app. split; [done|].
    split; [|apply NoDup_singleton].
    intros x Hx ->%list_elem_of_singleton.
    apply list_elem_of_In, OMapFacts.has_In_keys in Hx. congruence.
Qed.

Lemma NoDup_keys_delete c m :
  NoDup (map fst m) -> NoDup (map fst (OMap.delete c m)).
Proof.
  induction m as [|[a b] m IH]; simpl; [done|].
  intros [Ha Hm]%NoDup_cons. case_decide; [auto|]. simpl.
  apply NoDup_cons. split; [|auto].
  intros Hin. apply Ha. apply list_elem_of_In, in_map_iff in Hin as ([k v] & <- & Hin).
  apply OMapFacts.In_delete in Hin.
  apply list_elem_of_In, in_map_iff. by exists (k, v).
Qed.

Lemma get_of_In c v m :
  NoDup (map fst m) -> In (c, v) m -> OMap.get c m = Some v.
Proof.
  induction m as [|[a b] m IH]; simpl; [done|].
  intros [Ha Hm]%NoDup_cons [[= -> ->]|Hin].
  - by rewrite decide_True.
  - rewrite decide_False; [auto|]. intros ->. apply Ha.
    apply list_elem_of_In, in_map_iff. by exists (c, v).
Qed.

Lemma set_set c v v' m :
  OMap.set c v' (OMap.set c v m) = OMap.set c v' m.
Proof.
  induction m as [|[a b] m IH]; simpl.
  - by rewrite decide_True.
  - case_decide; simpl.
    + by rewrite decide_True.
    + rewrite decide_False by done. by f_equal.
Qed.


Lemma In_set_inv c v m x :
  NoDup (map fst m) -> In x (OMap.set c v m) ->
  x = (c, v) \/ (In x m /\ fst x <> c).
Proof.
  induction m as [|[a b] m IH]; simpl.
  - intros _ [<-|[]]. by left.
  - intros [Ha Hm]%NoDup_cons. case_decide; subst; simpl.
    + intros [<-|Hin]; [by left|]. right. split; [by right|].
      intros E. apply Ha. apply list_elem_of_In, in_map_iff. by exists x.
    + intros [<-|Hin]; [right; split; [by left|done]|].
      destruct (IH Hm Hin) as [->|[? ?]]; [by left|]. right. split; [by right|done].
Qed.

Lemma keys_values_length m : length (OMap.values m) = length (OMap.keys m).
Proof. unfold OMap.values, OMap.keys. by rewrite !length_map. Qed.

Lemma get_Some_has c v m : OMap.get c m = Some v -> OMap.has c m = true.
Proof. unfold OMap.has. by intros ->. Qed.

Lemma has_true_get c m : OMap.has c m = true -> exists v, OMap.get c m = Some v.
Proof. unfold OMap.has. destruct (OMap.get c m); [eauto|done]. Qed.

Lemma has_false_get c m : OMap.has c m = false <-> OMap.get c m = None.
Proof. unfold OMap.has. by destruct (OMap.get c m). Qed.

End OMapFacts2.
End OMapFacts2.

(** ** Facts about the prefix index *)

Module TrieFacts.
Import Js JsFacts Trie TrieInv.

Lemma append_nil_r (s : string) : s +:+ "" = s.
Proof.
  induction s as [|c s IH]; [done|].
  change (String c (s +:+ "") = String c s). by rewrite IH.
Qed.

Lemma append_assoc (a b c : string) : (a +:+ b) +:+ c = a +:+ (b +:+ c).
Proof.
  induction a as [|x a IH]; [done|].
  change (String x ((a +:+ b) +:+ c) = String x (a +:+ b +:+ c)). by rewrite IH.
Qed.

(** Induction on trie nodes, with the hypothesis on every child. *)
Lemma TrieNode_ind (P : TrieNode -> Prop) :
  (forall ch e v, Forall (fun cn => P (snd cn)) ch -> P (mkTrieNode ch e v)) ->
  forall n, P n.
Proof.
  intros H. fix IH 1. intros [ch e v]. apply H.
  revert ch. fix IHl 1. intros [|[c n] ch]; constructor; [apply IH|apply IHl].
Qed.

Lemma memN_nil n : memN "" n = isEndOfWord n.
Proof. done. Qed.

Lemma memN_cons c cs n :
  memN (String c cs) n =
  match OMap.get c (children n) with Some m => memN cs m | None => false end.
Proof. unfold memN. simpl. by destruct (OMap.get c (children n)). Qed.

Lemma memN_newNode cs : memN cs newNode = false.
Proof. by destruct cs. Qed.

Lemma search_memN t w :
  search t w = truthy w && memN (toLowerCase w) (root t).
Proof. unfold search, memN. by destruct (truthy w). Qed.

(** *** insert *)

Lemma memN_insertPath word cs n cs' :
  memN cs' (fst (insertPath word cs n)) =
  if decide (cs' = cs) then true else memN cs' n.
Proof.
  revert n cs'. induction cs as [|c rest IH]; intros n cs'; simpl.
  - destruct (isEndOfWord n) eqn:E; simpl.
    + case_decide; subst; [by rewrite memN_nil|done].
    + case_decide; subst; [done|]. destruct cs'; [done|]. by rewrite !memN_cons.
  - destruct (insertPath word rest _) as [child' grew] eqn:E. simpl.
    destruct cs' as [|c' r'].
    + rewrite !memN_nil. simpl. first [done|by case_decide].
    + rewrite !memN_cons. simpl. rewrite OMapFacts.get_set.
      destruct (decide (c = c')) as [->|Hc].
      * specialize (IH (match OMap.get c' (children n) with
                        | Some n0 => n0 | None => newNode end) r').
        rewrite E in IH. simpl in IH. rewrite IH.
        destruct (decide (r' = rest)) as [->|Hr].
        -- by rewrite decide_True.
        -- rewrite decide_False by congruence.
           destruct (OMap.get c' (children n)); [done|apply memN_newNode].
      * rewrite decide_False by congruence. done.
Qed.

Lemma search_insert w t q :
  search (insert w t) q =
  (truthy w && truthy q && bool_decide (toLowerCase q = toLowerCase w))
  || search t q.
Proof.
  unfold insert. destruct (truthy w) eqn:Ew; simpl; [|done].
  destruct (insertPath w (toLowerCase w) (root t)) as [r grew] eqn:E.
  rewrite !search_memN. simpl.
  pose proof (memN_insertPath w (toLowerCase w) (root t) (toLowerCase q)) as H.
  rewrite E in H. simpl in H. rewrite H.
  destruct (truthy q); simpl; [|done].
  case_decide; [by rewrite bool_decide_true|by rewrite bool_decide_false].
Qed.

Lemma search_fold_insert ws t q :
  search (fold_left (fun t w => insert w t) ws t) q = true <->
  search t q = true \/
  (q <> "" /\ exists w, In w ws /\ w <> "" /\ toLowerCase w = toLowerCase q).
Proof.
  revert t. induction ws as [|w ws IH]; intros t; simpl.
  - split; [auto|]. intros [?|(_ & ? & [] & _)]; auto.
  - rewrite IH, search_insert, orb_true_iff, !andb_true_iff, bool_decide_eq_true.
    split.
    + intros [[[[Hw Hq] He]|Hs]|(Hq & w' & Hin & Hw' & He)].
      * right. split; [by destruct q|]. exists w. split; [auto|].
        split; [by destruct w|done].
      * by left.
      * right. split; [done|]. exists w'. auto.
    + intros [Hs|(Hq & w' & [->|Hin] & Hw' & He)].
      * left. by right.
      * left. left. split; [split|done]; [by destruct w'|by destruct q].
      * right. split; [done|]. eauto.
Qed.

Lemma search_empty q : search empty q = false.
Proof. rewrite search_memN, memN_newNode. apply andb_false_r. Qed.

Lemma search_insertAll ws q :
  search (insertAll ws) q = true <->
  q <> "" /\ exists w, In w ws /\ w <> "" /\ toLowerCase w = toLowerCase q.
Proof.
  unfold insertAll. rewrite search_fold_insert, search_empty.
  split; [intros [?|?]; [done|auto]|auto].
Qed.

(** *** delete *)

Lemma memN_unmark cs0 n cs :
  memN cs (alterNode unmarkNode cs0 n) =
  if decide (cs = cs0) then false else memN cs n.
Proof.
  revert n cs. induction cs0 as [|c rest IH]; intros n cs; simpl.
  - destruct cs; [done|]. by rewrite !memN_cons.
  - destruct (OMap.get c (children n)) as [child|] eqn:E.
    + destruct cs as [|c' r']; [done|].
      rewrite !memN_cons. simpl. rewrite OMapFacts.get_set.
      destruct (decide (c = c')) as [->|Hc].
      * rewrite IH, E. destruct (decide (r' = rest)) as [->|].
        -- by rewrite decide_True.
        -- by rewrite decide_False by congruence.
      * by rewrite decide_False by congruence.
    + case_decide; [|done]. subst. by rewrite memN_cons, E.
Qed.

Lemma no_children_memN ch e v c cs :
  OMap.size ch = 0 -> memN (String c cs) (mkTrieNode ch e v) = false.
Proof. destruct ch; [done|]. unfold OMap.size. simpl. lia. Qed.

(** The cleanup pass only removes nodes below which no word is stored. *)
Lemma deleteHelper_memN cs0 n :
  memN cs0 n = false ->
  (forall cs, memN cs (fst (deleteHelper n cs0)) = memN cs n) /\
  (snd (deleteHelper n cs0) = true ->
   forall cs, memN cs (fst (deleteHelper n cs0)) = false).
Proof.
  revert n. induction cs0 as [|c rest IH]; intros n Hn; simpl.
  - split; [done|]. intros Hz%Z.eqb_eq cs.
    destruct cs; [done|]. destruct n. by apply no_children_memN.
  - destruct (OMap.get c (children n)) as [child|] eqn:E; [|done].
    rewrite memN_cons, E in Hn. destruct (IH child Hn) as [IH1 IH2].
    destruct (deleteHelper child rest) as [child' flag]. simpl in *.
    destruct flag; simpl.
    + split.
      * intros [|c' r']; [done|]. rewrite !memN_cons. simpl.
        rewrite OMapFacts.get_delete.
        destruct (decide (c = c')) as [<-|]; [|done].
        rewrite E, <- IH1. symmetry. by apply IH2.
      * intros [Hz%Z.eqb_eq He%negb_true_iff]%andb_true_iff [|c' r'].
        -- by rewrite memN_nil.
        -- by apply no_children_memN.
    + split; [|done].
      intros [|c' r']; [done|]. rewrite !memN_cons. simpl.
      rewrite OMapFacts.get_set.
      destruct (decide (c = c')) as [<-|]; [|done]. by rewrite E, IH1.
Qed.

Lemma delete_result w t : snd (delete w t) = search t w.
Proof.
  unfold delete, search. destruct (truthy w); simpl; [|done].
  destruct (findNode _ _) as [node|]; [|done].
  destruct (isEndOfWord node); simpl; [|done].
  by destruct (deleteHelper _ _).
Qed.

Lemma search_delete w t q :
  search (fst (delete w t)) q =
  if decide (toLowerCase q = toLowerCase w) then false else search t q.
Proof.
  pose proof (delete_result w t) as Hres.
  unfold delete in *. rewrite !search_memN in *.
  destruct (truthy w) eqn:Ew; simpl in *.
  - unfold memN in Hres at 1.
    destruct (findNode (toLowerCase w) (root t)) as [node|] eqn:Ef.
    + destruct (isEndOfWord node) eqn:Ee; simpl in *.
      * pose proof (memN_unmark (toLowerCase w) (root t)) as Hu.
        destruct (deleteHelper_memN (toLowerCase w)
                    (alterNode unmarkNode (toLowerCase w) (root t))) as [H1 _].
        { by rewrite Hu, decide_True. }
        destruct (deleteHelper _ _) as [r2 b]. simpl in *.
        rewrite H1, Hu. case_decide; [apply andb_false_r|done].
      * case_decide as Hq; [|done]. rewrite Hq. unfold memN. simpl.
        rewrite Ef, Ee. apply andb_false_r.
    + case_decide as Hq; [|done]. rewrite Hq. unfold memN. simpl.
      rewrite Ef. apply andb_false_r.
  - case_decide as Hq; [|done].
    replace (truthy q) with false; [done|].
    rewrite <- (truthy_toLowerCase q), Hq, truthy_toLowerCase. done.
Qed.

(** *** The stored-word invariant *)

Lemma wf_newNode p : wf p newNode.
Proof. by constructor. Qed.

Lemma Forall_set {V} (P : ascii * V -> Prop) c v m :
  Forall P m -> P (c, v) -> Forall P (OMap.set c v m).
Proof.
  intros Hm Hv. apply List.Forall_forall. intros x Hx.
  destruct (OMapFacts.In_set _ _ _ _ Hx) as [->|Hin]; [done|].
  by eapply List.Forall_forall in Hm.
Qed.

Lemma Forall_delete {V} (P : ascii * V -> Prop) c m :
  Forall P m -> Forall P (OMap.delete c m).
Proof.
  intros Hm. apply List.Forall_forall. intros x Hx%OMapFacts.In_delete.
  by eapply List.Forall_forall in Hm.
Qed.

Lemma wf_end p n :
  wf p n -> isEndOfWord n = true ->
  exists w, value n = Some w /\ truthy w = true /\ toLowerCase w = p.
Proof. intros Hwf He. inversion Hwf; subst. auto. Qed.

Lemma wf_get p n c m :
  wf p n -> OMap.get c (children n) = Some m -> wf (p +:+ String c "") m.
Proof.
  intros Hwf Hget. inversion Hwf as [? ch e v He Hch]; subst. simpl in *.
  apply OMapFacts.get_Some_In in Hget.
  by eapply List.Forall_forall in Hch; [|exact Hget].
Qed.

Lemma wf_findNode cs : forall p n m,
  wf p n -> findNode cs n = Some m -> wf (p +:+ cs) m.
Proof.
  induction cs as [|c cs IH]; intros p n m Hwf Hf; simpl in Hf.
  - injection Hf as <-. by rewrite append_nil_r.
  - destruct (OMap.get c (children n)) as [child|] eqn:E; [|done].
    replace (p +:+ String c cs) with ((p +:+ String c "") +:+ cs)
      by (by rewrite append_assoc).
    eapply IH; [|done]. by eapply wf_get.
Qed.

Lemma wf_insertPath word cs : forall p n,
  truthy word = true -> p +:+ cs = toLowerCase word ->
  wf p n -> wf p (fst (insertPath word cs n)).
Proof.
  induction cs as [|c rest IH]; intros p n Hw Hp Hwf; simpl.
  - destruct (isEndOfWord n) eqn:E; [done|]. simpl.
    inversion Hwf; subst. constructor; [|done].
    intros _. exists word. by rewrite append_nil_r in Hp.
  - destruct (insertPath word rest _) as [child' grew] eqn:E. simpl.
    assert (wf (p +:+ String c "") child') as Hc.
    { replace child' with (fst (insertPath word rest
        (match OMap.get c (children n) with Some n0 => n0 | None => newNode end)))
        by (by rewrite E).
      apply IH; [done|by rewrite append_assoc|].
      destruct (OMap.get c (children n)) eqn:Eg; [by eapply wf_get|apply wf_newNode]. }
    inversion Hwf; subst. simpl in *. constructor; [done|].
    by apply Forall_set.
Qed.

Lemma wf_unmark cs : forall p n, wf p n -> wf p (alterNode unmarkNode cs n).
Proof.
  induction cs as [|c rest IH]; intros p n Hwf; simpl.
  - inversion Hwf; subst. by constructor.
  - destruct (OMap.get c (children n)) as [child|] eqn:E; [|done].
    pose proof (wf_get _ _ _ _ Hwf E) as Hc.
    inversion Hwf; subst. simpl in *. constructor; [done|].
    apply Forall_set; [done|]. by apply IH.
Qed.

Lemma wf_deleteHelper cs : forall p n, wf p n -> wf p (fst (deleteHelper n cs)).
Proof.
  induction cs as [|c rest IH]; intros p n Hwf; simpl; [done|].
  destruct (OMap.get c (children n)) as [child|] eqn:E; [|done].
  pose proof (IH _ _ (wf_get _ _ _ _ Hwf E)) as Hc.
  destruct (deleteHelper child rest) as [child' flag]. simpl in Hc.
  inversion Hwf; subst. simpl in *.
  destruct flag; simpl; (constructor; [done|]).
  - by apply Forall_delete.
  - by apply Forall_set.
Qed.

Lemma wf_step t o : wf "" (root t) -> wf "" (root (step t o)).
Proof.
  intros Hwf. destruct o as [w|w|]; simpl.
  - unfold insert. destruct (truthy w) eqn:Ew; simpl; [|done].
    pose proof (wf_insertPath w (toLowerCase w) "" (root t) Ew eq_refl Hwf) as H.
    by destruct (insertPath _ _ _).
  - unfold delete. destruct (truthy w); simpl; [|done].
    destruct (findNode _ _) as [node|]; [|done].
    destruct (isEndOfWord node); simpl; [|done].
    pose proof (wf_deleteHelper (toLowerCase w) ""
                  _ (wf_unmark (toLowerCase w) "" _ Hwf)) as H.
    by destruct (deleteHelper _ _).
  - apply wf_newNode.
Qed.

Lemma wf_fold ops : forall t,
  wf "" (root t) -> wf "" (root (fold_left step ops t)).
Proof.
  induction ops as [|o ops IH]; intros t Hwf; simpl; [done|].
  apply IH. by apply wf_step.
Qed.

Lemma wf_run ops : wf "" (root (run ops)).
Proof. apply wf_fold, wf_newNode. Qed.

(** *** dfsCollect and autocomplete *)




Lemma dfsCollect_unfold node results limit :
  dfsCollect node results limit =
  if full results limit then results
  else dfsLoop (fun c r => dfsCollect c r limit) limit (children node) results.
Proof. by destruct node. Qed.


(** Every collected word lies below the start node. *)
Lemma dfsCollect_below limit p0 n : forall p res,
  wf p n -> Js.startsWith p p0 = true ->
  Forall (fun x => Js.startsWith (toLowerCase x) p0 = true) res ->
  Forall (fun x => Js.startsWith (toLowerCase x) p0 = true) (dfsCollect n res limit).
Proof.
  induction n as [ch e v IHch] using TrieNode_ind. intros p res Hwf Hp Hres.
  rewrite dfsCollect_unfold. simpl.
  destruct (full res limit); [done|].
  inversion Hwf as [? ? ? ? _ Hwch]; subst. clear Hwf.
  revert res Hres. induction ch as [|[c child] rest IHrest]; intros res Hres; simpl.
  { done. }
  inversion IHch as [|? ? Hchild Hrest]; subst. simpl in Hchild.
  inversion Hwch as [|? ? Hwchild Hwrest]; subst. simpl in Hwchild.
  specialize (IHrest Hrest Hwrest).
  assert (Js.startsWith (p +:+ String c "") p0 = true) as Hpc.
  { eapply startsWith_trans; [apply startsWith_app|done]. }
  set (pushed := isEndOfWord child && truthy_opt (value child)).
  set (res1 := if pushed then res ++ [default "" (value child)] else res).
  assert (Forall (fun x => Js.startsWith (toLowerCase x) p0 = true) res1) as Hres1.
  { unfold res1. destruct pushed eqn:Epush; [|done].
    apply Forall_app. split; [done|]. constructor; [|done].
    apply andb_true_iff in Epush as [Hend _].
    inversion Hwchild as [? ? ? ? Hv _]; subst. simpl in *.
    destruct (Hv Hend) as (w & -> & _ & Hw). simpl. by rewrite Hw. }
  destruct (pushed && full res1 limit); [done|].
  specialize (Hchild _ res1 Hwchild Hpc Hres1).
  destruct (full (dfsCollect child res1 limit) limit); [done|].
  by apply IHrest.
Qed.


Lemma autocomplete_prefix ops prefix limit :
  Forall (fun x => Js.startsWith (toLowerCase x) (toLowerCase prefix) = true)
         (autocomplete (run ops) prefix limit).
Proof.
  unfold autocomplete.
  destruct (truthy prefix); simpl; [|done].
  destruct (findNode _ _) as [startNode|] eqn:Ef; [|done].
  pose proof (wf_findNode _ _ _ _ (wf_run ops) Ef) as Hwf. simpl in Hwf.
  eapply dfsCollect_below; [exact Hwf|apply startsWith_refl|].
  destruct (isEndOfWord startNode) eqn:Ee; simpl; [|done].
  inversion Hwf as [? ? ? ? Hv _]; subst. simpl in *.
  destruct (Hv Ee) as (w & -> & Hw & Hl). simpl. rewrite Hw.
  constructor; [|done]. rewrite Hl. apply startsWith_refl.
Qed.


End TrieFacts.

(** ** More facts about the prefix index *)

Module TrieFacts2.
Import Js JsFacts OMapFacts2 Trie TrieInv TrieFacts TrieModel.

(** *** The word count *)

Lemma insertPath_grew word cs : forall n,
  snd (insertPath word cs n) = negb (memN cs n).
Proof.
  induction cs as [|c rest IH]; intros n; simpl.
  - change (memN "" n) with (isEndOfWord n). by destruct (isEndOfWord n).
  - rewrite memN_cons.
    specialize (IH (match OMap.get c (children n) with
                    | Some n0 => n0 | None => newNode end)).
    destruct (insertPath word rest _) as [child' grew]. simpl in *.
    rewrite IH. destruct (OMap.get c (children n)); [done|].
    by rewrite memN_newNode.
Qed.

Lemma size_insert w t :
  size (insert w t) =
  if truthy w && negb (search t w) then size t + 1 else size t.
Proof.
  unfold insert. rewrite search_memN.
  destruct (truthy w); simpl; [|done].
  pose proof (insertPath_grew w (toLowerCase w) (root t)) as Hg.
  destruct (insertPath _ _ _) as [r grew]. simpl in *. by rewrite Hg.
Qed.

Lemma size_delete w t :
  size (fst (delete w t)) = if search t w then size t - 1 else size t.
Proof.
  unfold delete, search. destruct (truthy w); simpl; [|done].
  destruct (findNode _ _) as [node|]; [|done].
  destruct (isEndOfWord node); simpl; [|done].
  by destruct (deleteHelper _ _).
Qed.

Lemma truthy_ne s : truthy s = true <-> s <> "".
Proof. destruct s; simpl; split; congruence. Qed.

Lemma Stores_empty : Stores empty [].
Proof.
  split; [constructor|]. split; [by intros ?%elem_of_nil|]. split; [done|].
  intros q. rewrite search_empty. split; [done|]. by intros [_ ?%elem_of_nil].
Qed.

Lemma length_filter_remove (x : string) (m : list string) :
  NoDup m -> x ∈ m -> S (length (filter (fun y => y <> x) m)) = length m.
Proof.
  induction m as [|a r IH]; [by intros _ ?%elem_of_nil|].
  intros [Ha Hr]%NoDup_cons Hin. destruct (decide (a = x)) as [->|Hne].
  - rewrite filter_cons_False by (by intros ?). simpl. f_equal.
    clear -Ha. induction r as [|b r IH]; [done|].
    apply not_elem_of_cons in Ha as [? ?].
    rewrite filter_cons_True by done. simpl. f_equal. auto.
  - apply elem_of_cons in Hin as [->|Hin]; [done|].
    rewrite filter_cons_True by done. simpl. f_equal. auto.
Qed.

Lemma filter_remove_notin (x : string) (m : list string) :
  x ∉ m -> filter (fun y => y <> x) m = m.
Proof.
  induction m as [|a r IH]; [done|]. intros [? ?]%not_elem_of_cons.
  rewrite filter_cons_True by done. f_equal. auto.
Qed.

Lemma Stores_step t m o : Stores t m -> Stores (step t o) (absStep m o).
Proof.
  intros (Hnd & Hne & Hsz & Hs). destruct o as [w|w|]; simpl.
  - destruct (truthy w) eqn:Ew.
    + assert (w <> "") as Hw by (by apply truthy_ne).
      assert (toLowerCase w <> "") as Hlw
        by (intros E; by apply (proj1 (toLowerCase_empty _)) in E).
      unfold OSet.add, OSet.has. split; [|split; [|split]].
      * case_bool_decide; [done|]. apply NoDup_app. split; [done|].
        split; [|apply NoDup_singleton].
        intros x Hx ->%list_elem_of_singleton. done.
      * case_bool_decide; [done|]. rewrite elem_of_app.
        intros [?|E%list_elem_of_singleton]; congruence.
      * rewrite size_insert, Ew. simpl.
        destruct (search t w) eqn:Es.
        -- apply Hs in Es as [_ Hin]. simpl. by rewrite bool_decide_true.
        -- rewrite bool_decide_false.
           ++ simpl. rewrite length_app. simpl. lia.
           ++ intros Hin. assert (search t w = true) by (by apply Hs). congruence.
      * intros q. rewrite search_insert, Ew, orb_true_iff, !andb_true_iff,
          bool_decide_eq_true, Hs, truthy_ne. simpl.
        case_bool_decide as Hin.
        -- split; [|tauto]. intros [[[_ Hq] He]|?]; [|done].
           split; [done|]. by rewrite He.
        -- rewrite elem_of_app, list_elem_of_singleton. tauto.
    + unfold insert. rewrite Ew. simpl. done.
  - split; [by apply NoDup_filter|]. split; [|split].
    + rewrite list_elem_of_filter. tauto.
    + rewrite size_delete. destruct (search t w) eqn:Es.
      * apply Hs in Es as [_ Hin].
        pose proof (length_filter_remove _ _ Hnd Hin). lia.
      * rewrite filter_remove_notin; [done|]. intros Hin.
        destruct (decide (w = "")) as [->|Hw]; [done|].
        assert (search t w = true) by (by apply Hs). congruence.
    + intros q. rewrite search_delete, list_elem_of_filter.
      case_decide as He.
      * split; [done|]. tauto.
      * rewrite Hs. tauto.
  - apply Stores_empty.
Qed.

Lemma Stores_run ops : Stores (run ops) (absRun ops).
Proof.
  unfold run, absRun.
  assert (forall t m, Stores t m ->
            Stores (fold_left step ops t) (fold_left absStep ops m)) as Hgen.
  { induction ops as [|o ops IH]; intros t m HS; simpl; [done|].
    apply IH. by apply Stores_step. }
  apply Hgen, Stores_empty.
Qed.

(** *** Re-insertion *)

Lemma insertPath_stored word cs : forall n,
  memN cs n = true -> insertPath word cs n = (n, false).
Proof.
  induction cs as [|c rest IH]; intros n; simpl.
  - change (memN "" n) with (isEndOfWord n). by intros ->.
  - rewrite memN_cons. destruct (OMap.get c (children n)) as [child|] eqn:E; [|done].
    intros Hm. rewrite (IH child Hm), (set_get_id _ _ _ E). by destruct n.
Qed.

Lemma insert_stored w t : search t w = true -> insert w t = t.
Proof.
  rewrite search_memN. intros [Hw Hm]%andb_true_iff.
  unfold insert. rewrite Hw. simpl.
  rewrite (insertPath_stored w _ _ Hm). by destruct t.
Qed.

(** *** Paths *)

Lemma findNode_app a : forall b n,
  findNode (a +:+ b) n =
  match findNode a n with Some m => findNode b m | None => None end.
Proof.
  induction a as [|c a IH]; intros b n; [done|].
  change (findNode (String c (a +:+ b)) n =
          match findNode (String c a) n with
          | Some m => findNode b m | None => None end).
  simpl. destruct (OMap.get c (children n)); [apply IH|done].
Qed.



(** *** Distinct keys *)

Lemma uniq_newNode : uniq newNode.
Proof. constructor; [constructor|done]. Qed.

Lemma uniq_inv ch e v :
  uniq (mkTrieNode ch e v) ->
  NoDup (map fst ch) /\ Forall (fun cn => uniq (snd cn)) ch.
Proof. by inversion 1. Qed.

Lemma uniq_get n c m :
  uniq n -> OMap.get c (children n) = Some m -> uniq m.
Proof.
  destruct n as [ch e v]. intros [_ Hch]%uniq_inv Hg. simpl in Hg.
  apply OMapFacts.get_Some_In in Hg.
  by eapply List.Forall_forall in Hch; [|exact Hg].
Qed.

Lemma uniq_insertPath word cs : forall n,
  uniq n -> uniq (fst (insertPath word cs n)).
Proof.
  induction cs as [|c rest IH]; intros n Hu; simpl.
  - destruct n as [ch e v]. apply uniq_inv in Hu as [? ?].
    destruct e; simpl; by constructor.
  - assert (uniq (match OMap.get c (children n) with
                  | Some n0 => n0 | None => newNode end)) as Hc.
    { destruct (OMap.get c (children n)) eqn:E;
        [by eapply uniq_get|apply uniq_newNode]. }
    apply IH in Hc. destruct (insertPath word rest _) as [child' grew].
    simpl in *. destruct n as [ch e v]. apply uniq_inv in Hu as [? ?]. simpl.
    constructor; [by apply NoDup_keys_set|by apply Forall_set].
Qed.

Lemma uniq_unmark cs : forall n, uniq n -> uniq (alterNode unmarkNode cs n).
Proof.
  induction cs as [|c rest IH]; intros n Hu; simpl.
  - destruct n as [ch e v]. apply uniq_inv in Hu as [? ?]. by constructor.
  - destruct (OMap.get c (children n)) as [child|] eqn:E; [|done].
    pose proof (IH _ (uniq_get _ _ _ Hu E)).
    destruct n as [ch e v]. apply uniq_inv in Hu as [? ?]. simpl.
    constructor; [by apply NoDup_keys_set|by apply Forall_set].
Qed.

Lemma uniq_deleteHelper cs : forall n, uniq n -> uniq (fst (deleteHelper n cs)).
Proof.
  induction cs as [|c rest IH]; intros n Hu; simpl; [done|].
  destruct (OMap.get c (children n)) as [child|] eqn:E; [|done].
  pose proof (IH _ (uniq_get _ _ _ Hu E)) as Hc.
  destruct (deleteHelper child rest) as [child' flag]. simpl in Hc.
  destruct n as [ch e v]. apply uniq_inv in Hu as [? ?]. simpl.
  destruct flag; simpl; constructor;
    [by apply NoDup_keys_delete|by apply Forall_delete
    |by apply NoDup_keys_set|by apply Forall_set].
Qed.

Lemma uniq_step t o : uniq (root t) -> uniq (root (step t o)).
Proof.
  intros Hu. destruct o as [w|w|]; simpl.
  - unfold insert. destruct (truthy w); simpl; [|done].
    pose proof (uniq_insertPath w (toLowerCase w) _ Hu) as H.
    by destruct (insertPath _ _ _).
  - unfold delete. destruct (truthy w); simpl; [|done].
    destruct (findNode _ _) as [node|]; [|done].
    destruct (isEndOfWord node); simpl; [|done].
    pose proof (uniq_deleteHelper (toLowerCase w) _
                  (uniq_unmark (toLowerCase w) _ Hu)) as H.
    by destruct (deleteHelper _ _).
  - apply uniq_newNode.
Qed.

Lemma uniq_run ops : uniq (root (run ops)).
Proof.
  unfold run. assert (forall t, uniq (root t) ->
                        uniq (root (fold_left step ops t))) as Hgen.
  { induction ops as [|o ops IH]; intros t Hu; simpl; [done|].
    apply IH. by apply uniq_step. }
  apply Hgen, uniq_newNode.
Qed.

(** *** Everything collected is stored *)

Lemma stored_at r p n :
  wf p n -> findNode p r = Some n -> isEndOfWord n = true ->
  exists w, value n = Some w /\ stored r w.
Proof.
  intros Hwf Hf He. destruct (wf_end _ _ Hwf He) as (w & Hv & Hw & Hl).
  exists w. split; [done|]. split; [done|]. unfold memN. by rewrite Hl, Hf.
Qed.

Lemma dfsCollect_stored r limit n : forall p res,
  uniq n -> wf p n -> findNode p r = Some n ->
  Forall (stored r) res -> Forall (stored r) (dfsCollect n res limit).
Proof.
  induction n as [ch e v IHch] using TrieNode_ind. intros p res Hu Hwf Hp Hres.
  rewrite dfsCollect_unfold. simpl.
  destruct (full res limit); [done|].
  inversion Hwf as [? ? ? ? _ Hwch]; subst. clear Hwf.
  apply uniq_inv in Hu as [Hnd Huch].
  assert (forall c m, In (c, m) ch ->
            findNode (p +:+ String c "") r = Some m) as Hfind.
  { intros c m Hin. rewrite findNode_app, Hp. simpl.
    by rewrite (get_of_In _ _ _ Hnd Hin). }
  clear Hnd Hp.
  revert res Hres. induction ch as [|[c child] rest IHrest]; intros res Hres; simpl.
  { done. }
  inversion IHch as [|? ? Hchild Hrest]; subst. simpl in Hchild.
  inversion Hwch as [|? ? Hwchild Hwrest]; subst. simpl in Hwchild.
  inversion Huch as [|? ? Huchild Hurest]; subst. simpl in Huchild.
  pose proof (Hfind c child (or_introl eq_refl)) as Hfc.
  set (pushed := isEndOfWord child && truthy_opt (value child)).
  set (res1 := if pushed then res ++ [default "" (value child)] else res).
  assert (Forall (stored r) res1) as Hres1.
  { unfold res1. destruct pushed eqn:Epush; [|done].
    apply Forall_app. split; [done|]. constructor; [|done].
    apply andb_true_iff in Epush as [Hend _].
    destruct (stored_at _ _ _ Hwchild Hfc Hend) as (w & -> & Hw). done. }
  destruct (pushed && full res1 limit); [done|].
  specialize (Hchild _ res1 Huchild Hwchild Hfc Hres1).
  destruct (full (dfsCollect child res1 limit) limit); [done|].
  apply IHrest; try done. intros c0 m Hin. apply Hfind. by right.
Qed.

Lemma autocomplete_stored ops prefix limit x :
  x ∈ autocomplete (run ops) prefix limit -> search (run ops) x = true.
Proof.
  unfold autocomplete.
  destruct (truthy prefix); simpl; [|by intros ?%elem_of_nil].
  destruct (findNode _ _) as [startNode|] eqn:Ef; [|by intros ?%elem_of_nil].
  pose proof (wf_findNode _ _ _ _ (wf_run ops) Ef) as Hwf. simpl in Hwf.
  intros Hx.
  assert (Forall (stored (root (run ops)))
            (if isEndOfWord startNode && truthy_opt (value startNode)
             then [default "" (value startNode)] else [])) as Hres.
  { destruct (isEndOfWord startNode) eqn:Ee; simpl; [|done].
    destruct (stored_at _ _ _ Hwf Ef Ee) as (w & -> & Hw). simpl.
    destruct Hw as [Hw1 Hw2]. rewrite Hw1. by constructor. }
  assert (uniq startNode) as Hu.
  { clear -Ef. pose proof (uniq_run ops) as Hr. revert Hr Ef.
    generalize (root (run ops)). generalize (toLowerCase prefix).
    intros cs. induction cs as [|c cs IH]; intros n Hn; simpl.
    - by intros [= <-].
    - destruct (OMap.get c (children n)) eqn:E; [|done].
      apply IH. by eapply uniq_get. }
  pose proof (dfsCollect_stored _ limit _ _ _ Hu Hwf Ef Hres) as Hall.
  eapply List.Forall_forall in Hall; [|by apply list_elem_of_In].
  destruct Hall as [H1 H2]. by rewrite search_memN, H1, H2.
Qed.

(** *** No dead ends *)












(** *** Nothing is missed unless the limit is reached *)




(** *** Suggestions are inserted words *)

Section ValuesIn.
Variable P : string -> Prop.

Lemma valuesIn_inv ch e v :
  valuesIn P (mkTrieNode ch e v) ->
  (forall w, v = Some w -> P w) /\ Forall (fun cn => valuesIn P (snd cn)) ch.
Proof. by inversion 1. Qed.

Lemma valuesIn_newNode : valuesIn P newNode.
Proof. by constructor. Qed.

Lemma valuesIn_get n c m :
  valuesIn P n -> OMap.get c (children n) = Some m -> valuesIn P m.
Proof.
  destruct n as [ch e v]. intros [_ Hch]%valuesIn_inv Hg. simpl in Hg.
  apply OMapFacts.get_Some_In in Hg.
  by eapply List.Forall_forall in Hch; [|exact Hg].
Qed.

Lemma valuesIn_findNode cs : forall n m,
  valuesIn P n -> findNode cs n = Some m -> valuesIn P m.
Proof.
  induction cs as [|c cs IH]; intros n m Hv; simpl.
  - by intros [= <-].
  - destruct (OMap.get c (children n)) eqn:E; [|done].
    apply IH. by eapply valuesIn_get.
Qed.

Lemma valuesIn_insertPath word cs : forall n,
  P word -> valuesIn P n -> valuesIn P (fst (insertPath word cs n)).
Proof.
  induction cs as [|c rest IH]; intros n Hw Hv; simpl.
  - destruct n as [ch e v]. apply valuesIn_inv in Hv as [? ?].
    destruct e; simpl; constructor; try done. by intros ? [= <-].
  - assert (valuesIn P (match OMap.get c (children n) with
                        | Some n0 => n0 | None => newNode end)) as Hc.
    { destruct (OMap.get c (children n)) eqn:E;
        [by eapply valuesIn_get|apply valuesIn_newNode]. }
    apply (IH _ Hw) in Hc. destruct (insertPath word rest _) as [child' grew].
    simpl in *. destruct n as [ch e v]. apply valuesIn_inv in Hv as [? ?].
    simpl. constructor; [done|by apply Forall_set].
Qed.

Lemma valuesIn_unmark cs : forall n,
  valuesIn P n -> valuesIn P (alterNode unmarkNode cs n).
Proof.
  induction cs as [|c rest IH]; intros n Hv; simpl.
  - destruct n as [ch e v]. apply valuesIn_inv in Hv as [? ?]. by constructor.
  - destruct (OMap.get c (children n)) as [child|] eqn:E; [|done].
    pose proof (IH _ (valuesIn_get _ _ _ Hv E)).
    destruct n as [ch e v]. apply valuesIn_inv in Hv as [? ?]. simpl.
    constructor; [done|by apply Forall_set].
Qed.

Lemma valuesIn_deleteHelper cs : forall n,
  valuesIn P n -> valuesIn P (fst (deleteHelper n cs)).
Proof.
  induction cs as [|c rest IH]; intros n Hv; simpl; [done|].
  destruct (OMap.get c (children n)) as [child|] eqn:E; [|done].
  pose proof (IH _ (valuesIn_get _ _ _ Hv E)) as Hc.
  destruct (deleteHelper child rest) as [child' flag]. simpl in Hc.
  destruct n as [ch e v]. apply valuesIn_inv in Hv as [? ?]. simpl.
  destruct flag; simpl; constructor;
    [done|by apply Forall_delete|done|by apply Forall_set].
Qed.

Lemma valuesIn_step t o :
  (forall w, o = OpInsert w -> P w) ->
  valuesIn P (root t) -> valuesIn P (root (step t o)).
Proof.
  intros Ho Hv. destruct o as [w|w|]; simpl.
  - unfold insert. destruct (truthy w); simpl; [|done].
    pose proof (valuesIn_insertPath w (toLowerCase w) _ (Ho w eq_refl) Hv) as H.
    by destruct (insertPath _ _ _).
  - unfold delete. destruct (truthy w); simpl; [|done].
    destruct (findNode _ _) as [node|]; [|done].
    destruct (isEndOfWord node); simpl; [|done].
    pose proof (valuesIn_deleteHelper (toLowerCase w) _
                  (valuesIn_unmark (toLowerCase w) _ Hv)) as H.
    by destruct (deleteHelper _ _).
  - apply valuesIn_newNode.
Qed.

Lemma valuesIn_fold ops : forall t,
  (forall w, In (OpInsert w) ops -> P w) ->
  valuesIn P (root t) -> valuesIn P (root (fold_left step ops t)).
Proof.
  induction ops as [|o ops IH]; intros t Hops Hv; simpl; [done|].
  apply IH; [intros w Hw; apply Hops; by right|].
  apply valuesIn_step; [|done]. intros w ->. apply Hops. by left.
Qed.

Lemma dfsCollect_values limit n : forall res,
  valuesIn P n -> Forall P res -> Forall P (dfsCollect n res limit).
Proof.
  induction n as [ch e v IHch] using TrieNode_ind. intros res Hv Hres.
  rewrite dfsCollect_unfold. simpl.
  destruct (full res limit); [done|].
  apply valuesIn_inv in Hv as [_ Hvch].
  revert res Hres. induction ch as [|[c child] rest IHrest]; intros res Hres; simpl.
  { done. }
  inversion IHch as [|? ? Hchild Hrest]; subst. simpl in Hchild.
  inversion Hvch as [|? ? Hvchild Hvrest]; subst. simpl in Hvchild.
  set (pushed := isEndOfWord child && truthy_opt (value child)).
  set (res1 := if pushed then res ++ [default "" (value child)] else res).
  assert (Forall P res1) as Hres1.
  { unfold res1. destruct pushed eqn:Epush; [|done].
    apply Forall_app. split; [done|]. constructor; [|done].
    apply andb_true_iff in Epush as [_ Hval].
    destruct child as [ch' e' [w|]]; [|done].
    apply valuesIn_inv in Hvchild as [Hw _]. simpl. by apply Hw. }
  destruct (pushed && full res1 limit); [done|].
  specialize (Hchild res1 Hvchild Hres1).
  destruct (full (dfsCollect child res1 limit) limit); [done|].
  by apply IHrest.
Qed.

Lemma autocomplete_values t prefix limit :
  valuesIn P (root t) -> Forall P (autocomplete t prefix limit).
Proof.
  intros Hv. unfold autocomplete.
  destruct (truthy prefix); simpl; [|done].
  destruct (findNode _ _) as [startNode|] eqn:Ef; [|done].
  pose proof (valuesIn_findNode _ _ _ Hv Ef) as Hs.
  apply dfsCollect_values; [done|].
  destruct startNode as [ch e [w|]]; simpl; [|by rewrite andb_false_r].
  destruct (e && truthy w); [|done].
  apply valuesIn_inv in Hs as [Hw _]. constructor; [by apply Hw|done].
Qed.

End ValuesIn.

Lemma autocomplete_inserted ops prefix limit x :
  x ∈ autocomplete (run ops) prefix limit -> In (OpInsert x) ops.
Proof.
  intros Hx.
  pose proof (autocomplete_values (fun w => In (OpInsert w) ops)
                (run ops) prefix limit) as Hall.
  eapply List.Forall_forall in Hall; [exact Hall| |by apply list_elem_of_In].
  apply valuesIn_fold; [done|apply valuesIn_newNode].
Qed.

Lemma insertAll_run ws : insertAll ws = run (map OpInsert ws).
Proof.
  unfold insertAll, run. generalize empty.
  induction ws as [|w ws IH]; intros t; simpl; [done|]. apply IH.
Qed.

End TrieFacts2.

(** ** Facts about the bounded cache *)

Module LRUFacts.

Import LRUInv.

(** *** Neighbours in a duplicate-free list *)

Lemma NoDup_reverse (ls : list loc) : NoDup ls -> NoDup (reverse ls).
Proof. by rewrite reverse_Permutation. Qed.

Lemma nextOf_notin ls x : x ∉ ls -> nextOf ls x = None.
Proof.
  induction ls as [|a r IH]; simpl; [done|].
  intros [Ha Hr]%not_elem_of_cons. rewrite decide_False by done. auto.
Qed.

Lemma nextOf_elem ls x y : nextOf ls x = Some y -> x ∈ ls /\ y ∈ ls.
Proof.
  induction ls as [|a r IH]; simpl; [done|].
  case_decide; subst.
  - intros Hh. split; [left|right]. by apply head_Some_elem_of.
  - intros Hn. destruct (IH Hn). split; by right.
Qed.

Lemma nextOf_app_r pre l rest :
  l ∉ pre -> nextOf (pre ++ l :: rest) l = head rest.
Proof.
  induction pre as [|a r IH]; simpl.
  - by rewrite decide_True.
  - intros [Ha Hr]%not_elem_of_cons. rewrite decide_False by done. auto.
Qed.

Lemma nextOf_split ls x y :
  NoDup ls ->
  nextOf ls x = Some y <-> exists a b, ls = a ++ x :: y :: b.
Proof.
  intros Hnd. split.
  - induction ls as [|a r IH]; simpl; [done|].
    apply NoDup_cons in Hnd as [Ha Hr]. case_decide; subst.
    + intros [r' ->]%head_Some. exists []. by exists r'.
    + intros Hn. destruct (IH Hr Hn) as (a' & b' & ->). exists (a :: a'). by exists b'.
  - intros (a & b & ->). rewrite nextOf_app_r; [done|].
    apply NoDup_app in Hnd as (_ & Hd & _). intros Hx. apply (Hd _ Hx). by left.
Qed.

Lemma nextOf_prevOf ls x y :
  NoDup ls -> nextOf ls x = Some y <-> prevOf ls y = Some x.
Proof.
  intros Hnd. unfold prevOf.
  rewrite (nextOf_split ls) by done.
  rewrite (nextOf_split (reverse ls)) by (by apply NoDup_reverse).
  split.
  - intros (a & b & ->). exists (reverse b). exists (reverse a).
    rewrite reverse_app, !reverse_cons, <- !app_assoc. done.
  - intros (a & b & Hr). exists (reverse b). exists (reverse a).
    rewrite <- (reverse_involutive ls), Hr.
    rewrite reverse_app, !reverse_cons, <- !app_assoc. done.
Qed.

Lemma prevOf_nextOf ls x y :
  NoDup ls -> prevOf ls x = Some y <-> nextOf ls y = Some x.
Proof. intros. symmetry. by apply nextOf_prevOf. Qed.

Lemma nextOf_ne ls x : NoDup ls -> nextOf ls x <> Some x.
Proof.
  intros Hnd Hn. apply (proj1 (nextOf_split _ _ _ Hnd)) in Hn as (a & b & ->).
  apply NoDup_app in Hnd as (_ & _ & Hnd).
  apply NoDup_cons in Hnd as [Hx _]. apply Hx. by left.
Qed.

Lemma prevOf_ne ls x : NoDup ls -> prevOf ls x <> Some x.
Proof. intros Hnd. apply nextOf_ne. by apply NoDup_reverse. Qed.

Lemma nextOf_None ls x :
  NoDup ls -> x ∈ ls -> nextOf ls x = None <-> last ls = Some x.
Proof.
  intros Hnd Hx. induction ls as [|a r IH]; [by apply elem_of_nil in Hx|].
  apply NoDup_cons in Hnd as [Ha Hr]. cbn [nextOf]. case_decide; subst.
  - destruct r as [|b r]; [done|]. cbn [head]. split; [done|].
    rewrite last_cons_cons. intros Hl%last_Some_elem_of. done.
  - apply elem_of_cons in Hx as [->|Hx]; [done|].
    rewrite (IH Hr Hx). destruct r; [by apply elem_of_nil in Hx|].
    by rewrite last_cons_cons.
Qed.

Lemma prevOf_None ls x :
  NoDup ls -> x ∈ ls -> prevOf ls x = None <-> head ls = Some x.
Proof.
  intros Hnd Hx. unfold prevOf.
  rewrite nextOf_None, last_reverse; [done|by apply NoDup_reverse|].
  by apply elem_of_reverse.
Qed.

Lemma nextOf_snoc ls a x :
  NoDup ls -> a ∉ ls ->
  nextOf (ls ++ [a]) x =
  if decide (last ls = Some x) then Some a else nextOf ls x.
Proof.
  intros Hnd Ha. induction ls as [|b r IH].
  - cbn. rewrite (decide_False (P := None = Some x)) by done. by case_decide.
  - apply NoDup_cons in Hnd as [Hb Hr].
    apply not_elem_of_cons in Ha as [Hab Har].
    change ((b :: r) ++ [a]) with (b :: (r ++ [a])). cbn [nextOf].
    destruct (decide (b = x)) as [->|Hbx].
    + destruct r as [|c r].
      * cbn. by rewrite decide_True.
      * rewrite decide_False; [done|].
        rewrite last_cons_cons. intros Hl%last_Some_elem_of. done.
    + rewrite (IH Hr Har). destruct r as [|c r].
      * rewrite (decide_False (P := last [] = Some x)) by done.
        rewrite (decide_False (P := last [b] = Some x)); [done|].
        cbn. congruence.
      * by rewrite last_cons_cons.
Qed.

Lemma prevOf_cons ls a x :
  NoDup ls -> a ∉ ls ->
  prevOf (a :: ls) x =
  if decide (head ls = Some x) then Some a else prevOf ls x.
Proof.
  intros Hnd Ha. unfold prevOf. rewrite reverse_cons, nextOf_snoc.
  - by rewrite last_reverse.
  - by apply NoDup_reverse.
  - by rewrite elem_of_reverse.
Qed.

Lemma without_notin l ls : l ∉ ls -> without l ls = ls.
Proof.
  induction ls as [|a r IH]; [done|].
  intros [Ha Hr]%not_elem_of_cons. unfold without in *.
  rewrite filter_cons_True by done. by rewrite IH.
Qed.

Lemma without_cons_eq l ls : l ∉ ls -> without l (l :: ls) = ls.
Proof.
  intros Hl. unfold without. rewrite filter_cons_False by (intros ?; done).
  by apply without_notin.
Qed.

Lemma elem_of_without l ls x : x ∈ without l ls <-> x <> l /\ x ∈ ls.
Proof. unfold without. by rewrite list_elem_of_filter. Qed.

Lemma NoDup_without l ls : NoDup ls -> NoDup (without l ls).
Proof. apply NoDup_filter; apply _. Qed.

Lemma reverse_without l ls : reverse (without l ls) = without l (reverse ls).
Proof. unfold without. by rewrite filter_reverse. Qed.

Lemma head_without l ls :
  NoDup ls ->
  head (without l ls) = if decide (head ls = Some l) then nextOf ls l else head ls.
Proof.
  intros Hnd. destruct ls as [|a r]; [done|].
  apply NoDup_cons in Hnd as [Ha Hr]. simpl.
  destruct (decide (a = l)) as [->|Hal].
  - rewrite decide_True by done. by rewrite without_cons_eq.
  - rewrite decide_False by congruence.
    unfold without. by rewrite filter_cons_True.
Qed.

Lemma last_without l ls :
  NoDup ls ->
  last (without l ls) = if decide (last ls = Some l) then prevOf ls l else last ls.
Proof.
  intros Hnd. rewrite <- !head_reverse, reverse_without.
  rewrite head_without by (by apply NoDup_reverse). done.
Qed.

Lemma nextOf_without l ls x :
  NoDup ls -> x <> l ->
  nextOf (without l ls) x =
  if decide (nextOf ls x = Some l) then nextOf ls l else nextOf ls x.
Proof.
  intros Hnd Hx. induction ls as [|a r IH]; [done|].
  apply NoDup_cons in Hnd as [Ha Hr]. cbn [nextOf].
  destruct (decide (a = x)) as [->|Hax].
  - unfold without. rewrite filter_cons_True by done. cbn [nextOf].
    rewrite decide_True by done. fold (without l r).
    rewrite head_without by done.
    by rewrite (decide_False (P := x = l)) by done.
  - destruct (decide (a = l)) as [->|Hal].
    + rewrite without_cons_eq by done.
      rewrite decide_False; [done|].
      intros [_ Hn]%nextOf_elem. done.
    + unfold without. rewrite filter_cons_True by done. cbn [nextOf].
      rewrite decide_False by done. fold (without l r).
      by rewrite IH.
Qed.

Lemma prevOf_without l ls x :
  NoDup ls -> x <> l ->
  prevOf (without l ls) x =
  if decide (prevOf ls x = Some l) then prevOf ls l else prevOf ls x.
Proof.
  intros Hnd Hx. unfold prevOf. rewrite reverse_without.
  apply nextOf_without; [by apply NoDup_reverse|done].
Qed.

(** *** The linked-list invariant *)

Section Inv.
Context {K V : Type} `{Countable K}.
Implicit Types (c : LRU.LRUCache K V) (h : gmap loc (LRU.LRUNode K V)).
Implicit Types (n : LRU.LRUNode K V) (ls : list loc) (l x : loc).
Implicit Types (es : list (loc * K)) (k : K) (ks : list K).

Lemma lookup_upd_next o q h x :
  upd_next o q h !! x =
  (if decide (o = Some x) then LRU.set_next q else id) <$> h !! x.
Proof.
  destruct o as [p|]; simpl.
  - rewrite lookup_alter. destruct (decide (p = x)) as [->|].
    + by rewrite decide_True.
    + rewrite decide_False by congruence. by rewrite option_fmap_id.
  - by rewrite option_fmap_id.
Qed.

Lemma lookup_upd_prev o q h x :
  upd_prev o q h !! x =
  (if decide (o = Some x) then LRU.set_prev q else id) <$> h !! x.
Proof.
  destruct o as [p|]; simpl.
  - rewrite lookup_alter. destruct (decide (p = x)) as [->|].
    + by rewrite decide_True.
    + rewrite decide_False by congruence. by rewrite option_fmap_id.
  - by rewrite option_fmap_id.
Qed.

(** [removeNode] in closed form. *)
Lemma removeNode_eq c l n :
  LRU.heap c !! l = Some n -> LRU.prev n <> Some l ->
  LRU.removeNode l c =
  LRU.mkLRUCache (LRU.capacity c) (LRU.cache c)
    (upd_prev (LRU.next n) (LRU.prev n)
       (upd_next (LRU.prev n) (LRU.next n) (LRU.heap c)))
    (match LRU.prev n with None => LRU.next n | Some _ => LRU.head c end)
    (match LRU.next n with None => LRU.prev n | Some _ => LRU.tail c end)
    (LRU.hits c) (LRU.misses c) (LRU.nextLoc c).
Proof.
  intros Hn Hp. unfold LRU.removeNode. rewrite Hn.
  destruct (LRU.prev n) as [p|] eqn:Ep; simpl.
  - rewrite lookup_alter_ne by congruence. rewrite Hn, Ep.
    by destruct (LRU.next n).
  - rewrite Hn, Ep. by destruct (LRU.next n).
Qed.

Lemma removeNode_LInv c ls l :
  LInv c ls -> l ∈ ls -> LInv (LRU.removeNode l c) (without l ls).
Proof.
  intros [Hnd Hhd Htl Hnode] Hl.
  destruct (Hnode l Hl) as (n & Hn & Hp & Hq).
  rewrite (removeNode_eq c l n Hn)
    by (rewrite Hp; by apply prevOf_ne).
  constructor; simpl.
  - by apply NoDup_without.
  - rewrite head_without, Hp, Hhd by done.
    destruct (prevOf ls l) as [p|] eqn:Ep.
    + rewrite decide_False; [done|].
      intros Hh. apply prevOf_None in Hh; [congruence|done|done].
    + rewrite decide_True; [done|]. by apply prevOf_None.
  - rewrite last_without, Hq, Htl by done.
    destruct (nextOf ls l) as [q|] eqn:Eq.
    + rewrite decide_False; [done|].
      intros Hh. apply nextOf_None in Hh; [congruence|done|done].
    + rewrite decide_True; [done|]. by apply nextOf_None.
  - intros x [Hxl Hx]%elem_of_without.
    destruct (Hnode x Hx) as (nx & Hnx & Hpx & Hqx).
    rewrite lookup_upd_prev, lookup_upd_next, Hnx, Hp, Hq. simpl.
    eexists. split; [done|].
    rewrite prevOf_without, nextOf_without by done.
    split.
    + destruct (decide (nextOf ls l = Some x)) as [Hnx'|Hnx'].
      * rewrite (decide_True (P := prevOf ls x = Some l))
          by (by apply (prevOf_nextOf _ _ _ Hnd)).
        by destruct (decide (prevOf ls l = Some x)).
      * rewrite (decide_False (P := prevOf ls x = Some l))
          by (by rewrite (prevOf_nextOf _ _ _ Hnd)).
        by destruct (decide (prevOf ls l = Some x)).
    + destruct (decide (prevOf ls l = Some x)) as [Hpx'|Hpx'].
      * rewrite (decide_True (P := nextOf ls x = Some l))
          by (by apply (nextOf_prevOf _ _ _ Hnd)).
        by destruct (decide (nextOf ls l = Some x)).
      * rewrite (decide_False (P := nextOf ls x = Some l))
          by (by rewrite (nextOf_prevOf _ _ _ Hnd)).
        by destruct (decide (nextOf ls l = Some x)).
Qed.

Lemma removeNode_frame c ls l :
  LInv c ls -> l ∈ ls ->
  LRU.cache (LRU.removeNode l c) = LRU.cache c /\
  LRU.capacity (LRU.removeNode l c) = LRU.capacity c /\
  LRU.nextLoc (LRU.removeNode l c) = LRU.nextLoc c /\
  forall x, dataAt (LRU.heap (LRU.removeNode l c)) x = dataAt (LRU.heap c) x.
Proof.
  intros [Hnd Hhd Htl Hnode] Hl.
  destruct (Hnode l Hl) as (n & Hn & Hp & Hq).
  rewrite (removeNode_eq c l n Hn)
    by (rewrite Hp; by apply prevOf_ne).
  simpl. repeat split. intros x. unfold dataAt.
  rewrite lookup_upd_prev, lookup_upd_next.
  destruct (LRU.heap c !! x) as [nx|]; simpl; [|done].
  by repeat case_decide.
Qed.

(** [addToHead] in closed form. *)
Lemma addToHead_eq c l :
  LRU.addToHead l c =
  LRU.mkLRUCache (LRU.capacity c) (LRU.cache c)
    (upd_prev (LRU.head c) (Some l)
       (alter (LRU.set_next (LRU.head c)) l
          (alter (LRU.set_prev None) l (LRU.heap c))))
    (Some l)
    (match LRU.tail c with None => Some l | Some t => Some t end)
    (LRU.hits c) (LRU.misses c) (LRU.nextLoc c).
Proof.
  destruct c as [cap m h hd tl hi mi nl].
  unfold LRU.addToHead, upd_prev. simpl. by destruct hd, tl.
Qed.

Lemma addToHead_LInv c ls l :
  LInv c ls -> l ∉ ls -> is_Some (LRU.heap c !! l) ->
  LInv (LRU.addToHead l c) (l :: ls).
Proof.
  intros [Hnd Hhd Htl Hnode] Hl [n0 Hn0]. rewrite addToHead_eq.
  constructor; simpl.
  - by apply NoDup_cons.
  - done.
  - rewrite Htl. destruct ls as [|a r]; [done|].
    rewrite last_cons_cons. destruct (last (a :: r)) eqn:E; [done|].
    by apply last_None in E.
  - intros x Hx. rewrite lookup_upd_prev, !lookup_alter, Hhd.
    rewrite prevOf_cons by done.
    destruct (decide (l = x)) as [<-|Hlx].
    + assert (head ls <> Some l) as Hh
        by (intros Hh%head_Some_elem_of; done).
      rewrite !(decide_False (P := head ls = Some l)) by done.
      rewrite decide_True by done. rewrite Hn0. simpl.
      eexists. split; [done|]. simpl. split; [|done].
      unfold prevOf. rewrite nextOf_notin; [done|].
      by rewrite elem_of_reverse.
    + apply elem_of_cons in Hx as [->|Hx]; [done|].
      destruct (Hnode x Hx) as (nx & Hnx & Hpx & Hqx).
      rewrite Hnx. simpl. eexists. split; [done|].
      destruct (decide (head ls = Some x)); simpl; auto.
Qed.

Lemma addToHead_frame c l :
  LRU.cache (LRU.addToHead l c) = LRU.cache c /\
  LRU.capacity (LRU.addToHead l c) = LRU.capacity c /\
  LRU.nextLoc (LRU.addToHead l c) = LRU.nextLoc c /\
  forall x, dataAt (LRU.heap (LRU.addToHead l c)) x = dataAt (LRU.heap c) x.
Proof.
  rewrite addToHead_eq. simpl. repeat split. intros x. unfold dataAt.
  rewrite lookup_upd_prev, !lookup_alter.
  repeat case_decide; subst; try done; by destruct (LRU.heap c !! _).
Qed.

(** *** The cache invariant *)

Lemma fst_withoutE l es : (withoutE l es).*1 = without l es.*1.
Proof.
  unfold withoutE, without. induction es as [|[a b] es IH]; [done|].
  rewrite fmap_cons. simpl. destruct (decide (a = l)) as [->|Hne].
  - rewrite !filter_cons_False by (simpl; intros ?; done). done.
  - rewrite !filter_cons_True by done. rewrite fmap_cons. by rewrite IH.
Qed.

Lemma withoutE_notin l es : l ∉ es.*1 -> withoutE l es = es.
Proof.
  unfold withoutE. induction es as [|[a b] es IH]; [done|].
  rewrite fmap_cons. simpl. intros [Ha Hes]%not_elem_of_cons.
  rewrite filter_cons_True by (simpl; congruence). by rewrite IH.
Qed.

Lemma elem_of_withoutE l es e : e ∈ withoutE l es <-> e.1 <> l /\ e ∈ es.
Proof. unfold withoutE. by rewrite list_elem_of_filter. Qed.

Lemma es_fun es l k k' :
  NoDup es.*1 -> (l, k) ∈ es -> (l, k') ∈ es -> k = k'.
Proof.
  induction es as [|[a b] es IH]; [by intros _ ?%elem_of_nil|].
  rewrite fmap_cons. simpl. intros [Ha Hnd]%NoDup_cons.
  intros H1 H2. apply elem_of_cons in H1 as [E1|H1], H2 as [E2|H2].
  - congruence.
  - injection E1 as -> ->. destruct Ha.
    by apply (list_elem_of_fmap_2' fst _ (a, k')).
  - injection E2 as -> ->. destruct Ha.
    by apply (list_elem_of_fmap_2' fst _ (a, k)).
  - eauto.
Qed.

Lemma es_inj es l l' k :
  NoDup es.*2 -> (l, k) ∈ es -> (l', k) ∈ es -> l = l'.
Proof.
  induction es as [|[a b] es IH]; [by intros _ ?%elem_of_nil|].
  rewrite fmap_cons. simpl. intros [Ha Hnd]%NoDup_cons.
  intros H1 H2. apply elem_of_cons in H1 as [E1|H1], H2 as [E2|H2].
  - congruence.
  - injection E1 as -> ->. destruct Ha.
    by apply (list_elem_of_fmap_2' snd _ (l', b)).
  - injection E2 as -> ->. destruct Ha.
    by apply (list_elem_of_fmap_2' snd _ (l, b)).
  - eauto.
Qed.

Lemma snd_withoutE es l k :
  NoDup es.*1 -> NoDup es.*2 -> (l, k) ∈ es ->
  (withoutE l es).*2 = filter (fun k' => k' <> k) es.*2.
Proof.
  intros H1 H2 Hin.
  assert (forall e, e ∈ es -> e.1 <> l <-> e.2 <> k) as Hiff.
  { intros [a b] He. simpl. split; intros Hne ->; apply Hne.
    - by eapply es_inj.
    - by eapply es_fun. }
  clear H1 H2 Hin. unfold withoutE.
  induction es as [|e es IH]; [done|].
  rewrite fmap_cons.
  assert (forall e', e' ∈ es -> e'.1 <> l <-> e'.2 <> k) as Hiff'
    by (intros; apply Hiff; by right).
  destruct (decide (e.1 = l)) as [He|He].
  - rewrite !filter_cons_False; [by apply IH| |by intros ?].
    intros Hk. apply Hiff in Hk; [done|by left].
  - rewrite !filter_cons_True; [|by apply Hiff; [left|]|done].
    rewrite fmap_cons. f_equal. by apply IH.
Qed.

Lemma perm_move es l k :
  NoDup es.*1 -> (l, k) ∈ es -> (l, k) :: withoutE l es ≡ₚ es.
Proof.
  intros Hnd Hin. apply NoDup_Permutation.
  - apply NoDup_cons. split.
    + rewrite elem_of_withoutE. simpl. by intros [? _].
    + apply NoDup_filter. by apply NoDup_fmap_1 in Hnd.
  - by apply NoDup_fmap_1 in Hnd.
  - intros [a b]. rewrite elem_of_cons, elem_of_withoutE. simpl. split.
    + intros [[= -> ->]|[_ ?]]; done.
    + intros He. destruct (decide (a = l)) as [->|]; [|by right].
      left. f_equal. by eapply es_fun.
Qed.

Lemma Inv_elem_heap c es l k :
  Inv c es -> (l, k) ∈ es -> is_Some (LRU.heap c !! l).
Proof.
  intros HI Hin. pose proof (inv_data _ _ HI _ _ Hin) as Hd.
  unfold dataAt in Hd. by destruct (LRU.heap c !! l).
Qed.

Lemma Inv_size c es : Inv c es -> base.size (LRU.cache c) = length es.
Proof.
  intros HI. rewrite <- (length_fmap snd es).
  rewrite <- (size_list_to_set (C := gset K)) by apply (inv_keys _ _ HI).
  rewrite <- size_dom. f_equal. apply set_eq. intros k.
  rewrite elem_of_dom, elem_of_list_to_set, list_elem_of_fmap. split.
  - intros [l Hl]. exists (l, k). split; [done|]. by apply (inv_cache _ _ HI).
  - intros ([l k'] & -> & Hin). exists l. by apply (inv_cache _ _ HI).
Qed.

Lemma Inv_length_heap c es :
  Inv c es -> (length es <= base.size (LRU.heap c))%nat.
Proof.
  intros HI. rewrite <- (length_fmap fst es).
  rewrite <- (size_list_to_set (C := gset loc))
    by apply (linv_nodup _ _ (inv_list _ _ HI)).
  rewrite <- size_dom. apply subseteq_size. intros l.
  rewrite elem_of_dom, elem_of_list_to_set, list_elem_of_fmap.
  intros ([l' k] & -> & Hin). by eapply Inv_elem_heap.
Qed.

(** The traversal from [head] meets exactly the nodes of [es], in order,
    and ends at [null] before the fuel runs out. *)
Lemma walk_suffix c es (HI : Inv c es) suf : forall pre fuel,
  es = pre ++ suf -> (length suf < fuel)%nat ->
  exists ns, LRU.walk fuel (LRU.heap c) (head suf.*1) = Some ns /\
             map LRU.key ns = suf.*2.
Proof.
  induction suf as [|[l k] suf IH]; intros pre fuel Hes Hfuel.
  - exists []. by destruct fuel.
  - destruct fuel as [|fuel]; [simpl in Hfuel; lia|].
    assert ((l, k) ∈ es) as Hin.
    { rewrite Hes, elem_of_app. right. by left. }
    destruct (linv_node _ _ (inv_list _ _ HI) l) as (n & Hn & _ & Hq).
    { by apply (list_elem_of_fmap_2' fst _ (l, k)). }
    pose proof (inv_data _ _ HI _ _ Hin) as Hk.
    unfold dataAt in Hk. rewrite Hn in Hk. simpl in Hk.
    assert (LRU.next n = head suf.*1) as Hnext.
    { rewrite Hq, Hes, fmap_app, fmap_cons. simpl.
      apply nextOf_app_r.
      pose proof (linv_nodup _ _ (inv_list _ _ HI)) as Hnd.
      rewrite Hes, fmap_app, fmap_cons in Hnd.
      apply NoDup_app in Hnd as (_ & Hd & _).
      intros Hl. apply (Hd _ Hl). by left. }
    destruct (IH (pre ++ [(l, k)]) fuel) as (ns & Hns & Hks).
    { by rewrite <- app_assoc. }
    { simpl in Hfuel. lia. }
    exists (n :: ns). simpl. rewrite Hn, Hnext, Hns. simpl.
    split; [done|]. f_equal; [congruence|done].
Qed.

Lemma Inv_nodes c es :
  Inv c es ->
  exists ns, LRU.nodes c = Some ns /\ map LRU.key ns = es.*2.
Proof.
  intros HI. unfold LRU.nodes.
  rewrite (linv_head _ _ (inv_list _ _ HI)).
  apply (walk_suffix c es HI es []); [done|].
  pose proof (Inv_length_heap c es HI). lia.
Qed.

Lemma Inv_keys c es : Inv c es -> LRU.keys c = Some es.*2.
Proof.
  intros HI. destruct (Inv_nodes c es HI) as (ns & Hns & Hk).
  unfold LRU.keys. rewrite Hns. simpl. by rewrite Hk.
Qed.

Lemma Inv_listLength c es : Inv c es -> LRU.listLength c = Some (length es).
Proof.
  intros HI. destruct (Inv_nodes c es HI) as (ns & Hns & Hk).
  unfold LRU.listLength. rewrite Hns. simpl. f_equal.
  by rewrite <- (length_map LRU.key), Hk, length_fmap.
Qed.

(** *** Every operation preserves the invariant *)

Lemma LInv_ext c c' ls :
  LInv c ls ->
  LRU.heap c' = LRU.heap c -> LRU.head c' = LRU.head c ->
  LRU.tail c' = LRU.tail c -> LInv c' ls.
Proof.
  intros [? ? ? ?] Hh Hhd Htl. constructor; rewrite ?Hh, ?Hhd, ?Htl; done.
Qed.

Lemma Inv_ext c c' es :
  Inv c es ->
  LRU.heap c' = LRU.heap c -> LRU.head c' = LRU.head c ->
  LRU.tail c' = LRU.tail c -> LRU.cache c' = LRU.cache c ->
  LRU.nextLoc c' = LRU.nextLoc c -> Inv c' es.
Proof.
  intros [? ? ? ? ?] Hh Hhd Htl Hc Hn.
  constructor; rewrite ?Hh, ?Hc, ?Hn; try done. by eapply LInv_ext.
Qed.

Lemma is_Some_dataAt h l : is_Some (dataAt h l) <-> is_Some (h !! l).
Proof. unfold dataAt. by rewrite fmap_is_Some. Qed.

(** A state with the same payloads and backing map, whose list is a
    rearrangement of [es]. *)
Lemma Inv_transfer c c' es es' :
  Inv c es -> LInv c' es'.*1 -> es' ≡ₚ es ->
  LRU.cache c' = LRU.cache c -> LRU.nextLoc c' = LRU.nextLoc c ->
  (forall x, dataAt (LRU.heap c') x = dataAt (LRU.heap c) x) ->
  Inv c' es'.
Proof.
  intros [HL Hk Hd Hc Hf] HL' Hp Hcache Hnext Hdata. constructor.
  - done.
  - by rewrite Hp.
  - intros l k Hin. rewrite Hdata. apply Hd. by rewrite <- Hp.
  - intros k l. rewrite Hcache, Hc. by rewrite Hp.
  - intros l Hl. rewrite Hnext. apply Hf.
    by rewrite <- is_Some_dataAt, <- Hdata, is_Some_dataAt.
Qed.

Lemma Inv_new cap c : LRU.new cap = inr c -> Inv c [] /\ LRU.capacity c = cap.
Proof.
  unfold LRU.new. destruct (cap <=? 0); [done|]. intros [= <-].
  split; [|done]. constructor; simpl.
  - constructor; simpl; [constructor|done|done|by intros ? ?%elem_of_nil].
  - constructor.
  - by intros ? ? ?%elem_of_nil.
  - intros k l. rewrite lookup_empty. split; [done|by intros ?%elem_of_nil].
  - intros l. rewrite lookup_empty. by intros [? ?].
Qed.

Lemma Inv_set_value c es l v :
  Inv c es ->
  Inv (LRU.with_heap (alter (LRU.set_value v) l (LRU.heap c)) c) es.
Proof.
  intros [[Hnd Hhd Htl Hnode] Hk Hd Hc Hf]. constructor; simpl; try done.
  - constructor; simpl; try done. intros x Hx.
    destruct (Hnode x Hx) as (n & Hn & Hp & Hq).
    rewrite lookup_alter. case_decide; subst; rewrite Hn; simpl; eauto.
  - intros x k Hin. specialize (Hd x k Hin). unfold dataAt in *.
    rewrite lookup_alter. case_decide; subst; [|done].
    by destruct (LRU.heap c !! x).
  - intros x. rewrite lookup_alter. case_decide; subst; [|by auto].
    rewrite fmap_is_Some. auto.
Qed.

Lemma moveToHead_Inv c es l k :
  Inv c es -> (l, k) ∈ es ->
  Inv (LRU.moveToHead l c) ((l, k) :: withoutE l es).
Proof.
  intros HI Hin. pose proof (inv_list _ _ HI) as HL.
  pose proof (linv_nodup _ _ HL) as Hnd.
  assert (l ∈ es.*1) as Hl by (by apply (list_elem_of_fmap_2' fst _ (l, k))).
  unfold LRU.moveToHead. case_decide as Hhd.
  - rewrite (linv_head _ _ HL) in Hhd.
    destruct es as [|[a b] es]; [done|]. injection Hhd as <-.
    rewrite fmap_cons in Hnd. apply NoDup_cons in Hnd as [Ha _].
    assert (b = k) as ->. { eapply es_fun; [apply (linv_nodup _ _ HL)|by left|done]. }
    unfold withoutE. rewrite filter_cons_False by (simpl; by intros ?).
    fold (withoutE l es). by rewrite withoutE_notin.
  - destruct (removeNode_frame c _ l HL Hl) as (Hc1 & _ & Hn1 & Hd1).
    destruct (addToHead_frame (LRU.removeNode l c) l) as (Hc2 & _ & Hn2 & Hd2).
    eapply Inv_transfer; [exact HI| |by apply perm_move|congruence|congruence|].
    + rewrite fmap_cons, fst_withoutE. simpl. apply addToHead_LInv.
      * by apply removeNode_LInv.
      * rewrite elem_of_without. by intros [? _].
      * rewrite <- is_Some_dataAt, Hd1, is_Some_dataAt. by eapply Inv_elem_heap.
    + intros x. by rewrite Hd2, Hd1.
Qed.

Lemma remove_Inv c es l k :
  Inv c es -> (l, k) ∈ es ->
  Inv (LRU.with_cache (delete k (LRU.cache (LRU.removeNode l c)))
         (LRU.removeNode l c))
      (withoutE l es).
Proof.
  intros HI Hin. pose proof (inv_list _ _ HI) as HL.
  pose proof (linv_nodup _ _ HL) as Hnd.
  assert (l ∈ es.*1) as Hl by (by apply (list_elem_of_fmap_2' fst _ (l, k))).
  destruct (removeNode_frame c _ l HL Hl) as (Hc1 & _ & Hn1 & Hd1).
  constructor; simpl.
  - rewrite fst_withoutE. eapply LInv_ext; [by apply removeNode_LInv|done..].
  - rewrite (snd_withoutE es l k Hnd (inv_keys _ _ HI) Hin).
    apply NoDup_filter, (inv_keys _ _ HI).
  - intros x kx [_ Hx]%elem_of_withoutE. rewrite Hd1.
    by apply (inv_data _ _ HI).
  - intros kx x. rewrite Hc1, elem_of_withoutE. simpl.
    destruct (decide (k = kx)) as [<-|Hne].
    + rewrite lookup_delete_eq. split; [done|]. intros [Hxl Hx].
      destruct Hxl. eapply es_inj; [apply (inv_keys _ _ HI)|done..].
    + rewrite lookup_delete_ne by done. rewrite (inv_cache _ _ HI).
      split; [|by intros [_ ?]]. intros Hx. split; [|done].
      intros ->. apply Hne. by eapply es_fun.
  - intros x Hx. rewrite Hn1. apply (inv_fresh _ _ HI).
    by rewrite <- is_Some_dataAt, <- Hd1, is_Some_dataAt.
Qed.

Lemma removeTail_Inv c es :
  Inv c es -> Inv (LRU.removeTail c) (removelast es).
Proof.
  intros HI. pose proof (inv_list _ _ HI) as HL.
  unfold LRU.removeTail. rewrite (linv_tail _ _ HL).
  destruct (last es) as [[t kt]|] eqn:El.
  - apply last_Some in El as [es0 ->].
    rewrite fmap_app, fmap_cons, fmap_nil, last_snoc. simpl.
    assert ((t, kt) ∈ es0 ++ [(t, kt)]) as Hin.
    { rewrite elem_of_app. right. by left. }
    assert (t ∈ (es0 ++ [(t, kt)]).*1) as Ht
      by (by apply (list_elem_of_fmap_2' fst _ (t, kt))).
    destruct (removeNode_frame c _ t HL Ht) as (_ & _ & _ & Hd1).
    pose proof (inv_data _ _ HI _ _ Hin) as Hk. rewrite <- Hd1 in Hk.
    unfold dataAt in Hk.
    destruct (LRU.heap (LRU.removeNode t c) !! t) as [n|]; [|done].
    simpl in Hk. injection Hk as Hk. rewrite Hk.
    rewrite removelast_last.
    replace es0 with (withoutE t (es0 ++ [(t, kt)])); [by apply remove_Inv|].
    unfold withoutE. rewrite filter_app.
    rewrite filter_cons_False, filter_nil, app_nil_r by (simpl; by intros ?).
    pose proof (linv_nodup _ _ HL) as Hnd.
    rewrite fmap_app in Hnd. apply NoDup_app in Hnd as (_ & Hd & _).
    apply withoutE_notin. intros Ht0. apply (Hd _ Ht0). simpl. by left.
  - apply last_None in El as ->. by simpl.
Qed.

Lemma get_Inv c es k :
  Inv c es ->
  Inv (fst (LRU.get k c))
      (match LRU.cache c !! k with
       | Some l => (l, k) :: withoutE l es
       | None => es
       end).
Proof.
  intros HI. unfold LRU.get.
  destruct (LRU.cache c !! k) as [l|] eqn:E; simpl.
  - apply moveToHead_Inv; [by eapply Inv_ext|]. by apply (inv_cache _ _ HI).
  - by eapply Inv_ext.
Qed.

Lemma put_Inv c es k v :
  Inv c es ->
  Inv (LRU.put k v c)
      (match LRU.cache c !! k with
       | Some l => (l, k) :: withoutE l es
       | None =>
           let es1 := (LRU.nextLoc c, k) :: es in
           if Z.of_nat (length es1) >? LRU.capacity c
           then removelast es1 else es1
       end).
Proof.
  intros HI. unfold LRU.put.
  destruct (LRU.cache c !! k) as [l|] eqn:E.
  - apply moveToHead_Inv; [by apply Inv_set_value|].
    by apply (inv_cache _ _ HI).
  - set (l := LRU.nextLoc c).
    set (c1 := LRU.mkLRUCache _ _ _ _ _ _ _ _).
    assert (LRU.heap c !! l = None) as Hfresh.
    { destruct (LRU.heap c !! l) eqn:El; [|done].
      pose proof (inv_fresh _ _ HI l (mk_is_Some _ _ El)). unfold l in *. lia. }
    assert (l ∉ es.*1) as Hl.
    { intros ([l' k'] & -> & Hin)%list_elem_of_fmap.
      destruct (Inv_elem_heap _ _ _ _ HI Hin) as [? ?]. simpl in *. congruence. }
    assert (k ∉ es.*2) as Hk.
    { intros ([l' k'] & -> & Hin)%list_elem_of_fmap.
      apply (inv_cache _ _ HI) in Hin. simpl in *. congruence. }
    pose proof (inv_list _ _ HI) as [Hnd Hhd Htl Hnode].
    assert (LInv c1 es.*1) as HL1.
    { constructor; simpl; try done. intros x Hx.
      rewrite lookup_insert_ne by (intros ->; done). auto. }
    destruct (addToHead_frame c1 l) as (Hc2 & Hcap2 & Hn2 & Hd2).
    assert (Inv (LRU.addToHead l c1) ((l, k) :: es)) as HI2.
    { constructor.
      - rewrite fmap_cons. apply addToHead_LInv; [done|done|].
        simpl. by rewrite lookup_insert_eq.
      - rewrite fmap_cons. apply NoDup_cons. split; [done|apply (inv_keys _ _ HI)].
      - intros x kx. rewrite Hd2. unfold dataAt. simpl.
        intros [[= -> ->]|Hin]%elem_of_cons.
        + by rewrite lookup_insert_eq.
        + rewrite lookup_insert_ne.
          * by apply (inv_data _ _ HI).
          * intros <-. apply Hl. by apply (list_elem_of_fmap_2' fst _ (l, kx)).
      - intros kx x. rewrite Hc2. simpl. rewrite elem_of_cons.
        destruct (decide (k = kx)) as [<-|Hne].
        + rewrite lookup_insert_eq. split.
          * intros [= <-]. by left.
          * intros [[= ->]|Hin]; [done|].
            destruct Hk. by apply (list_elem_of_fmap_2' snd _ (x, k)).
        + rewrite lookup_insert_ne by done. rewrite (inv_cache _ _ HI).
          split; [by right|]. intros [[= ? ?]|?]; [congruence|done].
      - intros x. rewrite Hn2. simpl. destruct (addToHead_frame c1 l) as (_ & _ & _ & Hd).
        rewrite <- is_Some_dataAt, Hd, is_Some_dataAt. simpl.
        rewrite lookup_insert. case_decide; subst.
        + intros _. unfold l. lia.
        + intros Hx. pose proof (inv_fresh _ _ HI x Hx). lia. }
    rewrite (Inv_size _ _ HI2), Hcap2. cbv zeta.
    change (LRU.capacity c1) with (LRU.capacity c). fold l.
    destruct (_ >? _); [by apply removeTail_Inv|done].
Qed.

Lemma delete_Inv c es k :
  Inv c es ->
  Inv (fst (LRU.delete k c))
      (match LRU.cache c !! k with
       | Some l => withoutE l es
       | None => es
       end).
Proof.
  intros HI. unfold LRU.delete.
  destruct (LRU.cache c !! k) as [l|] eqn:E; simpl; [|done].
  apply remove_Inv; [done|]. by apply (inv_cache _ _ HI).
Qed.

Lemma clear_Inv c es : Inv c es -> Inv (LRU.clear c) [].
Proof.
  intros HI. constructor; simpl.
  - constructor; simpl; [constructor|done|done|by intros ? ?%elem_of_nil].
  - constructor.
  - by intros ? ? ?%elem_of_nil.
  - intros k l. rewrite lookup_empty. split; [done|by intros ?%elem_of_nil].
  - apply (inv_fresh _ _ HI).
Qed.

(** *** The cache as a recency-ordered list of keys *)

Lemma Repr_keys c ks : Repr c ks -> LRU.keys c = Some ks.
Proof. intros (es & HI & <-). by apply Inv_keys. Qed.

Lemma Repr_size c ks : Repr c ks -> base.size (LRU.cache c) = length ks.
Proof. intros (es & HI & <-). by rewrite (Inv_size _ _ HI), length_fmap. Qed.

Lemma Repr_listLength c ks : Repr c ks -> LRU.listLength c = Some (length ks).
Proof.
  intros (es & HI & <-). by rewrite (Inv_listLength _ _ HI), length_fmap.
Qed.

Lemma Repr_NoDup c ks : Repr c ks -> NoDup ks.
Proof. intros (es & HI & <-). apply (inv_keys _ _ HI). Qed.

Lemma Inv_lookup_None c es k : Inv c es -> LRU.cache c !! k = None <-> k ∉ es.*2.
Proof.
  intros HI. rewrite list_elem_of_fmap. split.
  - intros Hn ([l k'] & -> & Hin). apply (inv_cache _ _ HI) in Hin.
    simpl in *. congruence.
  - intros Hn. destruct (LRU.cache c !! k) as [l|] eqn:E; [|done].
    destruct Hn. exists (l, k). split; [done|]. by apply (inv_cache _ _ HI).
Qed.

Lemma snd_removelast es : (removelast es).*2 = removelast es.*2.
Proof.
  induction es as [|e [|e' es] IH]; [done..|].
  change (removelast (e :: e' :: es)) with (e :: removelast (e' :: es)).
  rewrite !fmap_cons, IH. done.
Qed.

Lemma Repr_new cap c : LRU.new cap = inr c -> Repr c [].
Proof. intros Hn. exists []. split; [by apply (Inv_new cap)|done]. Qed.

Lemma Repr_get c ks k : Repr c ks -> Repr (fst (LRU.get k c)) (getK k ks).
Proof.
  intros (es & HI & <-). pose proof (get_Inv c es k HI) as HI'.
  eexists. split; [exact HI'|]. unfold getK.
  destruct (LRU.cache c !! k) as [l|] eqn:E.
  - pose proof (proj1 (inv_cache _ _ HI k l) E) as Hin.
    rewrite decide_True by (by apply (list_elem_of_fmap_2' snd _ (l, k))).
    rewrite fmap_cons. unfold touchK. f_equal.
    apply snd_withoutE; [apply (linv_nodup _ _ (inv_list _ _ HI))| |done].
    apply (inv_keys _ _ HI).
  - by rewrite decide_False by (by apply (Inv_lookup_None c es k HI)).
Qed.

Lemma Repr_put c ks k v :
  Repr c ks -> Repr (LRU.put k v c) (putK (LRU.capacity c) k ks).
Proof.
  intros (es & HI & <-). pose proof (put_Inv c es k v HI) as HI'.
  eexists. split; [exact HI'|]. unfold putK.
  destruct (LRU.cache c !! k) as [l|] eqn:E.
  - pose proof (proj1 (inv_cache _ _ HI k l) E) as Hin.
    rewrite decide_True by (by apply (list_elem_of_fmap_2' snd _ (l, k))).
    rewrite fmap_cons. unfold touchK. f_equal.
    apply snd_withoutE; [apply (linv_nodup _ _ (inv_list _ _ HI))| |done].
    apply (inv_keys _ _ HI).
  - rewrite decide_False by (by apply (Inv_lookup_None c es k HI)).
    cbv zeta. rewrite length_fmap.
    change (length ((LRU.nextLoc c, k) :: es)) with (S (length es)).
    destruct (_ >? _); [|done].
    by rewrite snd_removelast.
Qed.

Lemma Repr_delete c ks k :
  Repr c ks -> Repr (fst (LRU.delete k c)) (deleteK k ks).
Proof.
  intros (es & HI & <-). pose proof (delete_Inv c es k HI) as HI'.
  eexists. split; [exact HI'|]. unfold deleteK.
  destruct (LRU.cache c !! k) as [l|] eqn:E.
  - pose proof (proj1 (inv_cache _ _ HI k l) E) as Hin.
    apply snd_withoutE; [apply (linv_nodup _ _ (inv_list _ _ HI))| |done].
    apply (inv_keys _ _ HI).
  - apply (Inv_lookup_None c es k HI) in E. symmetry.
    clear -E. induction (es.*2) as [|a r IH]; [done|].
    apply not_elem_of_cons in E as [? ?].
    rewrite filter_cons_True by done. f_equal. auto.
Qed.

Lemma Repr_clear c ks : Repr c ks -> Repr (LRU.clear c) [].
Proof. intros (es & HI & <-). exists []. split; [by eapply clear_Inv|done]. Qed.

Lemma Repr_step c ks o : Repr c ks -> exists ks', Repr (LRU.step c o) ks'.
Proof.
  intros HR. destruct o as [k|k v|k|k|]; simpl; eexists.
  - by apply Repr_get.
  - by apply Repr_put.
  - done.
  - by apply Repr_delete.
  - by eapply Repr_clear.
Qed.

Lemma Repr_run ops : forall c ks,
  Repr c ks -> exists ks', Repr (LRU.run ops c) ks'.
Proof.
  induction ops as [|o ops IH]; intros c ks HR; simpl; [by eexists|].
  destruct (Repr_step c ks o HR) as [ks' HR']. by eapply IH.
Qed.

(** The capacity never changes. *)
Lemma capacity_removeNode l c :
  LRU.capacity (LRU.removeNode l c) = LRU.capacity c.
Proof.
  unfold LRU.removeNode.
  repeat match goal with
         | |- context [match ?x with _ => _ end] => destruct x; simpl
         end; done.
Qed.

Lemma capacity_addToHead l c :
  LRU.capacity (LRU.addToHead l c) = LRU.capacity c.
Proof. by rewrite addToHead_eq. Qed.

Lemma capacity_moveToHead l c :
  LRU.capacity (LRU.moveToHead l c) = LRU.capacity c.
Proof.
  unfold LRU.moveToHead. case_decide; [done|].
  by rewrite capacity_addToHead, capacity_removeNode.
Qed.

Lemma capacity_removeTail c :
  LRU.capacity (LRU.removeTail c) = LRU.capacity c.
Proof.
  unfold LRU.removeTail. destruct (LRU.tail c); [|done].
  destruct (_ !! _); simpl; by rewrite capacity_removeNode.
Qed.

Lemma capacity_get k c : LRU.capacity (fst (LRU.get k c)) = LRU.capacity c.
Proof.
  unfold LRU.get. destruct (_ !! _); simpl; [|done].
  by rewrite capacity_moveToHead.
Qed.

Lemma capacity_put k v c : LRU.capacity (LRU.put k v c) = LRU.capacity c.
Proof.
  unfold LRU.put. destruct (_ !! _); simpl.
  - by rewrite capacity_moveToHead.
  - destruct (_ >? _); rewrite ?capacity_removeTail; by rewrite capacity_addToHead.
Qed.

(** *** Filling a cache with distinct keys, then one key more *)

Lemma putAll_fresh kvs : forall c ks,
  Repr c ks -> NoDup kvs.*1 -> (forall k, k ∈ kvs.*1 -> k ∉ ks) ->
  Z.of_nat (length ks + length kvs) <= LRU.capacity c ->
  Repr (LRU.putAll kvs c) (reverse kvs.*1 ++ ks) /\
  LRU.capacity (LRU.putAll kvs c) = LRU.capacity c.
Proof.
  induction kvs as [|[k v] kvs IH]; intros c ks HR Hnd Hfresh Hlen.
  - by simpl.
  - rewrite fmap_cons in Hnd, Hfresh. simpl in Hnd, Hfresh.
    apply NoDup_cons in Hnd as [Hk Hnd]. simpl in Hlen.
    destruct (IH (LRU.put k v c) (k :: ks)) as [HR' Hcap].
    + pose proof (Repr_put c ks k v HR) as HR'. unfold putK in HR'.
      rewrite decide_False in HR' by (apply Hfresh; by left).
      destruct (_ >? _) eqn:E; [|done]. apply Z.gtb_gt in E. lia.
    + done.
    + intros k' Hk' [->|Hin]%elem_of_cons; [done|].
      by apply (Hfresh k'); [right|].
    + rewrite capacity_put. simpl. lia.
    + change (LRU.putAll ((k, v) :: kvs) c)
        with (LRU.putAll kvs (LRU.put k v c)).
      rewrite fmap_cons, reverse_cons, <- app_assoc. simpl.
      split; [done|]. by rewrite Hcap, capacity_put.
Qed.

Lemma length_filter_ne k ks :
  NoDup ks -> k ∈ ks -> S (length (filter (fun k' => k' <> k) ks)) = length ks.
Proof.
  induction ks as [|a r IH]; [by intros _ ?%elem_of_nil|].
  intros [Ha Hr]%NoDup_cons Hin. destruct (decide (a = k)) as [->|Hne].
  - rewrite filter_cons_False by (by intros ?). simpl. f_equal.
    clear -Ha. induction r as [|b r IH]; [done|].
    apply not_elem_of_cons in Ha as [? ?].
    rewrite filter_cons_True by done. simpl. f_equal. auto.
  - apply elem_of_cons in Hin as [->|Hin]; [done|].
    rewrite filter_cons_True by done. simpl. f_equal. auto.
Qed.

Lemma removelast_cons_reverse k ks :
  ks <> [] -> removelast (k :: reverse ks) = k :: reverse (tail ks).
Proof.
  destruct ks as [|a r]; [done|]. intros _.
  rewrite reverse_cons. cbn [tail].
  change (k :: reverse r ++ [a]) with ((k :: reverse r) ++ [a]).
  apply removelast_last.
Qed.

Lemma filter_ne_notin k ks : k ∉ ks -> filter (fun k' => k' <> k) ks = ks.
Proof.
  induction ks as [|a r IH]; [done|]. intros [? ?]%not_elem_of_cons.
  rewrite filter_cons_True by done. f_equal. auto.
Qed.

(** Moving [k] to the end of an oldest-first order changes its head
    exactly when [k] was the head and was not alone. *)
Lemma head_move_to_end k ks :
  NoDup ks -> k ∈ ks ->
  head (filter (fun k' => k' <> k) ks ++ [k]) <> head ks <->
  head ks = Some k /\ (2 <= length ks)%nat.
Proof.
  intros Hnd Hk. destruct ks as [|a r]; [by apply elem_of_nil in Hk|].
  apply NoDup_cons in Hnd as [Ha Hr].
  destruct (decide (a = k)) as [->|Hne].
  - rewrite filter_cons_False by (by intros ?).
    rewrite filter_ne_notin by done.
    destruct r as [|b r]; simpl.
    + split; [done|]. intros [_ ?]. lia.
    + split; [intros _; split; [done|lia]|]. intros _ [= ->].
      apply Ha. by left.
  - rewrite filter_cons_True by done. simpl.
    split; [done|]. intros [[= ?] _]. done.
Qed.

End Inv.

End LRUFacts.

(** ** The bounded cache as a recency-ordered association list *)

Module LRUFacts2.
Import LRUInv LRUFacts LRUModel.

Section Values.
Context {K V : Type} `{Countable K}.
Implicit Types (c : LRU.LRUCache K V) (h : gmap loc (LRU.LRUNode K V)).
Implicit Types (n : LRU.LRUNode K V) (ls : list loc) (l x : loc).
Implicit Types (es : list (loc * K)) (k : K) (v : V) (m : list (K * V)).

(** *** Pointer updates leave the payloads alone *)

Lemma dataAt_set_next q p h x :
  dataAt (alter (LRU.set_next q) p h) x = dataAt h x.
Proof.
  unfold dataAt. rewrite lookup_alter. case_decide; subst; [|done].
  by destruct (h !! x).
Qed.

Lemma dataAt_set_prev q p h x :
  dataAt (alter (LRU.set_prev q) p h) x = dataAt h x.
Proof.
  unfold dataAt. rewrite lookup_alter. case_decide; subst; [|done].
  by destruct (h !! x).
Qed.

Lemma removeNode_data l c x :
  dataAt (LRU.heap (LRU.removeNode l c)) x = dataAt (LRU.heap c) x.
Proof.
  unfold LRU.removeNode.
  repeat match goal with
         | |- context [match ?t with _ => _ end] => destruct t; simpl
         end;
    rewrite ?dataAt_set_prev, ?dataAt_set_next; done.
Qed.

Lemma addToHead_data l c x :
  dataAt (LRU.heap (LRU.addToHead l c)) x = dataAt (LRU.heap c) x.
Proof. by destruct (addToHead_frame c l) as (_ & _ & _ & ?). Qed.

Lemma moveToHead_data l c x :
  dataAt (LRU.heap (LRU.moveToHead l c)) x = dataAt (LRU.heap c) x.
Proof.
  unfold LRU.moveToHead. case_decide; [done|].
  by rewrite addToHead_data, removeNode_data.
Qed.

Lemma removeTail_data c x :
  dataAt (LRU.heap (LRU.removeTail c)) x = dataAt (LRU.heap c) x.
Proof.
  unfold LRU.removeTail. destruct (LRU.tail c); [|done].
  destruct (_ !! _); simpl; by rewrite removeNode_data.
Qed.

Lemma get_data k c x :
  dataAt (LRU.heap (fst (LRU.get k c))) x = dataAt (LRU.heap c) x.
Proof.
  unfold LRU.get. destruct (_ !! _); simpl; [|done].
  by rewrite moveToHead_data.
Qed.

Lemma delete_data k c x :
  dataAt (LRU.heap (fst (LRU.delete k c))) x = dataAt (LRU.heap c) x.
Proof.
  unfold LRU.delete. destruct (_ !! _); simpl; [|done].
  by rewrite removeNode_data.
Qed.

Lemma put_data k v c x :
  dataAt (LRU.heap (LRU.put k v c)) x =
  match LRU.cache c !! k with
  | Some l =>
      if decide (x = l)
      then (fun kv => (kv.1, v)) <$> dataAt (LRU.heap c) l
      else dataAt (LRU.heap c) x
  | None =>
      if decide (x = LRU.nextLoc c) then Some (k, v)
      else dataAt (LRU.heap c) x
  end.
Proof.
  unfold LRU.put. destruct (LRU.cache c !! k) as [l|].
  - rewrite moveToHead_data. simpl. unfold dataAt.
    rewrite lookup_alter. case_decide; subst.
    + rewrite decide_True by done. by destruct (LRU.heap c !! _).
    + by rewrite decide_False by done.
  - cbv zeta.
    match goal with
    | |- context [if ?b then _ else _] => destruct b
    end; rewrite ?removeTail_data, addToHead_data; simpl; unfold dataAt;
      rewrite lookup_insert; case_decide; subst;
      by rewrite ?decide_True, ?decide_False by done.
Qed.

(** *** Association lists *)

Lemma assoc_Some k v m : NoDup m.*1 -> (k, v) ∈ m -> assoc k m = Some v.
Proof.
  induction m as [|[a b] m IH]; [by intros _ ?%elem_of_nil|].
  rewrite fmap_cons. simpl. intros [Ha Hnd]%NoDup_cons.
  intros [[= -> ->]|Hin]%elem_of_cons.
  - by rewrite decide_True.
  - rewrite decide_False; [auto|]. intros ->. apply Ha.
    by apply (list_elem_of_fmap_2' fst _ (k, v)).
Qed.

Lemma assoc_None k m : k ∉ m.*1 -> assoc k m = None.
Proof.
  induction m as [|[a b] m IH]; [done|].
  rewrite fmap_cons. simpl. intros [? ?]%not_elem_of_cons.
  rewrite decide_False by done. auto.
Qed.

Lemma assoc_elem k v m : assoc k m = Some v -> (k, v) ∈ m.
Proof.
  induction m as [|[a b] m IH]; [done|]. simpl.
  case_decide; subst; [intros [= ->]; by left|]. intros. right. auto.
Qed.

Lemma fst_dropK k m : (dropK k m).*1 = filter (fun k' => k' <> k) m.*1.
Proof.
  unfold dropK. induction m as [|[a b] m IH]; [done|].
  rewrite fmap_cons. simpl. destruct (decide (a = k)) as [->|Hne].
  - by rewrite !filter_cons_False by (simpl; intros ?; done).
  - rewrite !filter_cons_True by done. rewrite fmap_cons. by rewrite IH.
Qed.

Lemma elem_of_dropK k m e : e ∈ dropK k m <-> e.1 <> k /\ e ∈ m.
Proof. unfold dropK. by rewrite list_elem_of_filter. Qed.

Lemma same_keys_eq (m1 m2 : list (K * V)) :
  m1.*1 = m2.*1 -> NoDup m2.*1 -> (forall e, e ∈ m1 -> e ∈ m2) -> m1 = m2.
Proof.
  revert m2. induction m1 as [|a m1 IH]; intros [|b m2]; try done.
  rewrite !fmap_cons. intros [= Hab Hk]. intros [Hb Hnd]%NoDup_cons Hsub.
  assert (a = b) as ->.
  { pose proof (Hsub a ltac:(by left)) as [->|Hin]%elem_of_cons; [done|].
    destruct Hb. rewrite <- Hab. by apply (list_elem_of_fmap_2' fst _ a). }
  f_equal. apply IH; [done|done|]. intros e He.
  pose proof (Hsub e ltac:(by right)) as [->|Hin]%elem_of_cons; [|done].
  destruct Hb. rewrite <- Hk. by apply (list_elem_of_fmap_2' fst _ b).
Qed.

Lemma fst_removelast m : (removelast m).*1 = removelast m.*1.
Proof.
  induction m as [|e [|e' m] IH]; [done..|].
  change (removelast (e :: e' :: m)) with (e :: removelast (e' :: m)).
  rewrite !fmap_cons, IH. done.
Qed.

Lemma elem_of_removelast {A} (a : A) (l : list A) :
  a ∈ removelast l -> a ∈ l.
Proof.
  induction l as [|e [|e' l] IH]; [done| |].
  - by intros ?%elem_of_nil.
  - change (removelast (e :: e' :: l)) with (e :: removelast (e' :: l)).
    intros [->|Hin]%elem_of_cons; [by left|]. right. auto.
Qed.

(** *** The traversal yields the entries *)

Lemma walk_nodes c es (HI : Inv c es) suf : forall pre fuel,
  es = pre ++ suf -> (length suf < fuel)%nat ->
  exists ns, LRU.walk fuel (LRU.heap c) (head suf.*1) = Some ns /\
             Forall2 (fun n e => LRU.heap c !! e.1 = Some n) ns suf.
Proof.
  induction suf as [|[l k] suf IH]; intros pre fuel Hes Hfuel.
  - exists []. split; [by destruct fuel|constructor].
  - destruct fuel as [|fuel]; [simpl in Hfuel; lia|].
    assert ((l, k) ∈ es) as Hin.
    { rewrite Hes, elem_of_app. right. by left. }
    destruct (linv_node _ _ (inv_list _ _ HI) l) as (n & Hn & _ & Hq).
    { by apply (list_elem_of_fmap_2' fst _ (l, k)). }
    assert (LRU.next n = head suf.*1) as Hnext.
    { rewrite Hq, Hes, fmap_app, fmap_cons. simpl.
      apply nextOf_app_r.
      pose proof (linv_nodup _ _ (inv_list _ _ HI)) as Hnd.
      rewrite Hes, fmap_app, fmap_cons in Hnd.
      apply NoDup_app in Hnd as (_ & Hd & _).
      intros Hl. apply (Hd _ Hl). by left. }
    destruct (IH (pre ++ [(l, k)]) fuel) as (ns & Hns & Hks).
    { by rewrite <- app_assoc. }
    { simpl in Hfuel. lia. }
    exists (n :: ns). simpl. rewrite Hn, Hnext, Hns. simpl.
    split; [done|]. by constructor.
Qed.

Lemma Inv_nodes_at c es :
  Inv c es ->
  exists ns, LRU.nodes c = Some ns /\
             Forall2 (fun n e => LRU.heap c !! e.1 = Some n) ns es.
Proof.
  intros HI. unfold LRU.nodes.
  rewrite (linv_head _ _ (inv_list _ _ HI)).
  apply (walk_nodes c es HI es []); [done|].
  pose proof (Inv_length_heap c es HI). lia.
Qed.

Lemma ReprKV_NoDup c m : ReprKV c m -> NoDup m.*1.
Proof. intros (es & HI & -> & _). apply (inv_keys _ _ HI). Qed.

Lemma ReprKV_Repr c m : ReprKV c m -> Repr c m.*1.
Proof. intros (es & HI & Hk & _). by exists es. Qed.

Lemma ReprKV_entries c m : ReprKV c m -> LRU.entries c = Some m.
Proof.
  intros (es & HI & Hk & Hd).
  destruct (Inv_nodes_at c es HI) as (ns & Hns & Hall).
  unfold LRU.entries. rewrite Hns. simpl. f_equal.
  assert (forall n e, LRU.heap c !! e.1 = Some n -> e ∈ es ->
            LRU.key n = e.2 /\ (LRU.key n, LRU.value n) ∈ m) as Hone.
  { intros n [l k] Hn Hin. destruct (Hd l k Hin) as (v & Hv & Hm).
    unfold dataAt in Hv. simpl in Hn. rewrite Hn in Hv. simpl in Hv.
    injection Hv as -> ->. done. }
  assert (forall ns0 es0,
            Forall2 (fun n e => LRU.heap c !! e.1 = Some n) ns0 es0 ->
            (forall e, e ∈ es0 -> e ∈ es) ->
            (map (fun n => (LRU.key n, LRU.value n)) ns0).*1 = es0.*2 /\
            forall e, e ∈ map (fun n => (LRU.key n, LRU.value n)) ns0 -> e ∈ m)
    as Hgen.
  { intros ns0 es0 Hall0. induction Hall0 as [|n e ns0 es0 Hn _ IH]; intros Hsub.
    - split; [done|]. by intros ? ?%elem_of_nil.
    - destruct IH as [IH1 IH2]; [intros e' He'; apply Hsub; by right|].
      destruct (Hone n e Hn) as [Hkey Hm]; [apply Hsub; by left|].
      split.
      + cbn [map]. rewrite !fmap_cons. cbn [fst]. f_equal; [done|exact IH1].
      + simpl. intros e' [->|He']%elem_of_cons; [done|auto]. }
  destruct (Hgen ns es Hall) as [H1 H2]; [done|].
  apply same_keys_eq; [by rewrite Hk|rewrite Hk; apply (inv_keys _ _ HI)|done].
Qed.

Lemma ReprKV_keys c m : ReprKV c m -> LRU.keys c = Some m.*1.
Proof. intros HR. by apply Repr_keys, ReprKV_Repr. Qed.

Lemma ReprKV_values c m : ReprKV c m -> LRU.values c = Some m.*2.
Proof.
  intros HR%ReprKV_entries. unfold LRU.entries, LRU.values in *.
  destruct (LRU.nodes c) as [ns|]; [|done]. simpl in *.
  injection HR as <-. f_equal. clear. induction ns as [|a ns IH]; [done|].
  cbn [map]. rewrite fmap_cons. cbn [snd]. by rewrite IH.
Qed.

Lemma ReprKV_size c m : ReprKV c m -> LRU.size c = Z.of_nat (length m).
Proof.
  intros HR%ReprKV_Repr. unfold LRU.size.
  by rewrite (Repr_size _ _ HR), length_fmap.
Qed.

Lemma ReprKV_has c m k :
  ReprKV c m -> LRU.has k c = bool_decide (k ∈ m.*1).
Proof.
  intros (es & HI & Hk & _). unfold LRU.has. apply bool_decide_ext.
  rewrite Hk. destruct (LRU.cache c !! k) as [l|] eqn:E.
  - split; [intros _|done]. apply (inv_cache _ _ HI) in E.
    by apply (list_elem_of_fmap_2' snd _ (l, k)).
  - split; [by intros [? ?]|]. by apply (Inv_lookup_None c es k HI) in E.
Qed.

(** *** Every call acts on the entries as the list model says *)

Lemma ReprKV_new cap c : LRU.new cap = inr c -> ReprKV c [].
Proof.
  intros Hn. exists []. split; [by apply (Inv_new cap)|]. split; [done|].
  by intros ? ? ?%elem_of_nil.
Qed.

Lemma ReprKV_touch c c' es l k v m :
  Inv c es -> m.*1 = es.*2 -> (l, k) ∈ es ->
  (forall l' k', (l', k') ∈ es -> l' <> l ->
     exists v', dataAt (LRU.heap c') l' = Some (k', v') /\ (k', v') ∈ m) ->
  dataAt (LRU.heap c') l = Some (k, v) ->
  Inv c' ((l, k) :: withoutE l es) ->
  ReprKV c' ((k, v) :: dropK k m).
Proof.
  intros HI Hk Hin Hrest Hl HI'. exists ((l, k) :: withoutE l es).
  split; [done|]. split.
  - rewrite !fmap_cons, fst_dropK, Hk. simpl. f_equal. symmetry.
    apply snd_withoutE; [apply (linv_nodup _ _ (inv_list _ _ HI))| |done].
    apply (inv_keys _ _ HI).
  - intros l' k' [[= -> ->]|[Hne Hin']%elem_of_withoutE]%elem_of_cons.
    + exists v. split; [done|]. by left.
    + simpl in Hne. destruct (Hrest l' k' Hin' Hne) as (v' & Hv' & Hm).
      exists v'. split; [done|]. right. apply elem_of_dropK. split; [|done].
      simpl. intros ->. apply Hne.
      eapply es_inj; [apply (inv_keys _ _ HI)|done..].
Qed.

Lemma ReprKV_get c m k :
  ReprKV c m ->
  ReprKV (fst (LRU.get k c)) (fst (getM k m)) /\
  snd (LRU.get k c) = snd (getM k m).
Proof.
  intros (es & HI & Hk & Hd). pose proof (get_Inv c es k HI) as HI'.
  assert (NoDup m.*1) as Hnd by (rewrite Hk; apply (inv_keys _ _ HI)).
  unfold getM. destruct (LRU.cache c !! k) as [l|] eqn:E.
  - pose proof (proj1 (inv_cache _ _ HI k l) E) as Hin.
    destruct (Hd l k Hin) as (v & Hv & Hm).
    rewrite (assoc_Some k v m Hnd Hm). simpl. split.
    + eapply (ReprKV_touch c _ es l k v m); try done.
      * intros l' k' Hin' _. rewrite get_data. auto.
      * by rewrite get_data.
    + unfold LRU.get. rewrite E. simpl.
      pose proof (moveToHead_data l (LRU.with_hits (LRU.hits c + 1) c) l) as Hmv.
      simpl in Hmv. rewrite Hv in Hmv. unfold dataAt in Hmv.
      destruct (LRU.heap (LRU.moveToHead l _) !! l) as [n|]; [|done].
      simpl in *. by injection Hmv as _ ->.
  - apply (Inv_lookup_None c es k HI) in E as Hnone.
    rewrite assoc_None by (by rewrite Hk). simpl. split.
    + exists es. split; [done|]. split; [done|].
      intros l' k' Hin'. rewrite get_data. auto.
    + unfold LRU.get. by rewrite E.
Qed.

Lemma ReprKV_put c m k v :
  ReprKV c m -> ReprKV (LRU.put k v c) (putM (LRU.capacity c) k v m).
Proof.
  intros (es & HI & Hk & Hd). pose proof (put_Inv c es k v HI) as HI'.
  pose proof (put_data k v c) as Hdata.
  unfold putM. destruct (LRU.cache c !! k) as [l|] eqn:E.
  - pose proof (proj1 (inv_cache _ _ HI k l) E) as Hin.
    rewrite decide_True
      by (rewrite Hk; by apply (list_elem_of_fmap_2' snd _ (l, k))).
    destruct (Hd l k Hin) as (v0 & Hv0 & _).
    eapply (ReprKV_touch c _ es l k v m); try done.
    + intros l' k' Hin' Hne. rewrite Hdata, decide_False by done. auto.
    + by rewrite Hdata, decide_True, Hv0.
  - apply (Inv_lookup_None c es k HI) in E as Hnone.
    rewrite decide_False by (by rewrite Hk).
    assert (length m = length es) as Hlen
      by (by rewrite <- (length_fmap fst m), Hk, length_fmap).
    cbv zeta in HI'. rewrite Hlen.
    change (length ((LRU.nextLoc c, k) :: es)) with (S (length es)) in HI'.
    assert (forall l' k', (l', k') ∈ es -> l' <> LRU.nextLoc c) as Hfresh.
    { intros l' k' Hin' ->.
      pose proof (inv_fresh _ _ HI _ (Inv_elem_heap _ _ _ _ HI Hin')). lia. }
    assert (ReprKV_pre :
      forall l' k', (l', k') ∈ (LRU.nextLoc c, k) :: es ->
        exists v', dataAt (LRU.heap (LRU.put k v c)) l' = Some (k', v') /\
                   (k', v') ∈ (k, v) :: m).
    { intros l' k' [[= -> ->]|Hin']%elem_of_cons.
      - exists v. rewrite Hdata, decide_True by done. split; [done|by left].
      - rewrite Hdata, decide_False by (by eapply Hfresh).
        destruct (Hd l' k' Hin') as (v' & ? & ?). exists v'.
        split; [done|by right]. }
    destruct (_ >? _) eqn:Ecap.
    + eexists. split; [exact HI'|]. split.
      * by rewrite fst_removelast, snd_removelast, !fmap_cons, Hk.
      * intros l' k' Hin'.
        destruct (ReprKV_pre l' k' (elem_of_removelast _ _ Hin'))
          as (v' & Hv' & Hm). exists v'. split; [done|].
        (* the entry kept by [removelast] on both sides *)
        assert (NoDup ((k, v) :: m).*1) as Hnd.
        { rewrite fmap_cons, Hk. apply NoDup_cons. split; [done|].
          apply (inv_keys _ _ HI). }
        assert (k' ∈ (removelast ((k, v) :: m)).*1) as Hk'.
        { rewrite fst_removelast, fmap_cons, Hk.
          change ((k, v).1 :: es.*2) with (((LRU.nextLoc c, k) :: es).*2).
          rewrite <- snd_removelast.
          by apply (list_elem_of_fmap_2' snd _ (l', k')). }
        apply list_elem_of_fmap in Hk' as ([k'' v''] & -> & Hin'').
        cbn [fst snd] in *. pose proof (elem_of_removelast _ _ Hin'') as Hfull.
        assert (v'' = v') as ->; [|done].
        pose proof (assoc_Some _ _ _ Hnd Hfull) as E1.
        pose proof (assoc_Some _ _ _ Hnd Hm) as E2. congruence.
    + eexists. split; [exact HI'|]. split; [by rewrite !fmap_cons, Hk|done].
Qed.

Lemma ReprKV_delete c m k :
  ReprKV c m ->
  ReprKV (fst (LRU.delete k c)) (fst (deleteM k m)) /\
  snd (LRU.delete k c) = snd (deleteM k m).
Proof.
  intros (es & HI & Hk & Hd). pose proof (delete_Inv c es k HI) as HI'.
  unfold deleteM. simpl. destruct (LRU.cache c !! k) as [l|] eqn:E.
  - pose proof (proj1 (inv_cache _ _ HI k l) E) as Hin. split.
    + eexists. split; [exact HI'|]. split.
      * rewrite fst_dropK, Hk. symmetry.
        apply snd_withoutE; [apply (linv_nodup _ _ (inv_list _ _ HI))| |done].
        apply (inv_keys _ _ HI).
      * intros l' k' [Hne Hin']%elem_of_withoutE. simpl in Hne.
        rewrite delete_data. destruct (Hd l' k' Hin') as (v' & ? & ?).
        exists v'. split; [done|]. apply elem_of_dropK. split; [|done].
        simpl. intros ->. apply Hne.
        eapply es_inj; [apply (inv_keys _ _ HI)|done..].
    + unfold LRU.delete. rewrite E. simpl. symmetry. apply bool_decide_eq_true.
      rewrite Hk. by apply (list_elem_of_fmap_2' snd _ (l, k)).
  - apply (Inv_lookup_None c es k HI) in E as Hnone. split.
    + exists es. split; [done|]. split.
      * rewrite fst_dropK, Hk. by apply filter_ne_notin.
      * intros l' k' Hin'. rewrite delete_data.
        destruct (Hd l' k' Hin') as (v' & ? & ?).
        exists v'. split; [done|]. apply elem_of_dropK. split; [|done].
        simpl. intros ->. apply Hnone.
        by apply (list_elem_of_fmap_2' snd _ (l', k)).
    + unfold LRU.delete. rewrite E. simpl. symmetry. apply bool_decide_eq_false.
      by rewrite Hk.
Qed.

Lemma ReprKV_clear c m : ReprKV c m -> ReprKV (LRU.clear c) [].
Proof.
  intros (es & HI & _). exists []. split; [by eapply clear_Inv|].
  split; [done|]. by intros ? ? ?%elem_of_nil.
Qed.

Lemma capacity_delete k c :
  LRU.capacity (fst (LRU.delete k c)) = LRU.capacity c.
Proof.
  unfold LRU.delete. destruct (_ !! _); simpl; [|done].
  by rewrite capacity_removeNode.
Qed.

Lemma capacity_step c o : LRU.capacity (LRU.step c o) = LRU.capacity c.
Proof.
  destruct o; simpl;
    [apply capacity_get|apply capacity_put|done|apply capacity_delete|done].
Qed.

Lemma ReprKV_step c m o :
  ReprKV c m -> ReprKV (LRU.step c o) (stepM (LRU.capacity c) m o).
Proof.
  intros HR. destruct o as [k|k v|k|k|]; simpl.
  - by apply ReprKV_get.
  - by apply ReprKV_put.
  - done.
  - by apply ReprKV_delete.
  - by eapply ReprKV_clear.
Qed.

Lemma ReprKV_fold ops : forall c m,
  ReprKV c m ->
  ReprKV (LRU.run ops c) (fold_left (stepM (LRU.capacity c)) ops m) /\
  LRU.capacity (LRU.run ops c) = LRU.capacity c.
Proof.
  induction ops as [|o ops IH]; intros c m HR; simpl; [done|].
  destruct (IH _ _ (ReprKV_step c m o HR)) as [IH1 IH2].
  rewrite capacity_step in IH1, IH2. done.
Qed.

Lemma ReprKV_run cap c0 ops :
  LRU.new cap = inr c0 ->
  ReprKV (LRU.run ops c0) (runM cap ops) /\
  LRU.capacity (LRU.run ops c0) = cap.
Proof.
  intros Hn. destruct (Inv_new _ _ Hn) as [_ Hcap].
  destruct (ReprKV_fold ops c0 [] (ReprKV_new _ _ Hn)) as [H1 H2].
  rewrite Hcap in H1, H2. done.
Qed.

(** *** Consequences read off the list model *)

Lemma length_dropK k m :
  NoDup m.*1 -> k ∈ m.*1 -> S (length (dropK k m)) = length m.
Proof.
  intros Hnd Hin. rewrite <- (length_fmap fst (dropK k m)), fst_dropK.
  by rewrite (length_filter_ne k _ Hnd Hin), length_fmap.
Qed.

Lemma length_dropK_le k m : (length (dropK k m) <= length m)%nat.
Proof. unfold dropK. apply length_filter. Qed.

Lemma length_removelast_cons {A} (a : A) (l : list A) :
  length (removelast (a :: l)) = length l.
Proof.
  revert a. induction l as [|b l IH]; intros a; [done|].
  change (removelast (a :: b :: l)) with (a :: removelast (b :: l)).
  cbn [length]. by rewrite (IH b).
Qed.

Lemma stepM_length cap m o :
  NoDup m.*1 -> Z.of_nat (length m) <= cap ->
  Z.of_nat (length (stepM cap m o)) <= cap.
Proof.
  intros Hnd Hlen. destruct o as [k|k v|k|k|]; simpl.
  - unfold getM. destruct (assoc k m) as [v|] eqn:E; simpl; [|done].
    apply assoc_elem in E.
    rewrite (length_dropK k m Hnd); [done|].
    by apply (list_elem_of_fmap_2' fst _ (k, v)).
  - unfold putM. case_decide as Hin.
    + simpl. by rewrite (length_dropK k m Hnd).
    + destruct (_ >? _) eqn:E.
      * by rewrite length_removelast_cons.
      * rewrite Z.gtb_ltb in E. apply Z.ltb_ge in E. simpl length. lia.
  - done.
  - pose proof (length_dropK_le k m). lia.
  - simpl. lia.
Qed.

Lemma size_bounded_fold ops : forall c m,
  ReprKV c m -> Z.of_nat (length m) <= LRU.capacity c ->
  LRU.size (LRU.run ops c) <= LRU.capacity c.
Proof.
  induction ops as [|o ops IH]; intros c m HR Hlen; simpl.
  - by rewrite (ReprKV_size c m HR).
  - rewrite <- (capacity_step c o).
    apply (IH _ _ (ReprKV_step c m o HR)). rewrite capacity_step.
    apply stepM_length; [by eapply ReprKV_NoDup|done].
Qed.

Lemma snd_getM k m : snd (getM k m) = assoc k m.
Proof. unfold getM. by destruct (assoc k m). Qed.

Lemma assoc_putM cap k v m : 1 <= cap -> assoc k (putM cap k v m) = Some v.
Proof.
  intros Hcap. unfold putM. case_decide.
  - simpl. by rewrite decide_True.
  - destruct (_ >? _) eqn:E.
    + apply Z.gtb_gt in E. destruct m as [|e m]; [simpl in E; lia|].
      change (removelast ((k, v) :: e :: m)) with ((k, v) :: removelast (e :: m)).
      simpl. by rewrite decide_True.
    + simpl. by rewrite decide_True.
Qed.

Lemma get_after_put c m k v :
  ReprKV c m -> 1 <= LRU.capacity c ->
  snd (LRU.get k (LRU.put k v c)) = Some v.
Proof.
  intros HR Hcap.
  destruct (ReprKV_get _ _ k (ReprKV_put c m k v HR)) as [_ ->].
  rewrite snd_getM. by apply assoc_putM.
Qed.

(** *** The hit and miss counters *)

Lemma stats_removeNode l c :
  LRU.hits (LRU.removeNode l c) = LRU.hits c /\
  LRU.misses (LRU.removeNode l c) = LRU.misses c.
Proof.
  unfold LRU.removeNode.
  repeat match goal with
         | |- context [match ?x with _ => _ end] => destruct x; simpl
         end; done.
Qed.

Lemma stats_moveToHead l c :
  LRU.hits (LRU.moveToHead l c) = LRU.hits c /\
  LRU.misses (LRU.moveToHead l c) = LRU.misses c.
Proof.
  unfold LRU.moveToHead. case_decide; [done|].
  rewrite addToHead_eq. simpl. apply stats_removeNode.
Qed.

Lemma stats_removeTail c :
  LRU.hits (LRU.removeTail c) = LRU.hits c /\
  LRU.misses (LRU.removeTail c) = LRU.misses c.
Proof.
  unfold LRU.removeTail. destruct (LRU.tail c); [|done].
  destruct (_ !! _); simpl; apply stats_removeNode.
Qed.

Lemma stats_put k v c :
  LRU.hits (LRU.put k v c) = LRU.hits c /\
  LRU.misses (LRU.put k v c) = LRU.misses c.
Proof.
  unfold LRU.put. destruct (_ !! _).
  - by destruct (stats_moveToHead l
                   (LRU.with_heap (alter (LRU.set_value v) l (LRU.heap c)) c))
      as [-> ->].
  - cbv zeta. destruct (_ >? _).
    + destruct (stats_removeTail
        (LRU.addToHead (LRU.nextLoc c)
           (LRU.mkLRUCache (LRU.capacity c)
              (<[k:=LRU.nextLoc c]> (LRU.cache c))
              (<[LRU.nextLoc c:=LRU.mkLRUNode k v None None]> (LRU.heap c))
              (LRU.head c) (LRU.tail c) (LRU.hits c) (LRU.misses c)
              (Pos.succ (LRU.nextLoc c))))) as [-> ->].
      by rewrite addToHead_eq.
    + by rewrite addToHead_eq.
Qed.

Lemma stats_delete k c :
  LRU.hits (fst (LRU.delete k c)) = LRU.hits c /\
  LRU.misses (fst (LRU.delete k c)) = LRU.misses c.
Proof.
  unfold LRU.delete. destruct (_ !! _); simpl; [|done]. apply stats_removeNode.
Qed.

Lemma stats_get c m k :
  ReprKV c m ->
  (LRU.hits (fst (LRU.get k c)), LRU.misses (fst (LRU.get k c))) =
  if decide (k ∈ m.*1) then (LRU.hits c + 1, LRU.misses c)
  else (LRU.hits c, LRU.misses c + 1).
Proof.
  intros HR. pose proof (ReprKV_has c m k HR) as Hhas.
  unfold LRU.has in Hhas. unfold LRU.get.
  destruct (LRU.cache c !! k) as [l|] eqn:E; simpl.
  - rewrite decide_True.
    + by destruct (stats_moveToHead l (LRU.with_hits (LRU.hits c + 1) c))
        as [-> ->].
    + eapply bool_decide_eq_true. rewrite <- Hhas.
      by apply bool_decide_eq_true.
  - rewrite decide_False; [done|]. intros Hin.
    apply (bool_decide_eq_true _) in Hin. rewrite <- Hhas in Hin.
    apply bool_decide_eq_true in Hin. by destruct Hin.
Qed.

Lemma stats_fold cap ops : forall c m (hi mi : Z),
  ReprKV c m -> LRU.capacity c = cap ->
  LRU.hits c = hi -> LRU.misses c = mi ->
  (LRU.hits (LRU.run ops c), LRU.misses (LRU.run ops c)) =
  snd (fold_left
         (fun '(m, (a, b)) o =>
            (stepM cap m o,
             match o with
             | LRU.OpGet k =>
                 if decide (k ∈ m.*1) then (a + 1, b) else (a, b + 1)
             | LRU.OpClear => (0, 0)
             | _ => (a, b)
             end))
         ops (m, (hi, mi))).
Proof.
  induction ops as [|o ops IH]; intros c m hi mi HR Hcap Hh Hs; simpl.
  - by rewrite Hh, Hs.
  - pose proof (ReprKV_step c m o HR) as HR'. rewrite Hcap in HR'.
    pose proof (capacity_step c o) as Hcap'. rewrite Hcap in Hcap'.
    destruct o as [k|k v|k|k|].
    + pose proof (stats_get c m k HR) as Hg. rewrite Hh, Hs in Hg.
      case_decide; injection Hg as Hg1 Hg2; by apply IH.
    + destruct (stats_put k v c) as [H1 H2].
      apply IH; simpl; [done|done|congruence|congruence].
    + by apply IH.
    + destruct (stats_delete k c) as [H1 H2].
      apply IH; simpl; [done|done|congruence|congruence].
    + by apply IH.
Qed.

Lemma stats_run cap c0 ops :
  LRU.new cap = inr c0 ->
  (LRU.hits (LRU.run ops c0), LRU.misses (LRU.run ops c0)) = statsM cap ops.
Proof.
  intros Hn. destruct (Inv_new _ _ Hn) as [_ Hcap].
  apply (stats_fold cap ops c0 [] 0 0 (ReprKV_new _ _ Hn) Hcap).
  - unfold LRU.new in Hn. destruct (cap <=? 0); [done|]. by injection Hn as <-.
  - unfold LRU.new in Hn. destruct (cap <=? 0); [done|]. by injection Hn as <-.
Qed.

End Values.

End LRUFacts2.

(** ** Facts about the case ledger and the citation check *)

Module LedgerFacts.
Import Schema LedgerSpec.

Lemma has_set {V} (k k' : string) (v : V) m :
  OMap.has k' (OMap.set k v m) = bool_decide (k = k') || OMap.has k' m.
Proof.
  unfold OMap.has. rewrite OMapFacts.get_set.
  case_decide; [by rewrite bool_decide_true|by rewrite bool_decide_false].
Qed.

Lemma has_fold_set {A} (key : A -> string) (xs : list A) :
  forall m item,
    OMap.has item (fold_left (fun m x => OMap.set (key x) x m) xs m) = true <->
    OMap.has item m = true \/ exists x, In x xs /\ key x = item.
Proof.
  induction xs as [|x xs IH]; intros m item; simpl.
  - split; [auto|]. intros [?|(? & [] & _)]. done.
  - rewrite IH, has_set, orb_true_iff, bool_decide_eq_true. split.
    + intros [[?|?]|(y & ? & ?)]; eauto.
    + intros [?|(y & [->|?] & ?)]; eauto.
Qed.

Lemma fold_artifacts (c : CaseStudyEnhanced) (t : Trie.Trie) (kws : list string) :
  forall l m,
    fst (fst (fold_left
      (fun '(amap, atrie, kws) a =>
         (OMap.set (artifact_id a) a amap,
          Trie.insert (Js.toLowerCase (type a)) atrie,
          OSet.add (Js.toLowerCase (type a)) kws))
      l (m, t, kws)))
    = fold_left (fun m a => OMap.set (artifact_id a) a m) l m.
Proof.
  revert t kws. induction l as [|a l IH] using rev_ind; intros m; [done|].
  rewrite !fold_left_app. simpl.
  specialize (IH m). destruct (fold_left _ l (m, t, kws)) as [[? ?] ?].
  simpl in *. by rewrite IH.
Qed.

Lemma fold_findings (kws : list string) :
  forall l (m : list (string * Finding)),
    fst (fold_left
      (fun '(fmap, kws) f =>
         (OMap.set (finding_id f) f fmap, OSet.add (category f) kws))
      l (m, kws))
    = fold_left (fun m f => OMap.set (finding_id f) f m) l m.
Proof.
  induction l as [|a l IH] using rev_ind; intros m; [done|].
  rewrite !fold_left_app. simpl.
  specialize (IH m). destruct (fold_left _ l (m, kws)) as [? ?].
  simpl in *. by rewrite IH.
Qed.

(** What [ingestCase] stores under the id of the case. *)
Lemma ingestCase_indexed c s :
  exists ic,
    Ingestion.indexedCases (Ingestion.ingestCase c s)
      = OMap.set (case_id c) ic (Ingestion.indexedCases s) /\
    Ingestion.ic_case ic = c /\
    Ingestion.artifact_map ic = artifactMapOf c /\
    Ingestion.finding_map ic = findingMapOf c.
Proof.
  unfold Ingestion.ingestCase.
  pose proof (fold_artifacts c (Ingestion.artifactTrie s)
                (Ingestion.extractKeywords c []) (artifacts c) []) as Ha.
  destruct (fold_left _ (artifacts c) _) as [[amap atrie] kws1]. simpl in Ha.
  pose proof (fold_findings kws1 (findings c) []) as Hf.
  destruct (fold_left _ (findings c) _) as [fmap kws2]. simpl in Hf.
  destruct (fold_left _ (tools_used c) _) as [[tnames ttrie] kws3].
  destruct (fold_left _ (keywords c) _) as [kws4 index].
  eexists. simpl. split; [reflexivity|]. simpl. auto.
Qed.

Lemma ingestCases_snoc cs c s :
  Ingestion.ingestCases (cs ++ [c]) s
  = Ingestion.ingestCase c (Ingestion.ingestCases cs s).
Proof. unfold Ingestion.ingestCases. by rewrite fold_left_app. Qed.

(** The ledger entry of an id is that of the last case ingested under it. *)
Lemma ledger_get cs cid :
  match caseOf cs cid with
  | Some c =>
      exists ic,
        OMap.get cid (Ingestion.indexedCases (ledger cs)) = Some ic /\
        Ingestion.ic_case ic = c /\
        Ingestion.artifact_map ic = artifactMapOf c /\
        Ingestion.finding_map ic = findingMapOf c
  | None => OMap.get cid (Ingestion.indexedCases (ledger cs)) = None
  end.
Proof.
  unfold ledger, caseOf. induction cs as [|c cs IH] using rev_ind; [done|].
  rewrite rev_app_distr, ingestCases_snoc. simpl.
  destruct (ingestCase_indexed c (Ingestion.ingestCases cs Ingestion.empty))
    as (ic & -> & Hc & Ha & Hf).
  rewrite OMapFacts.get_set.
  destruct (String.eqb (case_id c) cid) eqn:E.
  - apply String.eqb_eq in E. rewrite decide_True by done. eauto.
  - apply String.eqb_neq in E. rewrite decide_False by done. exact IH.
Qed.

Lemma ledger_caseOf_id cs cid c : caseOf cs cid = Some c -> case_id c = cid.
Proof.
  unfold caseOf. intros Hf. apply find_some in Hf as [_ E].
  by apply String.eqb_eq.
Qed.

Lemma validateCitation_spec cs cit :
  Ingestion.validateCitation (ledger cs) cit = true <-> RealCitation cs cit.
Proof.
  unfold Ingestion.validateCitation, RealCitation.
  destruct (Js.split ":" cit) as [|cid [|item [|? ?]]]; [done| | |done].
  - pose proof (ledger_get cs cid) as Hg. unfold OMap.has.
    destruct (caseOf cs cid) as [c|].
    + destruct Hg as (ic & -> & _). split; eauto.
    + rewrite Hg. split; [done|]. by intros [? ?].
  - pose proof (ledger_get cs cid) as Hg.
    destruct (caseOf cs cid) as [c|].
    + destruct Hg as (ic & -> & _ & Ha & Hf). rewrite Ha, Hf.
      unfold artifactMapOf, findingMapOf.
      rewrite orb_true_iff, !has_fold_set. split.
      * intros [[?|?]|[?|?]]; try done; exists c; eauto.
      * intros (c' & [= <-] & [?|?]); eauto.
    + rewrite Hg. split; [done|]. by intros (? & ? & _).
Qed.

(** Enough fuel: more fuel never changes the extracted matches. *)
Lemma bracketBody_length s body rest :
  PromptTemplates.bracketBody s = Some (body, rest) ->
  (String.length rest < String.length s)%nat.
Proof.
  revert body. induction s as [|c r IH]; intros body; simpl; [done|].
  destruct (ascii_dec c "]"); [intros [= _ <-]; lia|].
  destruct (PromptTemplates.bracketBody r) as [[b r']|] eqn:E; [|done].
  intros [= _ <-]. specialize (IH _ eq_refl). lia.
Qed.

Lemma matchCitations_fuel fuel : forall fuel' s,
  (String.length s < fuel)%nat -> (String.length s < fuel')%nat ->
  PromptTemplates.matchCitations fuel s = PromptTemplates.matchCitations fuel' s.
Proof.
  induction fuel as [|fuel IH]; intros fuel' s H1 H2; [lia|].
  destruct fuel' as [|fuel']; [lia|]. simpl.
  destruct s as [|c r]; [done|]. simpl in H1, H2.
  destruct (ascii_dec c "[").
  - destruct (PromptTemplates.bracketBody r) as [[[|b body] rest]|] eqn:E.
    + apply IH; lia.
    + apply bracketBody_length in E. f_equal. apply IH; lia.
    + apply IH; lia.
  - apply IH; lia.
Qed.

End LedgerFacts.

(** ** More facts about the case ledger *)

Module LedgerFacts2.
Import Schema LedgerSpec LedgerFacts LedgerModel OMapFacts2.

(** *** The list of case ids *)

Lemma keys_set {V} (k : string) (v : V) m :
  OMap.keys (OMap.set k v m) = OSet.add k (OMap.keys m).
Proof.
  unfold OSet.add, OSet.has. destruct (OMap.has k m) eqn:E.
  - rewrite OMapFacts.keys_set_has by done. rewrite bool_decide_true; [done|].
    by apply list_elem_of_In, OMapFacts.has_In_keys.
  - rewrite OMapFacts.keys_set_new by done. rewrite bool_decide_false; [done|].
    intros Hin%list_elem_of_In%OMapFacts.has_In_keys. congruence.
Qed.

Lemma of_list_snoc (l : list string) k :
  OSet.of_list (l ++ [k]) = OSet.add k (OSet.of_list l).
Proof. unfold OSet.of_list. by rewrite fold_left_app. Qed.

Lemma NoDup_add (k : string) s : NoDup s -> NoDup (OSet.add k s).
Proof.
  intros Hnd. unfold OSet.add, OSet.has. case_bool_decide; [done|].
  apply NoDup_app. split; [done|]. split; [|apply NoDup_singleton].
  by intros x Hx ->%list_elem_of_singleton.
Qed.

Lemma elem_of_add (k k' : string) s : k' ∈ OSet.add k s <-> k' = k \/ k' ∈ s.
Proof. rewrite !list_elem_of_In. apply OSetFacts.In_add. Qed.

Lemma NoDup_of_list (l : list string) : NoDup (OSet.of_list l).
Proof.
  induction l as [|k l IH] using rev_ind; [constructor|].
  rewrite of_list_snoc. by apply NoDup_add.
Qed.

Lemma elem_of_of_list (l : list string) x : x ∈ OSet.of_list l <-> x ∈ l.
Proof.
  induction l as [|k l IH] using rev_ind; [done|].
  rewrite of_list_snoc, elem_of_add, elem_of_app, IH, list_elem_of_singleton.
  tauto.
Qed.

Lemma getAllCaseIds_ledger cs :
  Ingestion.getAllCaseIds (ledger cs) = OSet.of_list (map case_id cs).
Proof.
  unfold Ingestion.getAllCaseIds, ledger.
  induction cs as [|c cs IH] using rev_ind; [done|].
  rewrite ingestCases_snoc, map_app. cbn [map]. rewrite of_list_snoc.
  destruct (ingestCase_indexed c (Ingestion.ingestCases cs Ingestion.empty))
    as (ic & -> & _).
  by rewrite keys_set, IH.
Qed.

(** *** Lookups *)

Lemma get_fold_set {A} (key : A -> string) (xs : list A) m k :
  OMap.get k (fold_left (fun m x => OMap.set (key x) x m) xs m) =
  match List.find (fun x => String.eqb (key x) k) (rev xs) with
  | Some x => Some x
  | None => OMap.get k m
  end.
Proof.
  revert m. induction xs as [|x xs IH] using rev_ind; intros m; [done|].
  rewrite fold_left_app, rev_app_distr. simpl.
  rewrite OMapFacts.get_set. destruct (String.eqb (key x) k) eqn:E.
  - apply String.eqb_eq in E. by rewrite decide_True.
  - apply String.eqb_neq in E. rewrite decide_False by done. apply IH.
Qed.

Lemma getCaseById_ledger cs cid :
  Ingestion.getCaseById (ledger cs) cid = caseOf cs cid.
Proof.
  unfold Ingestion.getCaseById. pose proof (ledger_get cs cid) as Hg.
  destruct (caseOf cs cid) as [c|].
  - destruct Hg as (ic & -> & <- & _). done.
  - by rewrite Hg.
Qed.

Lemma getArtifact_ledger cs cid aid :
  Ingestion.getArtifact (ledger cs) cid aid =
  match caseOf cs cid with
  | Some c => List.find (fun a => String.eqb (artifact_id a) aid) (rev (artifacts c))
  | None => None
  end.
Proof.
  unfold Ingestion.getArtifact. pose proof (ledger_get cs cid) as Hg.
  destruct (caseOf cs cid) as [c|].
  - destruct Hg as (ic & -> & _ & -> & _). unfold artifactMapOf.
    rewrite get_fold_set. by destruct (List.find _ _).
  - by rewrite Hg.
Qed.

Lemma getFinding_ledger cs cid fid :
  Ingestion.getFinding (ledger cs) cid fid =
  match caseOf cs cid with
  | Some c => List.find (fun f => String.eqb (finding_id f) fid) (rev (findings c))
  | None => None
  end.
Proof.
  unfold Ingestion.getFinding. pose proof (ledger_get cs cid) as Hg.
  destruct (caseOf cs cid) as [c|].
  - destruct Hg as (ic & -> & _ & _ & ->). unfold findingMapOf.
    rewrite get_fold_set. by destruct (List.find _ _).
  - by rewrite Hg.
Qed.

(** *** Query tokens *)

Lemma allChars_impl (p q : ascii -> bool) s :
  (forall c, p c = true -> q c = true) ->
  allChars p s = true -> allChars q s = true.
Proof.
  intros Hpq. induction s as [|c r IH]; simpl; [done|].
  intros [? ?]%andb_true_iff. apply andb_true_iff. auto.
Qed.

Lemma allChars_and (p q : ascii -> bool) s :
  allChars p s = true -> allChars q s = true ->
  allChars (fun c => p c && q c) s = true.
Proof.
  induction s as [|c r IH]; simpl; [done|].
  intros [? ?]%andb_true_iff [? ?]%andb_true_iff.
  rewrite !andb_true_iff. auto.
Qed.

Lemma allChars_filterChars_keep keep s :
  allChars keep (Js.filterChars keep s) = true.
Proof.
  induction s as [|c r IH]; simpl; [done|].
  destruct (keep c) eqn:E; simpl; [by rewrite E|done].
Qed.

Lemma allChars_filterChars p keep s :
  allChars p s = true -> allChars p (Js.filterChars keep s) = true.
Proof.
  induction s as [|c r IH]; simpl; [done|].
  intros [? ?]%andb_true_iff. destruct (keep c); simpl; [|auto].
  apply andb_true_iff. auto.
Qed.

Lemma lower_char_not_upper c : Js.is_upper (Js.lower_char c) = false.
Proof.
  unfold Js.lower_char. destruct (Js.is_upper c) eqn:E; [|done].
  unfold Js.is_upper in *. apply andb_true_iff in E as [E1 E2].
  apply Nat.leb_le in E1, E2.
  rewrite nat_ascii_embedding by lia.
  apply andb_false_iff. right. apply Nat.leb_gt. lia.
Qed.

Lemma allChars_toLowerCase s :
  allChars (fun c => negb (Js.is_upper c)) (Js.toLowerCase s) = true.
Proof.
  induction s as [|c r IH]; simpl; [done|].
  by rewrite lower_char_not_upper, IH.
Qed.

Lemma allChars_splitWs p s :
  allChars p s = true ->
  Forall (fun w => allChars (fun c => p c && negb (Js.is_space c)) w = true)
         (Js.splitWs s).
Proof.
  induction s as [|c r IH]; simpl.
  - intros _. by constructor.
  - intros [Hc Hr]%andb_true_iff. specialize (IH Hr).
    destruct (Js.is_space c) eqn:Es.
    + destruct r as [|c' r']; [by constructor|].
      destruct (Js.is_space c'); [done|by constructor].
    + destruct (Js.splitWs r) as [|w ws]; [constructor; [|done]|].
      * simpl. by rewrite Hc, Es.
      * inversion IH; subst. constructor; [|done]. simpl. by rewrite Hc, Es.
Qed.

Lemma is_underscore c :
  (nat_of_ascii c =? 95)%nat = bool_decide (c = "_"%char).
Proof.
  case_bool_decide as E; [by subst|]. apply Nat.eqb_neq. intros Hn.
  apply E. rewrite <- (ascii_nat_embedding c), Hn. done.
Qed.

Lemma tokenize_tokens query :
  Forall (fun t => 2 < Js.strlen t /\ allChars tokenChar t = true)
         (Ingestion.tokenize query).
Proof.
  unfold Ingestion.tokenize. apply Forall_forall.
  intros t [Hlen Hin]%list_elem_of_filter. split; [done|].
  set (keep := fun c => Js.is_word c || Js.is_space c || bool_decide (c = "-"%char)).
  assert (allChars (fun c => keep c && negb (Js.is_upper c))
            (Js.filterChars keep (Js.toLowerCase query)) = true) as Hkeep.
  { apply allChars_and; [apply allChars_filterChars_keep|].
    apply allChars_filterChars, allChars_toLowerCase. }
  pose proof (allChars_splitWs _ _ Hkeep) as Hall.
  rewrite Forall_forall in Hall. specialize (Hall t Hin).
  revert Hall. apply allChars_impl. intros c.
  unfold keep, tokenChar, Js.is_word. rewrite is_underscore.
  destruct (Js.is_upper c), (Js.is_lower c), (Js.is_digit c),
    (Js.is_space c), (bool_decide (c = "-"%char)),
    (bool_decide (c = "_"%char)); simpl; done.
Qed.

(** *** The keyword index *)

Lemma add_add (k : string) s : OSet.add k (OSet.add k s) = OSet.add k s.
Proof.
  unfold OSet.add at 1. unfold OSet.has.
  rewrite bool_decide_true; [done|]. apply elem_of_add. by left.
Qed.

Lemma indexKeyword_ids cid kws0 index kw t :
  default [] (OMap.get t (snd (Ingestion.indexKeyword cid (kws0, index) kw))) =
  if decide (t = Js.toLowerCase kw)
  then OSet.add cid (default [] (OMap.get t index))
  else default [] (OMap.get t index).
Proof.
  unfold Ingestion.indexKeyword. set (n := Js.toLowerCase kw).
  destruct (OMap.has n index) eqn:Eh; simpl.
  - destruct (has_true_get _ _ Eh) as [ids Hids]. rewrite Hids. simpl.
    rewrite OMapFacts.get_set. case_decide as E1; case_decide as E2;
      subst; try done. by rewrite Hids.
  - apply has_false_get in Eh as Hn.
    rewrite OMapFacts.get_set, decide_True by done. simpl.
    rewrite set_set, OMapFacts.get_set.
    case_decide as E1; case_decide as E2; subst; try done. by rewrite Hn.
Qed.

Lemma fold_indexKeyword cid kws : forall kws0 index t,
  default [] (OMap.get t
    (snd (fold_left (Ingestion.indexKeyword cid) kws (kws0, index)))) =
  if decide (t ∈ map Js.toLowerCase kws)
  then OSet.add cid (default [] (OMap.get t index))
  else default [] (OMap.get t index).
Proof.
  induction kws as [|kw kws IH]; intros kws0 index t; cbn [fold_left map].
  - by rewrite decide_False by (by intros ?%elem_of_nil).
  - destruct (Ingestion.indexKeyword cid (kws0, index) kw) as [kws1 index1] eqn:E.
    rewrite IH. pose proof (indexKeyword_ids cid kws0 index kw t) as H1.
    rewrite E in H1. simpl in H1. rewrite H1.
    destruct (decide (t = Js.toLowerCase kw)) as [->|Hne].
    + rewrite (decide_True (P := _ ∈ _ :: _)) by (by left).
      case_decide; [by rewrite add_add|done].
    + case_decide as Hin.
      * rewrite decide_True by (by right). done.
      * rewrite decide_False; [done|].
        intros [?|?]%elem_of_cons; done.
Qed.

Lemma idsFor_ingestCase c s t :
  idsFor (Ingestion.ingestCase c s) t =
  if decide (t ∈ map Js.toLowerCase (keywords c))
  then OSet.add (case_id c) (idsFor s t)
  else idsFor s t.
Proof.
  unfold idsFor, Ingestion.ingestCase.
  destruct (fold_left _ (artifacts c) _) as [[amap atrie] kws1].
  destruct (fold_left _ (findings c) _) as [fmap kws2].
  destruct (fold_left _ (tools_used c) _) as [[tnames ttrie] kws3].
  pose proof (fold_indexKeyword (case_id c) (keywords c)
    (OSet.add (Js.toLowerCase (incident_type c))
       (OSet.add (Js.toLowerCase (case_id c)) kws3))
    (Ingestion.keywordIndex s) t) as Hf.
  destruct (fold_left _ (keywords c) _) as [kws4 index]. exact Hf.
Qed.

Lemma Indexed_snoc cs c t id :
  Indexed (cs ++ [c]) t id <->
  Indexed cs t id \/ (id = case_id c /\ t ∈ map Js.toLowerCase (keywords c)).
Proof.
  unfold Indexed. split.
  - intros (c' & Hin & Hid & kw & Hkw & Hl).
    apply in_app_or in Hin as [Hin|[<-|[]]].
    + left. exists c'. eauto.
    + right. split; [done|]. apply list_elem_of_In, in_map_iff. eauto.
  - intros [(c' & Hin & Hrest)|[-> Hin]].
    + exists c'. split; [apply in_or_app; by left|done].
    + exists c. split; [apply in_or_app; right; by left|]. split; [done|].
      apply list_elem_of_In, in_map_iff in Hin as (kw & ? & ?). eauto.
Qed.

Lemma idsFor_ledger cs t id : id ∈ idsFor (ledger cs) t <-> Indexed cs t id.
Proof.
  unfold ledger. induction cs as [|c cs IH] using rev_ind.
  - split; [by intros ?%elem_of_nil|]. by intros (? & [] & _).
  - rewrite ingestCases_snoc, idsFor_ingestCase, Indexed_snoc.
    case_decide as Hin.
    + rewrite elem_of_add, IH. tauto.
    + rewrite IH. tauto.
Qed.

Lemma NoDup_idsFor_ledger cs t : NoDup (idsFor (ledger cs) t).
Proof.
  unfold ledger. induction cs as [|c cs IH] using rev_ind; [constructor|].
  rewrite ingestCases_snoc, idsFor_ingestCase.
  case_decide; [by apply NoDup_add|done].
Qed.

Lemma caseOf_In cs c : In c cs -> exists c', caseOf cs (case_id c) = Some c'.
Proof.
  intros Hin. unfold caseOf.
  destruct (List.find _ (rev cs)) as [c'|] eqn:E; [eauto|].
  apply in_rev in Hin. apply (find_none _ _ E c) in Hin.
  by rewrite String.eqb_refl in Hin.
Qed.

Lemma has_ledger cs id :
  OMap.has id (Ingestion.indexedCases (ledger cs)) = true <->
  exists c, In c cs /\ case_id c = id.
Proof.
  pose proof (ledger_get cs id) as Hg. unfold OMap.has.
  destruct (caseOf cs id) as [c|] eqn:E.
  - destruct Hg as (ic & -> & _). split; [intros _|done].
    exists c. split; [|by eapply ledger_caseOf_id].
    unfold caseOf in E. apply find_some in E as [E _]. by apply in_rev.
  - rewrite Hg. split; [done|]. intros (c & Hin & <-).
    destruct (caseOf_In cs c Hin) as [? ?]. congruence.
Qed.

Lemma WfIndex_ledger cs : WfIndex (ledger cs).
Proof.
  intros t. split; [apply NoDup_idsFor_ledger|].
  intros id (c & Hin & Hid & _)%idsFor_ledger. apply has_ledger. eauto.
Qed.

(** *** search: one result per case *)

Lemma scoreCase_eq s t res cid ic :
  OMap.get cid (Ingestion.indexedCases s) = Some ic ->
  Ingestion.scoreCase s t (Some res) cid =
  Some (OMap.set cid
          (bump t ic (default (Ingestion.newResult cid) (OMap.get cid res)))
          res).
Proof.
  intros Hic. unfold Ingestion.scoreCase.
  destruct (OMap.has cid res) eqn:Eh; cbn [negb].
  - destruct (has_true_get _ _ Eh) as [r Hr]. rewrite Hr, Hic. done.
  - apply has_false_get in Eh as Hn.
    rewrite OMapFacts.get_set, decide_True by done. rewrite Hic, Hn.
    cbn [default]. by rewrite set_set.
Qed.

Lemma fold_scoreCase s t ids : forall res,
  (forall id, id ∈ ids -> OMap.has id (Ingestion.indexedCases s) = true) ->
  NoDup ids ->
  exists res',
    fold_left (Ingestion.scoreCase s t) ids (Some res) = Some res' /\
    (NoDup (map fst res) -> NoDup (map fst res')) /\
    forall id,
      OMap.get id res' =
      if decide (id ∈ ids) then
        match OMap.get id (Ingestion.indexedCases s) with
        | Some ic =>
            Some (bump t ic (default (Ingestion.newResult id) (OMap.get id res)))
        | None => OMap.get id res
        end
      else OMap.get id res.
Proof.
  induction ids as [|a ids IH]; intros res Hhas Hnd.
  - exists res. split; [done|]. split; [done|]. intros id.
    by rewrite decide_False by (by intros ?%elem_of_nil).
  - apply NoDup_cons in Hnd as [Ha Hnd].
    assert (OMap.has a (Ingestion.indexedCases s) = true) as Hha
      by (apply Hhas; by left).
    destruct (has_true_get _ _ Hha) as [ic Hic].
    cbn [fold_left]. rewrite (scoreCase_eq s t res a ic Hic).
    destruct (IH (OMap.set a
                    (bump t ic (default (Ingestion.newResult a) (OMap.get a res)))
                    res)) as (res' & Hf & Hk & Hg).
    { intros id Hid. apply Hhas. by right. }
    { done. }
    exists res'. split; [done|]. split.
    { intros Hn. by apply Hk, NoDup_keys_set. }
    intros id. rewrite Hg, OMapFacts.get_set.
    destruct (decide (a = id)) as [<-|Hne].
    + rewrite decide_False by done. rewrite decide_True by (by left).
      by rewrite Hic.
    + destruct (decide (id ∈ ids)) as [Hin|Hin].
      * by rewrite decide_True by (by right).
      * rewrite decide_False; [done|]. intros [?|?]%elem_of_cons; done.
Qed.

Lemma fold_terms s terms : WfIndex s -> forall res,
  exists res',
    fold_left
      (fun results term =>
         fold_left (Ingestion.scoreCase s term)
           (default [] (OMap.get term (Ingestion.keywordIndex s))) results)
      terms (Some res) = Some res' /\
    (NoDup (map fst res) -> NoDup (map fst res')) /\
    forall id, OMap.get id res' = perCase s terms id (OMap.get id res).
Proof.
  intros Hwf. induction terms as [|t terms IH]; intros res.
  - exists res. by repeat split.
  - cbn [fold_left]. cbv zeta.
    destruct (Hwf t) as [Hnd Hhas].
    destruct (fold_scoreCase s t (idsFor s t) res Hhas Hnd)
      as (res1 & Hf1 & Hk1 & Hg1).
    unfold idsFor in Hf1 at 1. rewrite Hf1.
    destruct (IH res1) as (res' & Hf & Hk & Hg).
    exists res'. split; [done|]. split; [auto|].
    intros id. rewrite Hg, Hg1. done.
Qed.

Lemma search_eq s query limit :
  WfIndex s ->
  exists res,
    Ingestion.search s query limit =
      Some (Js.slice0 limit (Ingestion.sortByScore (OMap.values res))) /\
    NoDup (map fst res) /\
    forall id, OMap.get id res = perCase s (Ingestion.tokenize query) id None.
Proof.
  intros Hwf. unfold Ingestion.search. cbv zeta.
  destruct (fold_terms s (Ingestion.tokenize query) Hwf [])
    as (res & Hf & Hk & Hg).
  rewrite Hf. exists res. split; [done|]. split; [apply Hk; constructor|done].
Qed.

(** *** What one term adds *)

Lemma calculateTermWeight_bounds t :
  (1 # 2 <= Ingestion.calculateTermWeight t)%Q /\
  (Ingestion.calculateTermWeight t <= 1)%Q.
Proof.
  unfold Ingestion.calculateTermWeight.
  destruct (Js.find _ _) as [rule|] eqn:E; [|split; by vm_compute].
  apply find_some in E as [Hin _].
  repeat (destruct Hin as [<-|Hin]; [split; by vm_compute|]). done.
Qed.

Lemma bump_artifacts t (am : list (string * ForensicArtifact)) : forall r,
  let r' :=
    fold_left
      (fun r '(artifactId, artifact) =>
         if Js.includes (Js.toLowerCase (type artifact)) t
            || Js.includes (Js.toLowerCase (description artifact)) t
         then Ingestion.mkSearchResult (Ingestion.sr_case_id r)
                (Ingestion.relevance_score r + 0.3)
                (Ingestion.matched_keywords r)
                (Ingestion.matched_artifacts r ++ [artifactId])
                (Ingestion.matched_findings r)
         else r) am r in
  Ingestion.sr_case_id r' = Ingestion.sr_case_id r /\
  Ingestion.matched_keywords r' = Ingestion.matched_keywords r /\
  Ingestion.matched_findings r' = Ingestion.matched_findings r /\
  (Ingestion.relevance_score r <= Ingestion.relevance_score r')%Q /\
  exists ext, Ingestion.matched_artifacts r' = Ingestion.matched_artifacts r ++ ext /\
              forall x, In x ext -> In x (map fst am).
Proof.
  induction am as [|[aid a] am IH]; intros r; cbn [fold_left].
  - repeat split; try done; [lra|]. exists []. by rewrite app_nil_r.
  - match goal with |- context [if ?b then _ else _] => destruct b end.
    + destruct (IH (Ingestion.mkSearchResult (Ingestion.sr_case_id r)
                      (Ingestion.relevance_score r + 0.3)
                      (Ingestion.matched_keywords r)
                      (Ingestion.matched_artifacts r ++ [aid])
                      (Ingestion.matched_findings r)))
        as (H1 & H2 & H3 & H4 & ext & H5 & H6).
      cbv zeta. simpl in *. repeat split; try done; [lra|].
      exists (aid :: ext). split; [by rewrite H5, <- app_assoc|].
      intros x [<-|Hx]; [by left|right; auto].
    + destruct (IH r) as (H1 & H2 & H3 & H4 & ext & H5 & H6).
      cbv zeta. simpl in *. repeat split; try done.
      exists ext. split; [done|]. intros x Hx. right. auto.
Qed.

Lemma bump_findings t (fm : list (string * Finding)) : forall r,
  let r' :=
    fold_left
      (fun r '(findingId, finding) =>
         if Js.includes (Js.toLowerCase (finding_description finding)) t
         then Ingestion.mkSearchResult (Ingestion.sr_case_id r)
                (Ingestion.relevance_score r + 0.25)
                (Ingestion.matched_keywords r) (Ingestion.matched_artifacts r)
                (Ingestion.matched_findings r ++ [findingId])
         else r) fm r in
  Ingestion.sr_case_id r' = Ingestion.sr_case_id r /\
  Ingestion.matched_keywords r' = Ingestion.matched_keywords r /\
  Ingestion.matched_artifacts r' = Ingestion.matched_artifacts r /\
  (Ingestion.relevance_score r <= Ingestion.relevance_score r')%Q /\
  exists ext, Ingestion.matched_findings r' = Ingestion.matched_findings r ++ ext /\
              forall x, In x ext -> In x (map fst fm).
Proof.
  induction fm as [|[fid f] fm IH]; intros r; cbn [fold_left].
  - repeat split; try done; [lra|]. exists []. by rewrite app_nil_r.
  - match goal with |- context [if ?b then _ else _] => destruct b end.
    + destruct (IH (Ingestion.mkSearchResult (Ingestion.sr_case_id r)
                      (Ingestion.relevance_score r + 0.25)
                      (Ingestion.matched_keywords r)
                      (Ingestion.matched_artifacts r)
                      (Ingestion.matched_findings r ++ [fid])))
        as (H1 & H2 & H3 & H4 & ext & H5 & H6).
      cbv zeta. simpl in *. repeat split; try done; [lra|].
      exists (fid :: ext). split; [by rewrite H5, <- app_assoc|].
      intros x [<-|Hx]; [by left|right; auto].
    + destruct (IH r) as (H1 & H2 & H3 & H4 & ext & H5 & H6).
      cbv zeta. simpl in *. repeat split; try done.
      exists ext. split; [done|]. intros x Hx. right. auto.
Qed.

Lemma bump_spec t ic r :
  Ingestion.sr_case_id (bump t ic r) = Ingestion.sr_case_id r /\
  Ingestion.matched_keywords (bump t ic r) = Ingestion.matched_keywords r ++ [t] /\
  (Ingestion.relevance_score r + (1 # 2) <= Ingestion.relevance_score (bump t ic r))%Q /\
  (exists ext,
     Ingestion.matched_artifacts (bump t ic r) = Ingestion.matched_artifacts r ++ ext /\
     forall x, In x ext -> In x (map fst (Ingestion.artifact_map ic))) /\
  (exists ext,
     Ingestion.matched_findings (bump t ic r) = Ingestion.matched_findings r ++ ext /\
     forall x, In x ext -> In x (map fst (Ingestion.finding_map ic))).
Proof.
  unfold bump. cbv zeta.
  set (r1 := Ingestion.mkSearchResult _ _ _ _ _).
  destruct (bump_artifacts t (Ingestion.artifact_map ic) r1)
    as (A1 & A2 & A3 & A4 & ea & A5 & A6).
  cbv zeta in *.
  set (r2 := fold_left _ (Ingestion.artifact_map ic) r1) in *.
  destruct (bump_findings t (Ingestion.finding_map ic) r2)
    as (F1 & F2 & F3 & F4 & ef & F5 & F6).
  cbv zeta in *.
  set (r3 := fold_left _ (Ingestion.finding_map ic) r2) in *.
  pose proof (calculateTermWeight_bounds t) as [Hw _].
  split; [by rewrite F1, A1|]. split; [by rewrite F2, A2|].
  split; [subst r1; simpl in *; lra|]. split.
  - exists ea. by rewrite F3, A5.
  - exists ef. by rewrite F5, A3.
Qed.

Lemma perCase_snoc s terms t id o :
  perCase s (terms ++ [t]) id o =
  let o' := perCase s terms id o in
  if decide (id ∈ idsFor s t) then
    match OMap.get id (Ingestion.indexedCases s) with
    | Some ic => Some (bump t ic (default (Ingestion.newResult id) o'))
    | None => o'
    end
  else o'.
Proof. unfold perCase. by rewrite fold_left_app. Qed.

Lemma filter_none (P : string -> Prop) `{forall x, Decision (P x)} (l : list string) :
  (forall x, x ∈ l -> ~ P x) -> filter P l = [].
Proof.
  induction l as [|a l IH]; intros Hn; [done|].
  rewrite filter_cons_False by (apply Hn; by left).
  apply IH. intros x Hx. apply Hn. by right.
Qed.

Lemma half_length_snoc (l : list string) t (q : Q) :
  ((1 # 2) * inject_Z (Z.of_nat (length l)) + (1 # 2) <= q)%Q ->
  ((1 # 2) * inject_Z (Z.of_nat (length (l ++ [t]))) <= q)%Q.
Proof.
  rewrite length_app, Nat2Z.inj_add, inject_Z_plus. simpl length.
  change (inject_Z (Z.of_nat 1)) with 1%Q. intros. lra.
Qed.

Lemma perCase_spec s terms id :
  WfIndex s ->
  match perCase s terms id None with
  | None => forall t, t ∈ terms -> id ∉ idsFor s t
  | Some r =>
      (exists t, t ∈ terms /\ id ∈ idsFor s t) /\
      Ingestion.sr_case_id r = id /\
      Ingestion.matched_keywords r = filter (fun t => id ∈ idsFor s t) terms /\
      ((1 # 2) * inject_Z (Z.of_nat (length (Ingestion.matched_keywords r)))
       <= Ingestion.relevance_score r)%Q /\
      exists ic,
        OMap.get id (Ingestion.indexedCases s) = Some ic /\
        (forall x, In x (Ingestion.matched_artifacts r) ->
                   In x (map fst (Ingestion.artifact_map ic))) /\
        (forall x, In x (Ingestion.matched_findings r) ->
                   In x (map fst (Ingestion.finding_map ic)))
  end.
Proof.
  intros Hwf. induction terms as [|t terms IH] using rev_ind.
  - simpl. by intros ? ?%elem_of_nil.
  - rewrite perCase_snoc. cbv zeta.
    destruct (decide (id ∈ idsFor s t)) as [Hin|Hin].
    + destruct (Hwf t) as [_ Hhas].
      destruct (has_true_get _ _ (Hhas id Hin)) as [ic Hic]. rewrite Hic.
      destruct (bump_spec t ic
                  (default (Ingestion.newResult id) (perCase s terms id None)))
        as (B1 & B2 & B3 & (ea & B4 & B5) & (ef & B6 & B7)).
      split; [exists t; split; [apply elem_of_app; right; by left|done]|].
      rewrite filter_app, filter_cons_True, filter_nil by done.
      destruct (perCase s terms id None) as [r|];
        cbn [default from_option] in *; unfold Datatypes.id in *.
      * destruct IH as (_ & I1 & I2 & I3 & ic' & I4 & I5 & I6).
        assert (ic' = ic) as -> by congruence.
        split; [congruence|]. split; [by rewrite B2, I2|]. split.
        { rewrite B2. apply half_length_snoc. lra. }
        exists ic. split; [done|]. split.
        -- intros x. rewrite B4. intros [?|?]%in_app_or; auto.
        -- intros x. rewrite B6. intros [?|?]%in_app_or; auto.
      * simpl in *. split; [done|]. split.
        { rewrite B2, filter_none; [done|]. intros x Hx. by apply IH. }
        split.
        { rewrite B2. apply (half_length_snoc [] t).
          change (inject_Z (Z.of_nat (length (@nil string)))) with 0%Q. lra. }
        exists ic. split; [done|]. split.
        -- intros x. rewrite B4. simpl. auto.
        -- intros x. rewrite B6. simpl. auto.
    + destruct (perCase s terms id None) as [r|].
      * destruct IH as ((t' & Ht' & Hid) & I1 & I2 & I3 & I4).
        split; [exists t'; split; [apply elem_of_app; by left|done]|].
        rewrite filter_app, filter_cons_False, filter_nil, app_nil_r by done.
        done.
      * intros t' [Ht'|Ht']%elem_of_app; [auto|].
        apply list_elem_of_singleton in Ht' as ->. done.
Qed.

(** *** Ordering and truncation *)

Lemma insertByScore_perm x l : Ingestion.insertByScore x l ≡ₚ x :: l.
Proof.
  induction l as [|y l IH]; simpl; [done|].
  destruct (Qlt_le_dec _ _); [|done].
  rewrite IH. apply perm_swap.
Qed.

Lemma sortByScore_perm l : Ingestion.sortByScore l ≡ₚ l.
Proof.
  induction l as [|x l IH]; simpl; [done|].
  by rewrite insertByScore_perm, IH.
Qed.

Lemma insertByScore_sorted x l :
  StronglySorted byScore l -> StronglySorted byScore (Ingestion.insertByScore x l).
Proof.
  induction l as [|y l IH]; simpl; intros Hs.
  - repeat constructor.
  - apply StronglySorted_inv in Hs as [Hl Hy].
    destruct (Qlt_le_dec _ _) as [Hlt|Hle].
    + constructor; [auto|].
      apply List.Forall_forall. intros z Hz.
      apply (Permutation_in _ (insertByScore_perm x l)) in Hz as [<-|Hz].
      * unfold byScore. lra.
      * by eapply List.Forall_forall in Hy.
    + constructor; [by constructor|]. constructor; [done|].
      eapply Forall_impl; [exact Hy|]. unfold byScore. intros z Hz. simpl in Hz. lra.
Qed.

Lemma sortByScore_sorted l : StronglySorted byScore (Ingestion.sortByScore l).
Proof.
  induction l as [|x l IH]; simpl; [constructor|by apply insertByScore_sorted].
Qed.

Lemma StronglySorted_firstn {A} (R : A -> A -> Prop) n l :
  StronglySorted R l -> StronglySorted R (firstn n l).
Proof.
  revert n. induction l as [|a l IH]; intros [|n] Hs; simpl; try constructor.
  - apply IH. by apply StronglySorted_inv in Hs as [? _].
  - apply StronglySorted_inv in Hs as [_ Ha].
    rewrite <- (firstn_skipn n l) in Ha. by apply List.Forall_app in Ha as [? _].
Qed.

Lemma slice0_firstn {A} limit (l : list A) :
  exists k, Js.slice0 limit l = firstn k l /\
            (0 <= limit -> k = Z.to_nat limit).
Proof.
  unfold Js.slice0. destruct (limit <? 0) eqn:E.
  - apply Z.ltb_lt in E. eexists. split; [done|lia].
  - eexists. by split.
Qed.

Lemma values_In {V} (m : list (string * V)) (v : V) :
  In v (OMap.values m) <-> exists k, In (k, v) m.
Proof.
  unfold OMap.values. rewrite in_map_iff. split.
  - intros ([k v'] & <- & Hin). by exists k.
  - intros [k Hin]. by exists (k, v).
Qed.

(** The whole of [search], for a well-formed index. *)
Lemma search_spec s query limit :
  WfIndex s ->
  exists rs all,
    Ingestion.search s query limit = Some rs /\
    (exists k, rs = firstn k all /\ (0 <= limit -> k = Z.to_nat limit)) /\
    StronglySorted byScore all /\
    NoDup (map Ingestion.sr_case_id all) /\
    (forall r, In r all <->
       perCase s (Ingestion.tokenize query) (Ingestion.sr_case_id r) None = Some r).
Proof.
  intros Hwf. destruct (search_eq s query limit Hwf) as (res & Hs & Hnd & Hg).
  exists (Js.slice0 limit (Ingestion.sortByScore (OMap.values res))),
         (Ingestion.sortByScore (OMap.values res)).
  split; [done|]. split; [apply slice0_firstn|].
  split; [apply sortByScore_sorted|].
  assert (forall id r, In (id, r) res -> Ingestion.sr_case_id r = id) as Hid.
  { intros id r Hin. apply (get_of_In _ _ _ Hnd) in Hin. rewrite Hg in Hin.
    pose proof (perCase_spec s (Ingestion.tokenize query) id Hwf) as Hp.
    rewrite Hin in Hp. tauto. }
  assert (map Ingestion.sr_case_id (OMap.values res) = map fst res) as Hkeys.
  { unfold OMap.values. rewrite map_map. apply map_ext_in.
    intros [id r] Hin. simpl. by apply Hid. }
  split.
  - rewrite (sortByScore_perm (OMap.values res)). by rewrite Hkeys.
  - intros r. rewrite <- Hg.
    transitivity (In r (OMap.values res)).
    { split; apply Permutation_in; [|symmetry]; apply sortByScore_perm. }
    rewrite values_In. split.
    + intros [id Hin]. rewrite (Hid _ _ Hin). by apply get_of_In.
    + intros Hget%OMapFacts.get_Some_In. eauto.
Qed.

Lemma length_of_list_le (l : list string) :
  (length (OSet.of_list l) <= length l)%nat.
Proof.
  induction l as [|k l IH] using rev_ind; [done|].
  rewrite of_list_snoc, length_app. unfold OSet.add.
  destruct (OSet.has k _); [simpl; lia|]. rewrite length_app. simpl. lia.
Qed.

(** There are at most as many results as ingested cases. *)
Lemma results_length cs (all : list Ingestion.SearchResult) :
  NoDup (map Ingestion.sr_case_id all) ->
  (forall r, In r all ->
     OMap.has (Ingestion.sr_case_id r) (Ingestion.indexedCases (ledger cs)) = true) ->
  (length all <= length cs)%nat.
Proof.
  intros Hnd Hin.
  rewrite <- (length_map Ingestion.sr_case_id all).
  rewrite <- (length_map case_id cs).
  etransitivity; [|apply (length_of_list_le (map case_id cs))].
  rewrite <- getAllCaseIds_ledger. apply submseteq_length, NoDup_submseteq; [done|].
  intros id (r & <- & Hr)%list_elem_of_In%in_map_iff.
  apply list_elem_of_In, OMapFacts.has_In_keys. by apply Hin.
Qed.

(** [search] on a ledger built by ingestion. *)
Lemma search_ledger (cs : list CaseStudyEnhanced)
    (query : string) (limit : Z) :
  exists rs,
    Ingestion.search (ledger cs) query limit = Some rs /\
    StronglySorted byScore rs /\
    NoDup (map Ingestion.sr_case_id rs) /\
    (0 <= limit -> Z.of_nat (length rs) <= limit) /\
    forall r, In r rs ->
      let id := Ingestion.sr_case_id r in
      Ingestion.getCaseById (ledger cs) id <> None /\
      Ingestion.matched_keywords r =
        filter (fun t => id ∈ idsFor (ledger cs) t) (Ingestion.tokenize query) /\
      Ingestion.matched_keywords r <> [] /\
      ((1 # 2) * inject_Z (Z.of_nat (length (Ingestion.matched_keywords r)))
       <= Ingestion.relevance_score r)%Q /\
      (forall x, In x (Ingestion.matched_artifacts r) ->
                 Ingestion.getArtifact (ledger cs) id x <> None) /\
      (forall x, In x (Ingestion.matched_findings r) ->
                 Ingestion.getFinding (ledger cs) id x <> None).
Proof.
  destruct (search_spec (ledger cs) query limit (WfIndex_ledger cs))
    as (rs & all & Hs & (k & -> & Hk) & Hsort & Hnd & Hall).
  exists (firstn k all). split; [done|].
  split; [by apply StronglySorted_firstn|]. split.
  { rewrite <- (firstn_skipn k all), map_app in Hnd.
    by apply NoDup_app in Hnd as [? _]. }
  split.
  { intros Hl. rewrite length_firstn, (Hk Hl). lia. }
  intros r Hr id.
  assert (In r all) as Hin.
  { rewrite <- (firstn_skipn k all). apply in_or_app. by left. }
  apply Hall in Hin.
  pose proof (perCase_spec (ledger cs) (Ingestion.tokenize query) id
                (WfIndex_ledger cs)) as Hp.
  fold id in Hin. rewrite Hin in Hp.
  destruct Hp as ((t & Ht & Hid) & _ & Hkw & Hsc & ic & Hic & Ha & Hf).
  unfold Ingestion.getCaseById, Ingestion.getArtifact, Ingestion.getFinding.
  rewrite Hic. split; [done|]. split; [done|]. split.
  { rewrite Hkw. intros E.
    assert (t ∈ filter (fun t => id ∈ idsFor (ledger cs) t)
                  (Ingestion.tokenize query)) as Hin'
      by (by apply list_elem_of_filter).
    rewrite E in Hin'. by apply elem_of_nil in Hin'. }
  split; [done|]. split.
  - intros x Hx%Ha%OMapFacts.has_In_keys.
    destruct (has_true_get _ _ Hx) as [? ->]. done.
  - intros x Hx%Hf%OMapFacts.has_In_keys.
    destruct (has_true_get _ _ Hx) as [? ->]. done.
Qed.

(** *** Citations of two parts *)

Lemma split_no_sep sep s :
  allChars (fun c => negb (bool_decide (c = sep))) s = true ->
  Js.split sep s = [s].
Proof.
  induction s as [|c r IH]; simpl; [done|].
  intros [Hc Hr]%andb_true_iff. rewrite (IH Hr).
  destruct (ascii_dec c sep) as [->|]; [|done].
  by rewrite bool_decide_true in Hc.
Qed.

Lemma split_two sep a b :
  allChars (fun c => negb (bool_decide (c = sep))) a = true ->
  allChars (fun c => negb (bool_decide (c = sep))) b = true ->
  Js.split sep (a +:+ String sep b) = [a; b].
Proof.
  intros Ha Hb. induction a as [|c r IH].
  - change (Js.split sep (String sep b) = [""; b]). simpl.
    destruct (ascii_dec sep sep); [|done]. by rewrite (split_no_sep _ _ Hb).
  - simpl in Ha. apply andb_true_iff in Ha as [Hc Hr].
    change (Js.split sep (String c (r +:+ String sep b)) = [String c r; b]).
    simpl. rewrite (IH Hr).
    destruct (ascii_dec c sep) as [->|]; [|done].
    by rewrite bool_decide_true in Hc.
Qed.

(** *** The suggestion tries *)

Lemma fold_artifacts_trie (l : list ForensicArtifact) :
  forall (m : list (string * ForensicArtifact)) t (kws : list string),
    snd (fst (fold_left
      (fun '(amap, atrie, kws) a =>
         (OMap.set (artifact_id a) a amap,
          Trie.insert (Js.toLowerCase (type a)) atrie,
          OSet.add (Js.toLowerCase (type a)) kws))
      l (m, t, kws)))
    = fold_left (fun t w => Trie.insert w t)
        (map (fun a => Js.toLowerCase (type a)) l) t.
Proof.
  induction l as [|a l IH]; intros m t kws; [done|]. cbn [fold_left map].
  apply IH.
Qed.

Lemma fold_tools_trie (l : list ToolUsage) :
  forall (tn : list string) t (kws : list string),
    snd (fst (fold_left
      (fun '(tnames, ttrie, kws) t =>
         (OSet.add (tool_name t) tnames,
          Trie.insert (Js.toLowerCase (tool_name t)) ttrie,
          OSet.add (Js.toLowerCase (tool_name t)) kws))
      l (tn, t, kws)))
    = fold_left (fun t w => Trie.insert w t)
        (map (fun t => Js.toLowerCase (tool_name t)) l) t.
Proof.
  induction l as [|a l IH]; intros tn t kws; [done|]. cbn [fold_left map].
  apply IH.
Qed.

Lemma tries_ingestCase c s :
  Ingestion.caseTrie (Ingestion.ingestCase c s) =
    Trie.insert (Js.toLowerCase (title c))
      (Trie.insert (Js.toLowerCase (case_id c)) (Ingestion.caseTrie s)) /\
  Ingestion.artifactTrie (Ingestion.ingestCase c s) =
    fold_left (fun t w => Trie.insert w t)
      (map (fun a => Js.toLowerCase (type a)) (artifacts c))
      (Ingestion.artifactTrie s) /\
  Ingestion.toolTrie (Ingestion.ingestCase c s) =
    fold_left (fun t w => Trie.insert w t)
      (map (fun t => Js.toLowerCase (tool_name t)) (tools_used c))
      (Ingestion.toolTrie s).
Proof.
  unfold Ingestion.ingestCase.
  pose proof (fold_artifacts_trie (artifacts c) [] (Ingestion.artifactTrie s)
                (Ingestion.extractKeywords c [])) as Ha.
  destruct (fold_left _ (artifacts c) _) as [[amap atrie] kws1]. simpl in Ha.
  destruct (fold_left _ (findings c) _) as [fmap kws2].
  pose proof (fold_tools_trie (tools_used c) [] (Ingestion.toolTrie s) kws2) as Ht.
  destruct (fold_left _ (tools_used c) _) as [[tnames ttrie] kws3]. simpl in Ht.
  destruct (fold_left _ (keywords c) _) as [kws4 index]. simpl. auto.
Qed.

Lemma tries_ledger cs :
  Ingestion.caseTrie (ledger cs) = Trie.insertAll (caseWords cs) /\
  Ingestion.artifactTrie (ledger cs) = Trie.insertAll (artifactWords cs) /\
  Ingestion.toolTrie (ledger cs) = Trie.insertAll (toolWords cs).
Proof.
  unfold ledger, caseWords, artifactWords, toolWords, Trie.insertAll.
  induction cs as [|c cs IH] using rev_ind; [done|].
  rewrite ingestCases_snoc, !flat_map_app. cbn [flat_map].
  rewrite !app_nil_r, !fold_left_app.
  destruct IH as (IH1 & IH2 & IH3).
  destruct (tries_ingestCase c (Ingestion.ingestCases cs Ingestion.empty))
    as (-> & -> & ->).
  rewrite IH1, IH2, IH3. done.
Qed.

Lemma suggestions_from ws prefix limit x :
  (forall w, In w ws -> Js.toLowerCase w = w) ->
  x ∈ Trie.autocomplete (Trie.insertAll ws) (Js.toLowerCase prefix) limit ->
  In x ws /\ Js.startsWith x (Js.toLowerCase prefix) = true.
Proof.
  intros Hlow Hx. rewrite TrieFacts2.insertAll_run in Hx.
  pose proof (TrieFacts2.autocomplete_inserted _ _ _ _ Hx) as Hin.
  apply in_map_iff in Hin as (w & [= ->] & Hw). split; [done|].
  pose proof (TrieFacts.autocomplete_prefix (map Trie.OpInsert ws)
                (Js.toLowerCase prefix) limit) as Hall.
  rewrite Forall_forall in Hall. specialize (Hall x Hx).
  by rewrite JsFacts.toLowerCase_idem, (Hlow x Hw) in Hall.
Qed.

(** *** Cases by artifact type and by tool *)

Lemma fold_tools_names (l : list ToolUsage) :
  forall (tn : list string) t (kws : list string),
    fst (fst (fold_left
      (fun '(tnames, ttrie, kws) t =>
         (OSet.add (tool_name t) tnames,
          Trie.insert (Js.toLowerCase (tool_name t)) ttrie,
          OSet.add (Js.toLowerCase (tool_name t)) kws))
      l (tn, t, kws)))
    = fold_left (fun s x => OSet.add x s) (map tool_name l) tn.
Proof.
  induction l as [|a l IH]; intros tn t kws; [done|]. cbn [fold_left map].
  apply IH.
Qed.

Lemma ingestCase_entry c s :
  exists ic,
    Ingestion.indexedCases (Ingestion.ingestCase c s)
      = OMap.set (case_id c) ic (Ingestion.indexedCases s) /\
    Ingestion.ic_case ic = c /\
    Ingestion.artifact_map ic = artifactMapOf c /\
    Ingestion.tool_names ic = OSet.of_list (map tool_name (tools_used c)).
Proof.
  unfold Ingestion.ingestCase.
  pose proof (fold_artifacts c (Ingestion.artifactTrie s)
                (Ingestion.extractKeywords c []) (artifacts c) []) as Ha.
  destruct (fold_left _ (artifacts c) _) as [[amap atrie] kws1]. simpl in Ha.
  destruct (fold_left _ (findings c) _) as [fmap kws2].
  pose proof (fold_tools_names (tools_used c) [] (Ingestion.toolTrie s) kws2) as Ht.
  destruct (fold_left _ (tools_used c) _) as [[tnames ttrie] kws3]. simpl in Ht.
  destruct (fold_left _ (keywords c) _) as [kws4 index].
  eexists. simpl. split; [reflexivity|]. simpl. auto.
Qed.

(** Every entry of the ledger is the entry of the last case ingested
    under its key. *)
Lemma ledger_entries cs :
  NoDup (map fst (Ingestion.indexedCases (ledger cs))) /\
  forall k ic, In (k, ic) (Ingestion.indexedCases (ledger cs)) ->
    caseOf cs k = Some (Ingestion.ic_case ic) /\
    Ingestion.artifact_map ic = artifactMapOf (Ingestion.ic_case ic) /\
    Ingestion.tool_names ic =
      OSet.of_list (map tool_name (tools_used (Ingestion.ic_case ic))).
Proof.
  split.
  { change (map fst ?m) with (OMap.keys m).
    pose proof (getAllCaseIds_ledger cs) as Hk.
    unfold Ingestion.getAllCaseIds in Hk. rewrite Hk. apply NoDup_of_list. }
  unfold ledger, caseOf. induction cs as [|c cs IH] using rev_ind; [done|].
  rewrite ingestCases_snoc, rev_app_distr. simpl.
  destruct (ingestCase_entry c (Ingestion.ingestCases cs Ingestion.empty))
    as (ic0 & -> & Hc & Ha & Ht).
  intros k ic Hin.
  destruct (String.eqb (case_id c) k) eqn:E.
  - apply String.eqb_eq in E. subst k.
    assert (ic = ic0) as ->.
    { pose proof (getAllCaseIds_ledger (cs ++ [c])) as Hk.
      unfold Ingestion.getAllCaseIds, ledger in Hk.
      rewrite ingestCases_snoc in Hk.
      destruct (ingestCase_entry c (Ingestion.ingestCases cs Ingestion.empty))
        as (ic1 & E1 & _).
      assert (NoDup (map fst (OMap.set (case_id c) ic0
                (Ingestion.indexedCases (Ingestion.ingestCases cs Ingestion.empty)))))
        as Hnd.
      { apply NoDup_keys_set.
        change (map fst ?m) with (OMap.keys m).
        pose proof (getAllCaseIds_ledger cs) as Hk'.
        unfold Ingestion.getAllCaseIds, ledger in Hk'. rewrite Hk'.
        apply NoDup_of_list. }
      apply (get_of_In _ _ _ Hnd) in Hin.
      rewrite OMapFacts.get_set, decide_True in Hin by done. congruence. }
    rewrite Hc. auto.
  - apply String.eqb_neq in E.
    apply OMapFacts.In_set in Hin as [[= ? ?]|Hin]; [congruence|].
    by apply IH.
Qed.

Lemma fold_push {A B} (p : A -> bool) (f : A -> B) (l : list A) : forall acc,
  fold_left (fun results x => if p x then results ++ [f x] else results) l acc
  = acc ++ map f (List.filter p l).
Proof.
  induction l as [|x l IH]; intros acc; simpl; [by rewrite app_nil_r|].
  rewrite IH. destruct (p x); [|done]. simpl. by rewrite <- app_assoc.
Qed.

Lemma NoDup_artifactMapOf c : NoDup (map fst (artifactMapOf c)).
Proof.
  unfold artifactMapOf. generalize (artifacts c). intros l.
  induction l as [|a l IH] using rev_ind; [constructor|].
  rewrite fold_left_app. simpl. by apply NoDup_keys_set.
Qed.

Lemma stored_cases cs (p : Ingestion.IndexedCase -> bool) :
  let r := map Ingestion.ic_case
             (List.filter p (OMap.values (Ingestion.indexedCases (ledger cs)))) in
  NoDup (map case_id r) /\
  forall c, In c r <->
    exists ic, OMap.get (case_id c) (Ingestion.indexedCases (ledger cs)) = Some ic /\
               Ingestion.ic_case ic = c /\ p ic = true.
Proof.
  destruct (ledger_entries cs) as [Hnd Hent].
  set (m := Ingestion.indexedCases (ledger cs)) in *.
  assert (forall k ic, In (k, ic) m -> case_id (Ingestion.ic_case ic) = k) as Hkey.
  { intros k ic Hin. destruct (Hent k ic Hin) as [Hc _].
    by eapply ledger_caseOf_id. }
  intros r. split.
  - unfold r. clear r. unfold OMap.values.
    induction m as [|[k ic] m IH]; [constructor|].
    simpl in Hnd. apply NoDup_cons in Hnd as [Hk Hnd]. simpl.
    assert (NoDup (map case_id (map Ingestion.ic_case (List.filter p (map snd m)))))
      as IH'.
    { apply IH; [done| |].
      - intros k' ic' Hin. apply Hent. by right.
      - intros k' ic' Hin. apply Hkey. by right. }
    destruct (p ic); [|done]. simpl. apply NoDup_cons. split; [|done].
    rewrite (Hkey k ic) by (by left).
    intros Hin. apply Hk.
    apply list_elem_of_In, in_map_iff in Hin as (c & <- & Hc).
    apply in_map_iff in Hc as (ic' & <- & Hic').
    apply filter_In in Hic' as [Hic' _].
    apply in_map_iff in Hic' as ([k' ic''] & <- & Hin').
    simpl. rewrite (Hkey k' ic'') by (by right).
    apply list_elem_of_In, in_map_iff. by exists (k', ic'').
  - intros c. unfold r. rewrite in_map_iff. split.
    + intros (ic & <- & [Hin Hp]%filter_In).
      apply values_In in Hin as [k Hin]. exists ic.
      rewrite (Hkey k ic Hin). split; [by apply get_of_In|done].
    + intros (ic & Hget & <- & Hp). exists ic. split; [done|].
      apply filter_In. split; [|done].
      apply values_In. eexists. by apply OMapFacts.get_Some_In.
Qed.

End LedgerFacts2.

(** ** Facts about migration, citation extraction and the query pipeline *)

Module PipelineFacts.
Import Schema LedgerSpec LedgerFacts LedgerModel LedgerFacts2 PipelineModel
  OMapFacts2.

(** *** Strings *)

Lemma append_inj_l (p a b : string) : p +:+ a = p +:+ b -> a = b.
Proof.
  induction p as [|c p IH]; [done|].
  change (String c (p +:+ a) = String c (p +:+ b) -> a = b).
  intros [= E]. auto.
Qed.

Lemma allChars_app p a b :
  allChars p (a +:+ b) = allChars p a && allChars p b.
Proof.
  induction a as [|c a IH]; [done|].
  change (allChars p (String c (a +:+ b)) = allChars p (String c a) && allChars p b).
  simpl. by rewrite IH, andb_assoc.
Qed.

Lemma string_length_app (a b : string) :
  String.length (a +:+ b) = (String.length a + String.length b)%nat.
Proof.
  induction a as [|c a IH]; [done|].
  change (String.length (String c (a +:+ b)) =
          (String.length (String c a) + String.length b)%nat).
  simpl. by rewrite IH.
Qed.

Lemma showZ_inj a b : 0 < a -> 0 < b -> Js.showZ a = Js.showZ b -> a = b.
Proof.
  intros Ha Hb. destruct a as [|p|p], b as [|q|q]; try lia.
  unfold Js.showZ. simpl. intros E.
  apply (f_equal NilZero.uint_of_string) in E.
  rewrite !NilZero.usu in E by apply Unsigned.to_uint_nonnil.
  injection E as E. by apply Unsigned.to_uint_inj in E as ->.
Qed.

Lemma digits_uint p d :
  (forall c, Js.is_digit c = true -> p c = true) ->
  allChars p (NilZero.string_of_uint d) = true.
Proof.
  intros Hp.
  assert (allChars p (NilEmpty.string_of_uint d) = true) as He.
  { induction d; simpl; [done|..]; rewrite IHd, andb_true_r;
      apply Hp; by vm_compute. }
  destruct d; try exact He. simpl. rewrite andb_true_r. apply Hp. by vm_compute.
Qed.

Lemma digits_showZ p n :
  0 <= n -> (forall c, Js.is_digit c = true -> p c = true) ->
  allChars p (Js.showZ n) = true.
Proof.
  intros Hn Hp. unfold Js.showZ. destruct n as [|q|q]; [|by apply digits_uint|lia].
  simpl. rewrite andb_true_r. apply Hp. by vm_compute.
Qed.

(** *** Indexed maps *)

Lemma length_mapi {A B} (f : A -> nat -> B) xs : forall i,
  length (Migration.mapi f i xs) = length xs.
Proof. induction xs as [|x xs IH]; intros i; simpl; [done|]. by rewrite IH. Qed.

Lemma map_mapi {A B C} (g : B -> C) (f : A -> nat -> B) (h : nat -> C) xs :
  (forall x j, g (f x j) = h j) ->
  forall i, map g (Migration.mapi f i xs) = map h (seq i (length xs)).
Proof.
  intros Hg. induction xs as [|x xs IH]; intros i; simpl; [done|].
  by rewrite Hg, IH.
Qed.

Lemma In_mapi {A B} (f : A -> nat -> B) xs y : forall i,
  In y (Migration.mapi f i xs) -> exists x j, In x xs /\ y = f x j.
Proof.
  induction xs as [|x xs IH]; intros i; simpl; [done|].
  intros [<-|Hin]; [exists x, i; auto|].
  destruct (IH _ Hin) as (x' & j & ? & ?). exists x', j. auto.
Qed.

Lemma mapi_nil_iff {A B} (f : A -> nat -> B) xs i :
  Migration.mapi f i xs = [] <-> xs = [].
Proof. by destruct xs. Qed.

Lemma NoDup_numbered (pre : string) i n :
  NoDup (map (fun j => pre +:+ Js.showZ (Z.of_nat j + 1)) (seq i n)).
Proof.
  apply NoDup_ListNoDup, Finite.Injective_map_NoDup; [|apply seq_NoDup].
  intros a b E. apply append_inj_l, showZ_inj in E; lia.
Qed.

(** *** migrateLegacyCase *)

Lemma migrate_artifact_ids l :
  map artifact_id (artifacts (Migration.migrateLegacyCase l)) =
  map (fun j => Migration.id l +:+ "_artifact_" +:+ Js.showZ (Z.of_nat j + 1))
      (seq 0 (length (Migration.lc_artifacts l))).
Proof. unfold Migration.migrateLegacyCase. simpl. by apply map_mapi. Qed.

Lemma migrate_finding_ids l :
  map finding_id (findings (Migration.migrateLegacyCase l)) =
  map (fun j => Migration.id l +:+ "_finding_" +:+ Js.showZ (Z.of_nat j + 1))
      (seq 0 (length (Migration.outcomes l))).
Proof. unfold Migration.migrateLegacyCase. simpl. by apply map_mapi. Qed.

Lemma numbered_assoc (a b c : string) : a +:+ b +:+ c = (a +:+ b) +:+ c.
Proof. by rewrite TrieFacts.append_assoc. Qed.

Lemma NoDup_migrate_ids l :
  NoDup (map artifact_id (artifacts (Migration.migrateLegacyCase l))) /\
  NoDup (map finding_id (findings (Migration.migrateLegacyCase l))).
Proof.
  rewrite migrate_artifact_ids, migrate_finding_ids. split.
  - erewrite map_ext; [apply (NoDup_numbered (Migration.id l +:+ "_artifact_"))|].
    intros j. apply numbered_assoc.
  - erewrite map_ext; [apply (NoDup_numbered (Migration.id l +:+ "_finding_"))|].
    intros j. apply numbered_assoc.
Qed.

Lemma slice0_incl {A} n (l : list A) x : In x (Js.slice0 n l) -> In x l.
Proof.
  destruct (slice0_firstn n l) as (k & -> & _). intros Hx.
  rewrite <- (firstn_skipn k l). apply in_or_app. by left.
Qed.

Lemma slice0_length {A} n (l : list A) :
  0 <= n -> Z.of_nat (length (Js.slice0 n l)) <= n.
Proof.
  intros Hn. destruct (slice0_firstn n l) as (k & -> & Hk).
  rewrite length_firstn, (Hk Hn). lia.
Qed.

Lemma NoDup_firstn {A} k (l : list A) : NoDup l -> NoDup (firstn k l).
Proof.
  intros Hnd. rewrite <- (firstn_skipn k l) in Hnd.
  by apply NoDup_app in Hnd as [? _].
Qed.

Lemma NoDup_slice0 {A} n (l : list A) : NoDup l -> NoDup (Js.slice0 n l).
Proof.
  destruct (slice0_firstn n l) as (k & -> & _). apply NoDup_firstn.
Qed.

Lemma dedupe_of_list xs : Migration.dedupe xs = OSet.of_list xs.
Proof. done. Qed.

Lemma migrate_tool_names l :
  map tool_name (tools_used (Migration.migrateLegacyCase l)) =
  OSet.of_list (map Migration.ls_tool (Migration.workflow l)).
Proof.
  unfold Migration.migrateLegacyCase. simpl. rewrite map_map. simpl.
  by rewrite map_id.
Qed.

Lemma of_list_nil_iff (xs : list string) : OSet.of_list xs = [] <-> xs = [].
Proof.
  split; [|by intros ->]. destruct xs as [|x xs]; [done|]. intros E.
  assert (x ∈ OSet.of_list (x :: xs)) as Hin
    by (apply elem_of_of_list; by left).
  rewrite E in Hin. by apply elem_of_nil in Hin.
Qed.

Lemma NoDup_fold_add (xs : list string) : forall s,
  NoDup s -> NoDup (fold_left (fun s x => OSet.add x s) xs s).
Proof.
  induction xs as [|x xs IH]; intros s Hs; simpl; [done|].
  by apply IH, NoDup_add.
Qed.

Lemma NoDup_extractKeywords l : NoDup (Migration.extractKeywords l).
Proof.
  unfold Migration.extractKeywords. cbv zeta. apply NoDup_slice0.
  apply NoDup_fold_add.
  assert (forall (ws : list Migration.LegacyStep) s,
            NoDup s ->
            NoDup (fold_left (fun s w => OSet.add (Js.toLowerCase (Migration.ls_tool w)) s)
                     ws s)) as Htools.
  { induction ws as [|w ws IH]; intros s Hs; simpl; [done|].
    by apply IH, NoDup_add. }
  apply Htools.
  assert (forall (ws : list string) s,
            NoDup s ->
            NoDup (fold_left
                     (fun s word =>
                        if 3 <? Js.strlen word
                        then OSet.add (Js.toLowerCase word) s else s) ws s))
    as Hwords.
  { induction ws as [|w ws IH]; intros s Hs; simpl; [done|].
    apply IH. destruct (_ <? _); [by apply NoDup_add|done]. }
  assert (forall (arts : list Migration.LegacyArtifact) s,
            NoDup s ->
            NoDup (fold_left
                     (fun s art =>
                        fold_left
                          (fun s word =>
                             if 3 <? Js.strlen word
                             then OSet.add (Js.toLowerCase word) s else s)
                          (Js.split " " (Migration.la_type art)) s) arts s))
    as Harts.
  { induction arts as [|a arts IH]; intros s Hs; simpl; [done|].
    by apply IH, Hwords. }
  apply Harts, NoDup_fold_add. constructor.
Qed.

(** *** extractCitations *)

Lemma filterChars_id keep s :
  allChars keep s = true -> Js.filterChars keep s = s.
Proof.
  induction s as [|c r IH]; simpl; [done|].
  intros [Hc Hr]%andb_true_iff. by rewrite Hc, IH.
Qed.

Lemma matchCitations_nil fuel : PromptTemplates.matchCitations fuel "" = [].
Proof. by destruct fuel. Qed.

Lemma matchCitations_skip pre rest : forall fuel,
  allChars (fun c => negb (bool_decide (c = "["%char))) pre = true ->
  PromptTemplates.matchCitations (String.length pre + fuel) (pre +:+ rest) =
  PromptTemplates.matchCitations fuel rest.
Proof.
  induction pre as [|c pre IH]; intros fuel; [done|].
  change (String c pre +:+ rest) with (String c (pre +:+ rest)).
  simpl. intros [Hc Hp]%andb_true_iff.
  destruct (ascii_dec c "[") as [->|]; [by rewrite bool_decide_true in Hc|].
  by apply IH.
Qed.

Lemma bracketBody_app body post :
  allChars (fun c => negb (bool_decide (c = "]"%char))) body = true ->
  PromptTemplates.bracketBody (body +:+ String "]" post) = Some (body, post).
Proof.
  induction body as [|c body IH]; intros Hb.
  - change (PromptTemplates.bracketBody (String "]" post) = Some ("", post)).
    simpl. by destruct (ascii_dec "]" "]").
  - change (String c body +:+ String "]" post)
      with (String c (body +:+ String "]" post)).
    simpl in *. apply andb_true_iff in Hb as [Hc Hb].
    destruct (ascii_dec c "]") as [->|]; [by rewrite bool_decide_true in Hc|].
    by rewrite (IH Hb).
Qed.

Lemma noBracket_split s :
  noBracket s = true ->
  allChars (fun c => negb (bool_decide (c = "["%char))) s = true /\
  allChars (fun c => negb (bool_decide (c = "]"%char))) s = true.
Proof.
  unfold noBracket. intros Hs.
  split; revert Hs; apply allChars_impl; intros c;
    destruct (bool_decide (c = "["%char)), (bool_decide (c = "]"%char)); done.
Qed.

Lemma extractCitations_noBracket response :
  Forall (fun x => noBracket x = true)
         (PromptTemplates.extractCitations response).
Proof.
  unfold PromptTemplates.extractCitations. apply List.Forall_forall.
  intros x (m & <- & _)%in_map_iff. apply allChars_filterChars_keep.
Qed.

Lemma extractCitations_plain text :
  allChars (fun c => negb (bool_decide (c = "["%char))) text = true ->
  PromptTemplates.extractCitations text = [].
Proof.
  intros Ht. unfold PromptTemplates.extractCitations.
  pose proof (matchCitations_skip text "" 1 Ht) as Hs.
  rewrite TrieFacts.append_nil_r, Nat.add_1_r in Hs. by rewrite Hs.
Qed.

Lemma extractCitations_bracket pre cit post :
  allChars (fun c => negb (bool_decide (c = "["%char))) pre = true ->
  cit <> "" -> noBracket cit = true ->
  PromptTemplates.extractCitations (pre +:+ "[" +:+ cit +:+ "]" +:+ post) =
  cit :: PromptTemplates.extractCitations post.
Proof.
  intros Hpre Hne Hcit. destruct (noBracket_split _ Hcit) as [_ Hclose].
  unfold PromptTemplates.extractCitations.
  change (pre +:+ "[" +:+ cit +:+ "]" +:+ post)
    with (pre +:+ String "[" (cit +:+ String "]" post)).
  rewrite string_length_app. cbn [String.length].
  rewrite string_length_app. cbn [String.length].
  replace (S (String.length pre +
              S (String.length cit + S (String.length post))))
    with (String.length pre +
          S (S (String.length cit + S (String.length post))))%nat by lia.
  rewrite (matchCitations_skip _ _ _ Hpre).
  set (F := S (String.length cit + S (String.length post))).
  set (rhs := PromptTemplates.matchCitations (S (String.length post)) post).
  cbn [PromptTemplates.matchCitations].
  destruct (ascii_dec "[" "[") as [_|]; [|done].
  rewrite (bracketBody_app _ _ Hclose).
  destruct cit as [|b body]; [done|]. cbn [map]. f_equal.
  - by apply filterChars_id.
  - f_equal. subst rhs F. apply matchCitations_fuel; lia.
Qed.

(** *** The loaded service *)

Lemma loaded_ledger ls :
  RAGService.ingestionService (loaded ls) =
  ledger (map Migration.migrateLegacyCase ls).
Proof. done. Qed.

Lemma loaded_get ls cid :
  OMap.get cid (RAGService.enhancedCases (loaded ls)) =
  caseOf (map Migration.migrateLegacyCase ls) cid.
Proof.
  unfold loaded, RAGService.initializeFromLegacy. simpl.
  rewrite (get_fold_set case_id). unfold caseOf. by destruct (List.find _ _).
Qed.

Lemma loaded_keys ls :
  OMap.keys (RAGService.enhancedCases (loaded ls)) =
  Ingestion.getAllCaseIds (RAGService.ingestionService (loaded ls)).
Proof.
  rewrite loaded_ledger, getAllCaseIds_ledger.
  unfold loaded, RAGService.initializeFromLegacy. simpl.
  generalize (map Migration.migrateLegacyCase ls). intros cs.
  induction cs as [|c cs IH] using rev_ind; [done|].
  rewrite fold_left_app, map_app. cbn [map fold_left].
  by rewrite of_list_snoc, <- IH, keys_set.
Qed.

Lemma caseOf_elem cs cid c : caseOf cs cid = Some c -> In c cs /\ case_id c = cid.
Proof.
  intros E. split; [|by eapply ledger_caseOf_id].
  unfold caseOf in E. apply find_some in E as [E _]. by apply in_rev.
Qed.

Lemma caseOf_NoDup cs c :
  NoDup (map case_id cs) -> In c cs -> caseOf cs (case_id c) = Some c.
Proof.
  intros Hnd Hin. destruct (caseOf_In cs c Hin) as [c' Hc'].
  rewrite Hc'. f_equal. destruct (caseOf_elem _ _ _ Hc') as [Hin' Hid].
  clear Hc'. induction cs as [|a cs IH]; [done|].
  simpl in Hnd. apply NoDup_cons in Hnd as [Ha Hnd].
  destruct Hin as [->|Hin], Hin' as [->|Hin']; try done.
  - destruct Ha. rewrite <- Hid. apply list_elem_of_In, in_map. done.
  - destruct Ha. rewrite Hid. apply list_elem_of_In, in_map. done.
  - auto.
Qed.

(** *** Citations of a response *)

Lemma parse_valid s cit :
  Ingestion.validateCitation s cit = true ->
  CitesRecord s (RAGService.parseCitation cit).
Proof.
  unfold Ingestion.validateCitation, RAGService.parseCitation, CitesRecord,
    Ingestion.getCaseById, Ingestion.getArtifact, Ingestion.getFinding.
  destruct (Js.split ":" cit) as [|cid [|item [|? ?]]]; [done| | |done].
  - simpl. intros [ic ->]%has_true_get. split; [done|]. split; by intros.
  - simpl. destruct (OMap.get cid (Ingestion.indexedCases s)) as [ic|]; [|done].
    intros [[v Hv]%has_true_get|[v Hv]%has_true_get]%orb_true_iff;
      (split; [done|]; split; [|done]); intros a [= <-]; rewrite Hv; auto.
Qed.

Lemma head_In {A} (l : list A) x : head l = Some x -> In x l.
Proof. destruct l; [done|]. intros [= ->]. by left. Qed.

Lemma fallback_valid cs query limit rs r :
  Ingestion.search (ledger cs) query limit = Some rs -> In r rs ->
  CitesRecord (ledger cs)
    (mkCitation (Ingestion.sr_case_id r)
       (head (Ingestion.matched_artifacts r))
       (head (Ingestion.matched_findings r))
       (Ingestion.relevance_score r)) /\
  (1 # 2 <= Ingestion.relevance_score r)%Q.
Proof.
  intros Hs Hr. destruct (search_ledger cs query limit) as (rs' & Hs' & _ & _ & _ & Hall).
  assert (rs' = rs) as -> by congruence.
  destruct (Hall r Hr) as (H1 & H2 & H3 & H4 & H5 & H6). cbv zeta in *.
  split.
  - split; [done|]. simpl. split.
    + intros a Ha%head_In. left. by apply H5.
    + intros f Hf%head_In. by apply H6.
  - destruct (Ingestion.matched_keywords r) as [|k ks]; [done|].
    simpl length in H4. rewrite Nat2Z.inj_succ, <- Z.add_1_r, inject_Z_plus in H4.
    assert (0 <= inject_Z (Z.of_nat (length ks)))%Q as Hpos.
    { change 0%Q with (inject_Z 0). rewrite <- Zle_Qle. lia. }
    change (inject_Z 1) with 1%Q in H4. lra.
Qed.

Lemma processQuery_cites cs ec q r :
  RAGService.processQuery (RAGService.mkService (ledger cs) ec) q = Some r ->
  Forall (fun c => CitesRecord (ledger cs) c /\ (1 # 2 <= cit_confidence c)%Q)
         (citations r) /\
  ((citations r = [] /\ response_confidence r = 0%Q) \/
   (citations r <> [] /\ (1 # 2 <= response_confidence r)%Q)).
Proof.
  unfold RAGService.processQuery.
  destruct (negb (RAGService.isForensicQuery q)).
  { intros [= <-]. simpl. split; [constructor|by left]. }
  cbv zeta. cbn [RAGService.ingestionService RAGService.enhancedCases].
  destruct (Ingestion.search (ledger cs) q 3) as [[|top rest]|] eqn:Es; [| |done].
  { intros [= <-]. simpl. split; [constructor|by left]. }
  destruct (RAGService.generateResponse _ _ _) as [ans|]; [|done].
  destruct (RAGService.generateFollowUps _ _) as [fu|]; [|done].
  intros [= <-]. simpl.
  assert (Forall (fun c => CitesRecord (ledger cs) c /\ (1 # 2 <= cit_confidence c)%Q)
            (map RAGService.parseCitation
               (RAGService.validatedCitationStrings (ledger cs) ans))) as Hval.
  { apply List.Forall_forall. intros c (cit & <- & Hcit)%in_map_iff.
    unfold RAGService.validatedCitationStrings in Hcit.
    apply list_elem_of_In, list_elem_of_filter in Hcit as [Hv _].
    split; [by apply parse_valid|]. simpl. by vm_compute. }
  assert (Forall (fun c => CitesRecord (ledger cs) c /\ (1 # 2 <= cit_confidence c)%Q)
            (map (fun result =>
                    mkCitation (Ingestion.sr_case_id result)
                      (head (Ingestion.matched_artifacts result))
                      (head (Ingestion.matched_findings result))
                      (Ingestion.relevance_score result))
               (top :: rest))) as Hfb.
  { apply List.Forall_forall. intros c (res & <- & Hres)%in_map_iff.
    destruct (fallback_valid cs q 3 _ res Es Hres) as [? ?]. by split. }
  destruct (fallback_valid cs q 3 _ top Es ltac:(by left)) as [_ Htop].
  split.
  - destruct (map RAGService.parseCitation _); [exact Hfb|exact Hval].
  - right. split.
    + destruct (map RAGService.parseCitation _); done.
    + destruct (Qeq_bool _ _); [by vm_compute|done].
Qed.

Lemma slice0_cons_nonempty {A} (x : A) l : Js.slice0 3 (x :: l) <> [].
Proof. done. Qed.

Lemma generateResponse_total q m c cases :
  artifacts c <> [] -> tools_used c <> [] ->
  exists ans, RAGService.generateResponse q m (c :: cases) = Some ans.
Proof.
  intros Ha Ht. destruct m; simpl.
  - unfold RAGService.generateDirectQA. cbv zeta.
    destruct (_ || _).
    { destruct (tools_used c); [done|by eexists]. }
    destruct (Js.includes _ "artifact").
    { destruct (artifacts c) as [|a l]; [done|].
      change (Js.slice0 3 (a :: l)) with (a :: firstn 2 l). by eexists. }
    destruct (_ || _); by eexists.
  - by eexists.
  - unfold RAGService.generateTeaching. cbv zeta.
    destruct (_ || _).
    { destruct (artifacts c); [done|by eexists]. }
    destruct (_ || _); by eexists.
Qed.

Lemma migrate_nonempty l :
  Migration.lc_artifacts l <> [] -> Migration.workflow l <> [] ->
  artifacts (Migration.migrateLegacyCase l) <> [] /\
  tools_used (Migration.migrateLegacyCase l) <> [].
Proof.
  intros Ha Hw. split.
  - unfold Migration.migrateLegacyCase. simpl. by rewrite mapi_nil_iff.
  - intros E. apply (f_equal (map tool_name)) in E.
    rewrite migrate_tool_names in E. cbn [map] in E.
    apply (proj1 (of_list_nil_iff _)) in E. by destruct (Migration.workflow l).
Qed.

Lemma processQuery_total ls q :
  (forall l, In l ls ->
     Migration.lc_artifacts l <> [] /\ Migration.workflow l <> []) ->
  exists r, RAGService.processQuery (loaded ls) q = Some r.
Proof.
  intros Hls. unfold RAGService.processQuery.
  destruct (negb (RAGService.isForensicQuery q)); [by eexists|].
  cbv zeta. rewrite loaded_ledger.
  set (cs := map Migration.migrateLegacyCase ls).
  destruct (search_ledger cs q 3) as (rs & Hs & _ & _ & _ & Hall).
  rewrite Hs. destruct rs as [|top rest]; [by eexists|].
  destruct (Hall top ltac:(by left)) as (Hcase & _). cbv zeta in Hcase.
  rewrite getCaseById_ledger in Hcase.
  destruct (caseOf cs (Ingestion.sr_case_id top)) as [c|] eqn:Ec; [|done].
  cbn [omap list_omap]. rewrite loaded_get. fold cs. rewrite Ec.
  destruct (caseOf_elem _ _ _ Ec) as [Hin _].
  apply in_map_iff in Hin as (l & <- & Hl).
  destruct (Hls l Hl) as [Ha Hw].
  destruct (migrate_nonempty l Ha Hw) as [Ha' Ht'].
  match goal with
  | |- context [RAGService.generateResponse ?q ?m (?c :: ?cases)] =>
      destruct (generateResponse_total q m c cases Ha' Ht') as [ans Hans];
      rewrite Hans
  end.
  destruct (RAGService.detectPromptMode q); simpl; by eexists.
Qed.

Lemma take_length n s : (String.length (Js.take n s) <= n)%nat.
Proof.
  revert s. induction n as [|n IH]; intros [|c s]; simpl; try lia.
  specialize (IH s). lia.
Qed.

End PipelineFacts.

(** ** The answer of the no-match branch *)

Module AnswerFacts.
Import Schema LedgerSpec LedgerFacts LedgerModel LedgerFacts2 PipelineModel
       PipelineFacts.

Lemma includes_here s p : Js.startsWith s p = true -> Js.includes s p = true.
Proof. intros H. destruct s; simpl; by rewrite H. Qed.

Lemma includes_cons c s p :
  Js.includes s p = true -> Js.includes (String c s) p = true.
Proof. intros H. cbn [Js.includes]. rewrite H. apply orb_true_r. Qed.

Lemma includes_app_l a s p :
  Js.includes s p = true -> Js.includes (a +:+ s) p = true.
Proof.
  intros H. induction a as [|c a IH]; [done|].
  change (String c a +:+ s) with (String c (a +:+ s)). by apply includes_cons.
Qed.

Lemma startsWith_app_r p : forall s t,
  Js.startsWith s p = true -> Js.startsWith (s +:+ t) p = true.
Proof.
  induction p as [|a p IH]; intros [|b s] t; simpl; try done.
  destruct (ascii_dec a b); [apply IH|done].
Qed.

Lemma includes_app_r s t p :
  Js.includes s p = true -> Js.includes (s +:+ t) p = true.
Proof.
  induction s as [|c s IH].
  - simpl. rewrite orb_false_r. destruct p; [|done]. intros _.
    by destruct t.
  - change (String c s +:+ t) with (String c (s +:+ t)).
    cbn [Js.includes]. intros [H|H]%orb_true_iff.
    + pose proof (startsWith_app_r p (String c s) t H) as H'.
      change (String c s +:+ t) with (String c (s +:+ t)) in H'.
      by rewrite H'.
    + rewrite (IH H). apply orb_true_r.
Qed.

(** A replacement text without a dollar sign is taken as it is. *)
Lemma getSubstitution_plain m b a y z :
  noDollar y = true ->
  Js.getSubstitution m b a (y +:+ z) = y +:+ Js.getSubstitution m b a z.
Proof.
  induction y as [|c y IH]; [done|].
  unfold noDollar. cbn [allChars]. intros [Hc Hy]%andb_true_iff.
  change (String c y +:+ z) with (String c (y +:+ z)).
  cbn [Js.getSubstitution].
  destruct (ascii_dec c "$") as [->|_]; [done|].
  by rewrite (IH Hy).
Qed.

(** A stretch of the replacement text that has no dollar sign and does not
    begin with the second character of a pattern is found in the
    substituted text. *)
Lemma getSubstitution_keeps m b a c y z :
  c <> "$"%char -> c <> "&"%char -> c <> "`"%char -> c <> "'"%char ->
  noDollar y = true ->
  forall x,
    Js.includes (Js.getSubstitution m b a (x +:+ String c y +:+ z))
                (String c y) = true.
Proof.
  intros H1 H2 H3 H4 Hy.
  assert (noDollar (String c y) = true) as Hcy.
  { unfold noDollar. cbn [allChars]. rewrite bool_decide_eq_false_2 by done.
    exact Hy. }
  assert (Js.includes (Js.getSubstitution m b a (String c y +:+ z))
            (String c y) = true) as Hbase.
  { rewrite (getSubstitution_plain _ _ _ _ _ Hcy).
    apply includes_here, JsFacts.startsWith_app. }
  assert (forall n x, (String.length x <= n)%nat ->
            Js.includes (Js.getSubstitution m b a (x +:+ String c y +:+ z))
                        (String c y) = true) as Hall.
  { induction n as [|n IH]; intros [|d x] Hn; simpl in Hn;
      try lia; try exact Hbase.
    change (String d x +:+ String c y +:+ z)
      with (String d (x +:+ String c y +:+ z)).
    cbn [Js.getSubstitution].
    destruct (ascii_dec d "$") as [->|_].
    2:{ apply includes_cons, IH. lia. }
    destruct x as [|e x].
    - change ("" +:+ String c y +:+ z) with (String c (y +:+ z)).
      cbv beta iota.
      destruct (ascii_dec c "$"); [done|].
      destruct (ascii_dec c "&"); [done|].
      destruct (ascii_dec c "`"); [done|].
      destruct (ascii_dec c "'"); [done|].
      by apply includes_cons.
    - change (String e x +:+ String c y +:+ z)
        with (String e (x +:+ String c y +:+ z)).
      simpl in Hn. cbv beta iota.
      assert (Js.includes
                (Js.getSubstitution m b a (x +:+ String c y +:+ z))
                (String c y) = true) as Hx by (apply IH; lia).
      destruct (ascii_dec e "$"); [by apply includes_cons|].
      destruct (ascii_dec e "&"); [by apply includes_app_l|].
      destruct (ascii_dec e "`"); [by apply includes_app_l|].
      destruct (ascii_dec e "'"); [by apply includes_app_l|].
      apply includes_cons.
      change (String e (x +:+ String c y +:+ z))
        with (String e x +:+ String c y +:+ z).
      apply IH. simpl. lia. }
  intros x. by apply (Hall (String.length x)).
Qed.

Lemma join_split sep e xs :
  In e xs -> exists x z, Js.join sep xs = x +:+ e +:+ z.
Proof.
  induction xs as [|a xs IH]; [done|].
  destruct xs as [|a' xs].
  - intros [<-|[]]. exists "", "". simpl. by rewrite TrieFacts.append_nil_r.
  - intros [<-|Hin].
    + by exists "", (sep +:+ Js.join sep (a' :: xs)).
    + destruct (IH Hin) as (x & z & E). exists (a +:+ sep +:+ x), z.
      change (Js.join sep (a :: a' :: xs))
        with (a +:+ sep +:+ Js.join sep (a' :: xs)).
      by rewrite E, !TrieFacts.append_assoc.
Qed.

(** The answer of the no-match branch holds the bullet line of every
    listed id that has no dollar sign. *)
Lemma no_match_answer_lists ids i :
  In i ids -> noDollar i = true ->
  Js.includes
    (Js.replace PromptTemplates.INSUFFICIENT_CONTEXT "{{available_cases}}"
       (Js.join Js.nl (map (fun i => "• " +:+ i) ids)))
    ("• " +:+ i) = true.
Proof.
  intros Hin Hi. unfold Js.replace.
  assert (exists b a,
            Js.findFirst PromptTemplates.INSUFFICIENT_CONTEXT
              "{{available_cases}}" = Some (b, a)) as (b & a & ->)
    by (vm_compute; eauto).
  apply includes_app_l, includes_app_r.
  destruct (join_split Js.nl ("• " +:+ i) (map (fun i => "• " +:+ i) ids))
    as (x & z & ->); [by apply (in_map (fun i => "• " +:+ i))|].
  assert (exists c y, "• " = String c y /\
            c <> "$"%char /\ c <> "&"%char /\ c <> "`"%char /\
            c <> "'"%char /\ noDollar y = true)
    as (c & y & E & H1 & H2 & H3 & H4 & Hy)
    by (eexists _, _; split; [reflexivity|]; repeat (split; [done|]);
        by vm_compute).
  rewrite E. change (String c y +:+ i) with (String c (y +:+ i)).
  assert (noDollar (y +:+ i) = true) as Hyi
    by (unfold noDollar in *; by rewrite allChars_app, Hy, Hi).
  by apply getSubstitution_keeps.
Qed.

(** Exactly three follow-up suggestions in whatever is returned. *)
Lemma follow_ups_length s q r :
  RAGService.processQuery s q = Some r ->
  length (follow_up_suggestions r) = 3%nat.
Proof.
  unfold RAGService.processQuery.
  destruct (RAGService.isForensicQuery q); simpl; [|by intros [= <-]].
  destruct (Ingestion.search _ _ _) as [[|top rest]|]; [by intros [= <-]| |done].
  destruct (RAGService.generateResponse _ _ _); [|done].
  destruct (RAGService.generateFollowUps _ _) as [fs|] eqn:E; [|done].
  intros [= <-]. simpl. unfold RAGService.generateFollowUps in E.
  destruct (RAGService.detectPromptMode q); [|by injection E as <-..].
  destruct (omap _ _); [done|]. by injection E as <-.
Qed.

(** A query is answered unless its best match lacks the first artifact or
    the first tool that an answer builder reads. *)
Lemma processQuery_answers ls q :
  (forall top rest c,
     RAGService.isForensicQuery q = true ->
     Ingestion.search (RAGService.ingestionService (loaded ls)) q 3
       = Some (top :: rest) ->
     RAGService.getCaseById (loaded ls) (Ingestion.sr_case_id top) = Some c ->
     artifacts c <> [] /\ tools_used c <> []) ->
  exists r, RAGService.processQuery (loaded ls) q = Some r.
Proof.
  intros Hq. unfold RAGService.processQuery.
  destruct (RAGService.isForensicQuery q) eqn:Ef; cbn [negb]; [|by eexists].
  unfold RAGService.getCaseById in Hq. cbv zeta.
  setoid_rewrite loaded_get in Hq. rewrite loaded_ledger in *.
  set (cs := map Migration.migrateLegacyCase ls) in *.
  destruct (search_ledger cs q 3) as (rs & Hs & _ & _ & _ & Hall).
  rewrite Hs in *. destruct rs as [|top rest]; [by eexists|].
  destruct (Hall top ltac:(by left)) as (Hcase & _). cbv zeta in Hcase.
  rewrite getCaseById_ledger in Hcase.
  destruct (caseOf cs (Ingestion.sr_case_id top)) as [c|] eqn:Ec; [|done].
  cbn [omap list_omap]. rewrite loaded_get. fold cs. rewrite Ec.
  destruct (Hq top rest c eq_refl eq_refl Ec) as [Ha' Ht'].
  match goal with
  | |- context [RAGService.generateResponse ?q ?m (?c :: ?cases)] =>
      destruct (generateResponse_total q m c cases Ha' Ht') as [ans Hans];
      rewrite Hans
  end.
  destruct (RAGService.detectPromptMode q); simpl; by eexists.
Qed.

End AnswerFacts.

(** * Specification claims *)

(** ** PrefixIndex *)

Module TrieSpec.
Import Js JsFacts Trie TrieInv TrieFacts.


(** The limit is tested only after the prefix word has been pushed: with
    a limit of 0 (or below) a prefix that is a stored word still comes
    back, one item where the limit allows none. *)
Example autocomplete_limit_zero :
  autocomplete (insertAll ["autopsy"; "autorun"]) "autopsy" 0 = ["autopsy"] /\
  autocomplete (insertAll ["autopsy"; "autorun"]) "auto" 0 = [].
Proof. split; reflexivity. Qed.



(** C7 (as stated, refuted). The empty string can be "inserted", but
    [insert("")] is a no-op: [exists("")] is false afterwards and
    [delete("")] returns false. *)
Lemma empty_word_not_stored :
  In "" [""] /\
  search (insertAll [""]) "" = false /\
  snd (delete "" (insertAll [""])) = false.
Proof. split; [by left|]. split; reflexivity. Qed.

(** C7 (amended). Let the words [ws] be inserted into an empty trie. Then
    (a) every non-empty inserted word is found by [exists], whatever the
    casing of the query; (b) [delete(w)] returns true exactly when [w] is
    non-empty and equals an inserted word up to casing, and false
    otherwise; (c) after a [delete(w)] that returned true, [exists(w)] is
    false. *)
Theorem trie_membership_spec (ws : list string) :
  let t := insertAll ws in
  (forall w q, In w ws -> w <> "" -> toLowerCase q = toLowerCase w ->
               search t q = true) /\
  (forall w, snd (delete w t) = true <->
             w <> "" /\ exists w', In w' ws /\ toLowerCase w' = toLowerCase w) /\
  (forall w, snd (delete w t) = true -> search (fst (delete w t)) w = false).
Proof.
  intros t. split; [|split].
  - intros w q Hin Hw Hq. apply search_insertAll. split; [|by eauto].
    intros ->. symmetry in Hq. simpl in Hq. apply (proj1 (toLowerCase_empty _)) in Hq. congruence.
  - intros w. rewrite delete_result. unfold t. rewrite search_insertAll.
    split.
    + intros (Hw & w' & Hin & _ & He). eauto.
    + intros (Hw & w' & Hin & He). split; [done|]. exists w'.
      split; [done|]. split; [|done].
      intros ->. symmetry in He. simpl in He. apply (proj1 (toLowerCase_empty _)) in He. congruence.
  - intros w _. by rewrite search_delete, decide_True.
Qed.

(** C10. After any history of calls, deleting a word [w] does not change
    the answer of [exists(v)] for any [v] whose lowercase form differs from
    that of [w], whether or not [v] shares a prefix path with [w]. *)
Theorem delete_frame (ops : list Op) (w v : string) :
  toLowerCase v <> toLowerCase w ->
  search (fst (delete w (run ops))) v = search (run ops) v.
Proof. intros Hne. by rewrite search_delete, decide_False. Qed.

Lemma delete_frame_witness :
  toLowerCase "automate" <> toLowerCase "Autopsy" /\
  search (fst (delete "Autopsy"
                 (run [OpInsert "autopsy"; OpInsert "automate"; OpInsert "auto"])))
         "automate"
  = search (run [OpInsert "autopsy"; OpInsert "automate"; OpInsert "auto"])
           "automate".
Proof.
  assert (toLowerCase "automate" <> toLowerCase "Autopsy") as Hne
    by (vm_compute; discriminate).
  split; [exact Hne|].
  exact (delete_frame
           [OpInsert "autopsy"; OpInsert "automate"; OpInsert "auto"]
           "Autopsy" "automate" Hne).
Defined.

End TrieSpec.

(** ** BoundedCache *)

Module LRUSpec.
Import LRUInv LRUFacts Examples.

Section Generic.
Context {K V : Type} `{Countable K}.

(** C6 (amended). Take a cache of capacity N, put N distinct keys, then
    put one more new key: the cache then holds the new key and all the
    earlier keys except the least-recently-touched one, which is the only
    key evicted. Without a [get] in between, the least-recently-touched
    key is the first one put. A [get] of an existing key [k] before the
    last put makes [k] the most recently touched; it changes which key is
    evicted exactly when [k] was the least-recently-touched key and
    N >= 2, and in that case the key put second is evicted instead. *)
Theorem lru_eviction (capacity : Z) (c0 : LRU.LRUCache K V)
    (kvs : list (K * V)) (kn : K) (vn : V) :
  LRU.new capacity = inr c0 ->
  NoDup kvs.*1 -> Z.of_nat (length kvs) = capacity -> kn ∉ kvs.*1 ->
  let c := LRU.putAll kvs c0 in
  let oldest_first := kvs.*1 in
  LRU.keys c = Some (reverse oldest_first) /\
  LRU.keys (LRU.put kn vn c) = Some (kn :: reverse (tail oldest_first)) /\
  forall k, k ∈ oldest_first ->
    let touched := filter (fun k' => k' <> k) oldest_first ++ [k] in
    LRU.keys (LRU.put kn vn (fst (LRU.get k c)))
      = Some (kn :: reverse (tail touched)) /\
    (head touched <> head oldest_first <->
     head oldest_first = Some k /\ 2 <= capacity).
Proof.
  intros Hnew Hnd Hlen Hkn c ins.
  destruct (Inv_new _ _ Hnew) as [HI0 Hcap0].
  assert (0 < capacity) as Hpos.
  { unfold LRU.new in Hnew. destruct (capacity <=? 0) eqn:E; [done|].
    by apply Z.leb_gt in E. }
  destruct (putAll_fresh kvs c0 [] (Repr_new _ _ Hnew) Hnd) as [HR Hcap].
  { intros ? _ ?%elem_of_nil. done. }
  { simpl. lia. }
  rewrite app_nil_r in HR. fold c in HR, Hcap. rewrite Hcap0 in Hcap.
  assert (ins <> []) as Hne.
  { unfold ins. intros E. apply (f_equal length) in E.
    rewrite length_fmap in E. simpl in E. lia. }
  split; [by apply Repr_keys|]. split.
  - pose proof (Repr_put c _ kn vn HR) as HR'. unfold putK in HR'.
    rewrite decide_False in HR' by (by rewrite elem_of_reverse).
    rewrite length_reverse, length_fmap, Hcap in HR'.
    destruct (_ >? _) eqn:E; [|rewrite Z.gtb_ltb in E; apply Z.ltb_ge in E; lia].
    rewrite removelast_cons_reverse in HR' by done. by apply Repr_keys.
  - intros k Hk touched.
    assert (NoDup ins) as Hnd' by done.
    split.
    + pose proof (Repr_get c _ k HR) as HRg. unfold getK, touchK in HRg.
      rewrite decide_True in HRg by (by rewrite elem_of_reverse).
      rewrite filter_reverse, <- reverse_snoc in HRg. fold touched in HRg.
      pose proof (Repr_put _ _ kn vn HRg) as HR'. unfold putK in HR'.
      assert (kn ∉ touched) as Hkn'.
      { unfold touched. rewrite elem_of_app, list_elem_of_filter.
        intros [[_ ?]|Hx]; [done|].
        apply list_elem_of_singleton in Hx as ->. done. }
      rewrite decide_False in HR' by (by rewrite elem_of_reverse).
      assert (length touched = length kvs) as Hlt.
      { unfold touched. rewrite length_app. simpl.
        rewrite Nat.add_1_r, (length_filter_ne k ins Hnd' Hk).
        apply length_fmap. }
      unfold touched, ins in Hlt.
      rewrite length_reverse, Hlt, capacity_get, Hcap in HR'.
      destruct (_ >? _) eqn:E; [|rewrite Z.gtb_ltb in E; apply Z.ltb_ge in E; lia].
      rewrite removelast_cons_reverse in HR'; [by apply Repr_keys|].
      intros Et. apply (f_equal length) in Et.
      rewrite length_app in Et. simpl in Et. lia.
    + unfold touched. rewrite (head_move_to_end k ins Hnd' Hk).
      unfold ins. rewrite length_fmap. split; intros [? ?]; (split; [done|lia]).
Qed.

(** C8. From construction on, after every sequence of [get], [put],
    [has], [delete] and [clear] calls, the traversal of the linked list
    from [head] ends, and the number of nodes it meets equals the size of
    the backing map, which is what [size()] reports. *)
Theorem size_is_list_length (capacity : Z) (c0 : LRU.LRUCache K V)
    (ops : list (LRU.Op K V)) :
  LRU.new capacity = inr c0 ->
  let c := LRU.run ops c0 in
  LRU.listLength c = Some (base.size (LRU.cache c)) /\
  LRU.size c = Z.of_nat (base.size (LRU.cache c)).
Proof.
  intros Hnew c. split; [|done].
  destruct (Repr_run ops c0 [] (Repr_new _ _ Hnew)) as [ks HR]. fold c in HR.
  by rewrite (Repr_listLength c ks HR), (Repr_size c ks HR).
Qed.

(** C9. [new LRUCache(capacity)] throws when the capacity is not
    positive, and otherwise returns an empty cache of that capacity. *)
Theorem new_checks_capacity (capacity : Z) :
  (capacity <= 0 ->
   LRU.new (K:=K) (V:=V) capacity = inl "Capacity must be greater than 0") /\
  (0 < capacity ->
   exists c : LRU.LRUCache K V,
     LRU.new capacity = inr c /\ LRU.capacity c = capacity /\
     LRU.size c = 0 /\ LRU.keys c = Some []).
Proof.
  unfold LRU.new. split; intros Hc.
  - by rewrite (proj2 (Z.leb_le _ _) Hc).
  - rewrite (proj2 (Z.leb_gt _ _) Hc). by eexists.
Qed.

End Generic.

Lemma lru_eviction_witness :
  LRU.new 3 = inr c3 /\
  NoDup kvs3.*1 /\
  Z.of_nat (length kvs3) = 3 /\
  (4%nat ∉ kvs3.*1) /\
  let c := LRU.putAll kvs3 c3 in
  let oldest_first := kvs3.*1 in
  LRU.keys c = Some (reverse oldest_first) /\
  LRU.keys (LRU.put 4%nat 40%nat c) = Some (4%nat :: reverse (tail oldest_first)) /\
  forall k, k ∈ oldest_first ->
    let touched := filter (fun k' => k' <> k) oldest_first ++ [k] in
    LRU.keys (LRU.put 4%nat 40%nat (fst (LRU.get k c)))
      = Some (4%nat :: reverse (tail touched)) /\
    (head touched <> head oldest_first <->
     head oldest_first = Some k /\ 2 <= 3).
Proof.
  assert (NoDup kvs3.*1) as Hnd
    by (apply (bool_decide_unpack _); vm_compute; exact I).
  assert (4%nat ∉ kvs3.*1) as Hkn
    by (apply (bool_decide_unpack _); vm_compute; exact I).
  split; [reflexivity|]. split; [exact Hnd|]. split; [reflexivity|].
  split; [exact Hkn|].
  exact (lru_eviction 3 c3 kvs3 4%nat 40%nat
           eq_refl Hnd eq_refl Hkn).
Defined.

(** C6 (as stated, refuted). In a cache of capacity 1 the only existing
    key is evicted by the second put whether or not it was read in
    between; in a cache of capacity 2, reading the most recent key before
    the third put leaves the evicted key unchanged. *)
Lemma get_need_not_change_eviction :
  let c1 := LRU.put 1%nat 10%nat
              (LRU.mkLRUCache (V:=nat) 1 ∅ ∅ None None 0 0 1%positive) in
  let c2 := LRU.putAll [(1, 10); (2, 20)]%nat
              (LRU.mkLRUCache (V:=nat) 2 ∅ ∅ None None 0 0 1%positive) in
  (LRU.keys c1 = Some [1%nat] /\
   LRU.keys (LRU.put 2%nat 20%nat c1) = Some [2%nat] /\
   LRU.keys (LRU.put 2%nat 20%nat (fst (LRU.get 1%nat c1))) = Some [2%nat]) /\
  (LRU.keys c2 = Some [2; 1]%nat /\
   LRU.keys (LRU.put 3%nat 30%nat c2) = Some [3; 2]%nat /\
   LRU.keys (LRU.put 3%nat 30%nat (fst (LRU.get 2%nat c2))) = Some [3; 2]%nat).
Proof. vm_compute. repeat split. Qed.

Lemma size_is_list_length_witness :
  LRU.new 3 = inr c3 /\
  let c := LRU.run [LRU.OpPut 1 10; LRU.OpPut 2 20; LRU.OpGet 1; LRU.OpPut 3 30;
                    LRU.OpPut 4 40; LRU.OpDelete 3; LRU.OpHas 2]%nat c3 in
  LRU.listLength c = Some (base.size (LRU.cache c)) /\
  LRU.size c = Z.of_nat (base.size (LRU.cache c)).
Proof.
  split; [reflexivity|].
  exact (size_is_list_length 3 c3 _ eq_refl).
Defined.

Lemma new_checks_capacity_witness :
  0 < 3 /\
  exists c : LRU.LRUCache nat nat,
    LRU.new 3 = inr c /\ LRU.capacity c = 3 /\
    LRU.size c = 0 /\ LRU.keys c = Some [].
Proof.
  split; [lia|]. apply (proj2 (new_checks_capacity 3)). lia.
Defined.

End LRUSpec.

(** ** CitationValidator, RelevanceSearch and the query pipeline *)

Module RAGSpec.
Import Schema LedgerSpec LedgerFacts PipelineModel AnswerFacts Examples
       Examples2.

(** C1 (as stated, refuted). A three-part citation whose case and item are
    both real is extracted from the answer but dropped by the ledger
    check. *)
Lemma three_part_citation_dropped :
  let ans := "Seen in memory [ransomware-investigation:artifact_1:pslist]." in
  let cit := "ransomware-investigation:artifact_1:pslist" in
  PromptTemplates.extractCitations ans = [cit] /\
  Js.split ":" cit = ["ransomware-investigation"; "artifact_1"; "pslist"] /\
  (exists c, caseOf [demoCase] "ransomware-investigation" = Some c /\
             exists a, In a (artifacts c) /\ artifact_id a = "artifact_1") /\
  RAGService.validatedCitationStrings (ledger [demoCase]) ans = [].
Proof.
  split; [by vm_compute|]. split; [by vm_compute|]. split; [|by vm_compute].
  exists demoCase. split; [by vm_compute|].
  eexists. split; [by left|reflexivity].
Qed.

(** The two examples of the specification. *)
Example citation_examples :
  RAGService.validatedCitationStrings (ledger [demoCase])
    "[ransomware-investigation:artifact_1] and [not-a-case:x]"
  = ["ransomware-investigation:artifact_1"].
Proof. by vm_compute. Qed.

(** C1 (amended). For every ledger and every answer text, a citation
    extracted from the text is retained exactly when it is a known case id
    alone, or a known case id and, after one colon, the id of an artifact or
    of a finding of that case. Every other extracted citation, among them
    every citation of three or more parts, is dropped; the check is a total
    boolean test. *)
Theorem citation_retained_iff (cs : list CaseStudyEnhanced) (ans cit : string) :
  cit ∈ RAGService.validatedCitationStrings (ledger cs) ans <->
  cit ∈ PromptTemplates.extractCitations ans /\ RealCitation cs cit.
Proof.
  unfold RAGService.validatedCitationStrings.
  rewrite list_elem_of_filter, validateCitation_spec. tauto.
Qed.

(** C2 (the code at the failing input). The migrated case
    "ransomware-investigation" is in the ledger and its own keyword set
    holds its id, yet the query "ransomware-investigation", whose only
    token is that id, finds nothing: the keyword index is fed from the
    [keywords] field alone. *)
Lemma case_id_query_finds_nothing :
  let svc := RAGService.ingestionService
               (RAGService.initializeFromLegacy [legacyRansomware] RAGService.new) in
  Ingestion.tokenize "ransomware-investigation" = ["ransomware-investigation"] /\
  (exists ic,
     OMap.get "ransomware-investigation" (Ingestion.indexedCases svc) = Some ic /\
     In "ransomware-investigation" (Ingestion.ic_keywords ic)) /\
  Ingestion.search svc "ransomware-investigation" 5 = Some [].
Proof.
  split; [by vm_compute|]. split; [|by vm_compute].
  eexists. split; [vm_compute; reflexivity|]. vm_compute. tauto.
Qed.

(** C3 (the code at the failing input). The returned confidence and the
    confidence of the returned citation are the raw relevance score, here
    1.3. *)
Lemma confidence_exceeds_one :
  let svc := RAGService.initializeFromLegacy [legacyRansomware] RAGService.new in
  exists r,
    RAGService.processQuery svc "Explain the ransomware memory analysis" = Some r /\
    response_confidence r == 1.3 /\
    (1 < response_confidence r)%Q /\
    Exists (fun c => (1 < cit_confidence c)%Q) (citations r).
Proof.
  eexists. split; [vm_compute; reflexivity|].
  split; [by vm_compute|]. split; [by vm_compute|].
  apply Exists_cons_hd. by vm_compute.
Qed.

(** C4 (as stated, refuted). With the single case "phishing-campaign" in
    the ledger, a query without a match gets the three fixed suggestions:
    none of them names the case; the case ids are listed in the answer. *)
Lemma no_match_follow_ups_are_fixed :
  let svc := RAGService.initializeFromLegacy [legacyPhishing] RAGService.new in
  exists r,
    RAGService.processQuery svc "forensic zebra" = Some r /\
    Ingestion.search (RAGService.ingestionService svc) "forensic zebra" 3 = Some [] /\
    Ingestion.getAllCaseIds (RAGService.ingestionService svc) = ["phishing-campaign"] /\
    follow_up_suggestions r = RAGService.noMatchFollowUps /\
    Forall (fun f => Js.includes f "phishing-campaign" = false)
           (follow_up_suggestions r) /\
    Js.includes (answer r) "phishing-campaign" = true.
Proof.
  eexists. split; [vm_compute; reflexivity|].
  split; [by vm_compute|]. split; [by vm_compute|]. split; [by vm_compute|].
  split; [|by vm_compute]. repeat constructor; by vm_compute.
Qed.

(** A slip in the answer builders, left out of the amended claim: a
    "what tool" question whose best match is a case without any tool reads
    [firstCase.tools_used[0].purpose] of an empty array (the artifact next
    to it is read with [?.] and a fallback), and [processQuery] throws
    instead of returning a response. *)
Example matched_case_without_tools_is_not_answered :
  let s := loaded [legacyNoWorkflow] in
  let q := "what tool found the malware" in
  RAGService.isForensicQuery q = true /\
  (exists top rest c,
     Ingestion.search (RAGService.ingestionService s) q 3 = Some (top :: rest) /\
     RAGService.getCaseById s (Ingestion.sr_case_id top) = Some c /\
     artifacts c <> [] /\ tools_used c = []) /\
  RAGService.processQuery s q = None.
Proof.
  split; [by vm_compute|]. split; [|by vm_compute].
  eexists _, _, _. split; [vm_compute; reflexivity|].
  split; [vm_compute; reflexivity|]. split; [discriminate|reflexivity].
Qed.

(** The list of ids is the replacement text of [String.prototype.replace],
    in which [$$] stands for one dollar sign: the id "a$$b" is listed as
    "a$b". *)
Example dollar_in_case_id_is_rewritten :
  let s := loaded [legacyDollar] in
  exists r,
    RAGService.processQuery s "forensic zebra" = Some r /\
    Ingestion.getAllCaseIds (RAGService.ingestionService s) = ["a$$b"] /\
    Js.includes (answer r) "• a$b" = true /\
    Js.includes (answer r) "• a$$b" = false.
Proof.
  eexists. split; [vm_compute; reflexivity|].
  split; [by vm_compute|]. split; by vm_compute.
Qed.

(** C4 (amended). On a service loaded by [initializeFromLegacy],
    [processQuery] returns a response with exactly three follow-up
    suggestions for every query that is outside the scope, or has no
    match, or whose best match is a case with at least one artifact and at
    least one tool. On any service, whatever [processQuery] returns
    carries exactly three follow-up suggestions; a query outside the scope
    is always answered, with the three fixed refusal suggestions; a query
    in scope without any match is always answered, with three other fixed
    suggestions that do not depend on the ledger, and it is the answer
    text, not the follow-up list, that lists the known case ids: it
    contains the bullet line of every known id that has no dollar sign in
    it. *)
Theorem follow_ups_are_three (s : RAGService.Service)
    (ls : list Migration.LegacyCase) (q : string) :
  ((forall top rest c,
      RAGService.isForensicQuery q = true ->
      Ingestion.search (RAGService.ingestionService (loaded ls)) q 3
        = Some (top :: rest) ->
      RAGService.getCaseById (loaded ls) (Ingestion.sr_case_id top) = Some c ->
      artifacts c <> [] /\ tools_used c <> []) ->
   exists r, RAGService.processQuery (loaded ls) q = Some r /\
             length (follow_up_suggestions r) = 3%nat) /\
  (forall r, RAGService.processQuery s q = Some r ->
             length (follow_up_suggestions r) = 3%nat) /\
  (RAGService.isForensicQuery q = false ->
   exists r, RAGService.processQuery s q = Some r /\
             follow_up_suggestions r = RAGService.refusalFollowUps) /\
  (RAGService.isForensicQuery q = true ->
   Ingestion.search (RAGService.ingestionService s) q 3 = Some [] ->
   exists r, RAGService.processQuery s q = Some r /\
             follow_up_suggestions r = RAGService.noMatchFollowUps /\
             forall i,
               In i (Ingestion.getAllCaseIds (RAGService.ingestionService s)) ->
               noDollar i = true ->
               Js.includes (answer r) ("• " +:+ i) = true).
Proof.
  split; [|split; [|split]].
  - intros Hq. destruct (processQuery_answers ls q Hq) as [r Hr].
    exists r. split; [done|]. by eapply follow_ups_length.
  - apply follow_ups_length.
  - unfold RAGService.processQuery. intros ->. simpl. eauto.
  - unfold RAGService.processQuery. intros -> ->. cbn [negb].
    eexists. split; [reflexivity|]. split; [reflexivity|].
    intros i Hin Hi. cbn [answer]. by apply no_match_answer_lists.
Qed.

Lemma follow_ups_are_three_witness :
  let ls := [legacyRansomware; legacyPhishing] in
  let s := loaded ls in
  (exists r, RAGService.processQuery s
               "What tools were used in ransomware-investigation?" = Some r /\
             length (follow_up_suggestions r) = 3%nat /\
             Js.includes (answer r) "Volatility" = true /\
             mode r = direct_qa) /\
  (exists r, RAGService.processQuery s "zebra" = Some r /\
             follow_up_suggestions r = RAGService.refusalFollowUps) /\
  (exists r, RAGService.processQuery s "forensic zebra" = Some r /\
             follow_up_suggestions r = RAGService.noMatchFollowUps /\
             Js.includes (answer r) "• ransomware-investigation" = true /\
             Js.includes (answer r) "• phishing-campaign" = true).
Proof.
  intros ls s. split; [|split].
  - set (q := "What tools were used in ransomware-investigation?").
    assert (forall top rest c,
              RAGService.isForensicQuery q = true ->
              Ingestion.search (RAGService.ingestionService (loaded ls)) q 3
                = Some (top :: rest) ->
              RAGService.getCaseById (loaded ls) (Ingestion.sr_case_id top)
                = Some c ->
              artifacts c <> [] /\ tools_used c <> []) as Hq.
    { intros top rest c _ Hs Hc. vm_compute in Hs. injection Hs as <- <-.
      vm_compute in Hc. injection Hc as <-. split; discriminate. }
    destruct (proj1 (follow_ups_are_three s ls q) Hq) as (r & Hr & Hl).
    exists r. split; [exact Hr|]. split; [exact Hl|].
    vm_compute in Hr. injection Hr as <-. split; by vm_compute.
  - assert (RAGService.isForensicQuery "zebra" = false) as Hq by (by vm_compute).
    destruct (proj1 (proj2 (proj2 (follow_ups_are_three s ls "zebra"))) Hq)
      as (r & Hr & Hf). exists r. by split.
  - assert (RAGService.isForensicQuery "forensic zebra" = true) as Hq
      by (by vm_compute).
    assert (Ingestion.search (RAGService.ingestionService s) "forensic zebra" 3
            = Some []) as Hs by (by vm_compute).
    assert (Ingestion.getAllCaseIds (RAGService.ingestionService s)
            = ["ransomware-investigation"; "phishing-campaign"]) as Eids
      by (by vm_compute).
    destruct (proj2 (proj2 (proj2 (follow_ups_are_three s ls "forensic zebra")))
                Hq Hs) as (r & Hr & Hf & Hids).
    rewrite Eids in Hids.
    exists r. split; [exact Hr|]. split; [exact Hf|]. split.
    + apply Hids; [by left|by vm_compute].
    + apply Hids; [right; by left|by vm_compute].
Defined.

End RAGSpec.

(** ** The repository's own examples, replayed on the embedding *)

Module RepoTests.
Import Schema Examples.

(** [Trie.test.ts]: duplicate insertions, casing, prefix search, delete. *)
Example trie_duplicates :
  Trie.getSize (Trie.insertAll ["autopsy"; "autopsy"; "Autopsy"]) = 1.
Proof. by vm_compute. Qed.

Example trie_case_insensitive :
  let t := Trie.insertAll ["Autopsy"] in
  (Trie.search t "autopsy", Trie.search t "AUTOPSY", Trie.search t "AuToPsY",
   Trie.search t "auto") = (true, true, true, false).
Proof. by vm_compute. Qed.

Example trie_autocomplete :
  let t := Trie.insertAll
             ["autopsy"; "automate"; "automatic"; "automation"; "wireshark"; "wire"] in
  Trie.autocomplete t "auto" 10 = ["autopsy"; "automate"; "automatic"; "automation"] /\
  length (Trie.autocomplete t "auto" 2) = 2%nat /\
  Trie.autocomplete t "xyz" 10 = [] /\
  Trie.autocomplete t "" 10 = [] /\
  Trie.autocomplete t "wire" 10 = ["wire"; "wireshark"].
Proof. by vm_compute. Qed.

Example trie_original_casing :
  head (Trie.autocomplete (Trie.insertAll ["AutoPsy"; "WIRESHARK"]) "auto" 10)
  = Some "AutoPsy".
Proof. by vm_compute. Qed.

Example trie_delete :
  let t := Trie.insertAll ["autopsy"; "automate"; "wireshark"] in
  let '(t', deleted) := Trie.delete "autopsy" t in
  (deleted, Trie.search t' "autopsy", Trie.getSize t',
   Trie.search t' "automate", Trie.startsWith t' "auto",
   snd (Trie.delete "nonexistent" t), snd (Trie.delete "" t))
  = (true, false, 2, true, true, false, false).
Proof. by vm_compute. Qed.

(** [LRUCache.test.ts]: eviction order. *)
Example lru_evicts_oldest :
  LRU.keys (LRU.putAll (kvs3 ++ [(4, 40)]%nat) c3) = Some [4; 3; 2]%nat.
Proof. by vm_compute. Qed.

Example lru_get_updates_order :
  let c := LRU.put 4%nat 40%nat (fst (LRU.get 1%nat (LRU.putAll kvs3 c3))) in
  (LRU.has 1%nat c, LRU.has 2%nat c, LRU.has 3%nat c, LRU.has 4%nat c, LRU.size c)
  = (true, false, true, true, 3).
Proof. by vm_compute. Qed.

Example lru_put_updates_order :
  let c := LRU.put 4%nat 40%nat (LRU.put 1%nat 11%nat (LRU.putAll kvs3 c3)) in
  (snd (LRU.get 1%nat c), snd (LRU.get 2%nat c)) = (Some 11%nat, None).
Proof. by vm_compute. Qed.

Example lru_invalid_capacity :
  (LRU.new (K:=nat) (V:=nat) 0, LRU.new (K:=nat) (V:=nat) (-1))
  = (inl "Capacity must be greater than 0", inl "Capacity must be greater than 0").
Proof. by vm_compute. Qed.

(** The mode and scope examples of the specification. *)
Example mode_examples :
  RAGService.detectPromptMode "How do I investigate ransomware?" = guided_walkthrough /\
  RAGService.detectPromptMode "Explain memory forensics" = teaching /\
  RAGService.detectPromptMode "What tools were used?" = direct_qa /\
  RAGService.isForensicQuery "hello" = true.
Proof. by vm_compute. Qed.

(** A query without a token of more than two characters finds nothing. *)
Example short_tokens_find_nothing :
  Ingestion.tokenize "is it ok to go" = [] /\
  Ingestion.search
    (RAGService.ingestionService
       (RAGService.initializeFromLegacy [legacyRansomware] RAGService.new))
    "is it ok to go" 5 = Some [].
Proof. by vm_compute. Qed.

(** The end-to-end example of the specification, on a migrated case: the
    case is found through the keyword "were" of its scenario, not through
    its id. *)
Example end_to_end :
  let s := RAGService.initializeFromLegacy [legacyRansomware] RAGService.new in
  exists r,
    RAGService.processQuery s "What tools were used in ransomware-investigation?"
      = Some r /\
    mode r = direct_qa /\
    Js.includes (answer r) "Volatility" = true /\
    map cit_case_id (citations r)
      = ["ransomware-investigation"; "ransomware-investigation"] /\
    length (follow_up_suggestions r) = 3%nat /\
    option_map (map Ingestion.matched_keywords)
      (Ingestion.search (RAGService.ingestionService s)
         "What tools were used in ransomware-investigation?" 3)
      = Some [["were"]].
Proof. eexists. split; [vm_compute; reflexivity|]. by vm_compute. Qed.

End RepoTests.

(** * Further properties of the code *)

(** ** PrefixIndex *)

Module TrieProps.
Import Js JsFacts Trie TrieInv TrieFacts TrieModel TrieFacts2.

(** X1. After any history of [insert], [delete] and [clear] calls the trie
    is a set of lowercase words: [getSize()] is the number of distinct
    stored words, and [search(q)] is true exactly when [q] is non-empty and
    its lowercase form is one of them. Inserting the empty string or a word
    already stored (in any casing) leaves the set as it is, and so does
    deleting a word that is not stored. *)
Theorem word_count_and_membership (ops : list Op) :
  let words := absRun ops in
  NoDup words /\
  getSize (run ops) = Z.of_nat (length words) /\
  forall q, search (run ops) q = true <-> q <> "" /\ toLowerCase q ∈ words.
Proof.
  intros words. destruct (Stores_run ops) as (Hnd & _ & Hsz & Hs).
  split; [exact Hnd|]. split; [exact Hsz|exact Hs].
Qed.

(** X2. Inserting a word that [search] already finds, in whatever casing,
    changes nothing: the node structure, the word count and the casing
    stored first all stay. *)
Theorem insert_existing_changes_nothing (t : Trie) (w : string) :
  search t w = true -> insert w t = t.
Proof. apply insert_stored. Qed.

Lemma insert_existing_changes_nothing_witness :
  search (insertAll ["Wireshark"; "wire"]) "WIRESHARK" = true /\
  insert "WIRESHARK" (insertAll ["Wireshark"; "wire"])
  = insertAll ["Wireshark"; "wire"].
Proof.
  assert (search (insertAll ["Wireshark"; "wire"]) "WIRESHARK" = true) as Hs
    by (by vm_compute).
  split; [exact Hs|].
  exact (insert_existing_changes_nothing _ _ Hs).
Defined.

(** X3. Every item returned by [autocomplete] is a word that is stored at
    that moment: [search] finds it, so a deleted word is never suggested;
    and it is, character for character, the argument of some earlier
    [insert] call. *)
Theorem autocomplete_returns_stored_words
    (ops : list Op) (prefix : string) (limit : Z) (x : string) :
  x ∈ autocomplete (run ops) prefix limit ->
  search (run ops) x = true /\ In (OpInsert x) ops.
Proof.
  intros Hx. split; [by eapply autocomplete_stored|by eapply autocomplete_inserted].
Qed.

Lemma autocomplete_returns_stored_words_witness :
  let ops := [OpInsert "Autopsy"; OpInsert "automate"; OpDelete "AUTOMATE";
              OpInsert "autorun"] in
  "autorun" ∈ autocomplete (run ops) "auto" 5 /\
  search (run ops) "autorun" = true /\ In (OpInsert "autorun") ops.
Proof.
  intros ops.
  assert ("autorun" ∈ autocomplete (run ops) "auto" 5) as Hin
    by (apply (bool_decide_unpack _); by vm_compute).
  split; [exact Hin|].
  exact (autocomplete_returns_stored_words ops "auto" 5 "autorun" Hin).
Defined.




End TrieProps.

(** ** BoundedCache *)

Module LRUProps.
Import LRUInv LRUFacts LRUModel LRUFacts2 Examples.

Section Generic.
Context {K V : Type} `{Countable K}.

(** X6. From construction on, after every sequence of [get], [put], [has],
    [delete] and [clear] calls, [entries()] is the list that the calls
    produce on a plain association list kept most-recently-used first
    ([get] and [put] move the entry to the front, [put] of a new key into
    a full cache drops the last entry, [delete] removes the entry, [clear]
    empties the list); [keys()] and [values()] are its two projections,
    [size()] its length, and [getCapacity()] the capacity given at
    construction. *)
Theorem entries_follow_list_model (cap : Z) (c0 : LRU.LRUCache K V)
    (ops : list (LRU.Op K V)) :
  LRU.new cap = inr c0 ->
  let c := LRU.run ops c0 in
  let m := runM cap ops in
  LRU.entries c = Some m /\
  LRU.keys c = Some m.*1 /\
  LRU.values c = Some m.*2 /\
  LRU.size c = Z.of_nat (length m) /\
  LRU.getCapacity c = cap.
Proof.
  intros Hnew c m. destruct (ReprKV_run cap c0 ops Hnew) as [HR Hcap].
  fold c in HR, Hcap. fold m in HR.
  split; [by apply ReprKV_entries|]. split; [by apply ReprKV_keys|].
  split; [by apply ReprKV_values|]. split; [by apply ReprKV_size|done].
Qed.

(** X7. In any such state, [get(k)] returns the value most recently put
    under [k] if [k] is still cached and [undefined] otherwise, and
    [has(k)] and the result of [delete(k)] both tell whether [k] is
    cached: all three agree with the association list of X6. *)
Theorem results_follow_list_model (cap : Z) (c0 : LRU.LRUCache K V)
    (ops : list (LRU.Op K V)) (k : K) :
  LRU.new cap = inr c0 ->
  let c := LRU.run ops c0 in
  let m := runM cap ops in
  snd (LRU.get k c) = assoc k m /\
  LRU.has k c = bool_decide (k ∈ m.*1) /\
  snd (LRU.delete k c) = bool_decide (k ∈ m.*1).
Proof.
  intros Hnew c m. destruct (ReprKV_run cap c0 ops Hnew) as [HR _].
  fold c m in HR. split; [|split].
  - destruct (ReprKV_get c m k HR) as [_ ->]. apply snd_getM.
  - by apply ReprKV_has.
  - by destruct (ReprKV_delete c m k HR) as [_ ->].
Qed.

(** X8. The cache never holds more entries than its capacity, whatever
    calls are made. *)
Theorem size_never_exceeds_capacity (cap : Z) (c0 : LRU.LRUCache K V)
    (ops : list (LRU.Op K V)) :
  LRU.new cap = inr c0 ->
  LRU.size (LRU.run ops c0) <= LRU.getCapacity (LRU.run ops c0).
Proof.
  intros Hnew. destruct (ReprKV_run cap c0 ops Hnew) as [_ Hcap].
  destruct (Inv_new _ _ Hnew) as [_ Hcap0].
  unfold LRU.getCapacity. rewrite Hcap, <- Hcap0.
  apply (size_bounded_fold ops c0 [] (ReprKV_new _ _ Hnew)).
  unfold LRU.new in Hnew. destruct (cap <=? 0) eqn:E; [done|].
  apply Z.leb_gt in E. simpl. lia.
Qed.

(** X9. For a cache built with an integer capacity, which the
    constructor then requires to be at least 1, and after any sequence of
    operations: a [get(k)] that directly follows [put(k, v)] returns [v].
    The entry just written is never the one that the same [put] evicts.
    (The constructor only rejects [capacity <= 0]; a cache built with a
    fractional capacity below 1 evicts every entry as soon as it is put,
    and is outside this statement.) *)
Theorem get_after_put_returns_value (cap : Z) (c0 : LRU.LRUCache K V)
    (ops : list (LRU.Op K V)) (k : K) (v : V) :
  LRU.new cap = inr c0 ->
  1 <= cap /\
  snd (LRU.get k (LRU.put k v (LRU.run ops c0))) = Some v.
Proof.
  intros Hnew.
  assert (1 <= cap) as Hc.
  { unfold LRU.new in Hnew. destruct (cap <=? 0) eqn:E; [done|].
    apply Z.leb_gt in E. lia. }
  split; [exact Hc|].
  destruct (ReprKV_run cap c0 ops Hnew) as [HR Hcap].
  apply (get_after_put _ _ k v HR). by rewrite Hcap.
Qed.

(** X10. The counters reported by [getStats()]: [hits] is the number of
    [get] calls, since construction or the last [clear], whose key was
    cached at the time of the call, and [misses] the number of the other
    [get] calls; [put], [has] and [delete] never change them.
    [resetStats()] sets both to zero and leaves the entries alone. *)
Theorem counters_count_gets (cap : Z) (c0 : LRU.LRUCache K V)
    (ops : list (LRU.Op K V)) :
  LRU.new cap = inr c0 ->
  let c := LRU.run ops c0 in
  (LRU.hits c, LRU.misses c) = statsM cap ops /\
  LRU.hits (LRU.resetStats c) = 0 /\
  LRU.misses (LRU.resetStats c) = 0 /\
  LRU.entries (LRU.resetStats c) = LRU.entries c.
Proof.
  intros Hnew c. split; [by apply stats_run|done].
Qed.

End Generic.

Lemma entries_follow_list_model_witness :
  let ops := [LRU.OpPut 1 10; LRU.OpPut 2 20; LRU.OpGet 1; LRU.OpPut 3 30;
              LRU.OpPut 4 40; LRU.OpDelete 3; LRU.OpPut 1 11]%nat in
  LRU.new 3 = inr c3 /\
  let c := LRU.run ops c3 in
  let m := runM 3 ops in
  LRU.entries c = Some m /\
  LRU.keys c = Some m.*1 /\
  LRU.values c = Some m.*2 /\
  LRU.size c = Z.of_nat (length m) /\
  LRU.getCapacity c = 3.
Proof.
  intros ops. split; [reflexivity|].
  exact (entries_follow_list_model 3 c3 ops eq_refl).
Defined.

Lemma results_follow_list_model_witness :
  let ops := [LRU.OpPut 1 10; LRU.OpPut 2 20; LRU.OpPut 1 11]%nat in
  LRU.new 3 = inr c3 /\
  let c := LRU.run ops c3 in
  let m := runM 3 ops in
  snd (LRU.get 1%nat c) = assoc 1%nat m /\
  LRU.has 1%nat c = bool_decide (1%nat ∈ m.*1) /\
  snd (LRU.delete 1%nat c) = bool_decide (1%nat ∈ m.*1).
Proof.
  intros ops. split; [reflexivity|].
  exact (results_follow_list_model 3 c3 ops 1%nat eq_refl).
Defined.

Lemma size_never_exceeds_capacity_witness :
  let ops := [LRU.OpPut 1 10; LRU.OpPut 2 20; LRU.OpPut 3 30;
              LRU.OpPut 4 40; LRU.OpPut 5 50]%nat in
  LRU.new 3 = inr c3 /\
  LRU.size (LRU.run ops c3) <= LRU.getCapacity (LRU.run ops c3).
Proof.
  intros ops. split; [reflexivity|].
  exact (size_never_exceeds_capacity 3 c3 ops eq_refl).
Defined.

Lemma get_after_put_returns_value_witness :
  let ops := [LRU.OpPut 1 10; LRU.OpPut 2 20; LRU.OpPut 3 30]%nat in
  LRU.new 3 = inr c3 /\
  1 <= 3 /\
  snd (LRU.get 4%nat (LRU.put 4%nat 40%nat (LRU.run ops c3))) = Some 40%nat.
Proof.
  intros ops. split; [reflexivity|].
  exact (get_after_put_returns_value 3 c3 ops 4%nat 40%nat eq_refl).
Defined.

Lemma counters_count_gets_witness :
  let ops := [LRU.OpPut 1 10; LRU.OpGet 1; LRU.OpGet 2; LRU.OpDelete 1;
              LRU.OpGet 1]%nat in
  LRU.new 3 = inr c3 /\
  let c := LRU.run ops c3 in
  (LRU.hits c, LRU.misses c) = statsM 3 ops /\
  LRU.hits (LRU.resetStats c) = 0 /\
  LRU.misses (LRU.resetStats c) = 0 /\
  LRU.entries (LRU.resetStats c) = LRU.entries c.
Proof.
  intros ops. split; [reflexivity|].
  exact (counters_count_gets 3 c3 ops eq_refl).
Defined.

End LRUProps.

(** ** CaseLedger *)

Module LedgerProps.
Import Schema LedgerSpec LedgerFacts LedgerModel LedgerFacts2 OMapFacts2 Examples.

(** X11. [getAllCaseIds()] lists every ingested case id exactly once, in
    the order in which the ids were first ingested: ingesting a case again
    under an id already present replaces the record and adds no id.
    [getStats().total_cases] is the length of that list. *)
Theorem case_ids_listed_once (cs : list CaseStudyEnhanced) :
  let ids := Ingestion.getAllCaseIds (ledger cs) in
  ids = OSet.of_list (map case_id cs) /\
  NoDup ids /\
  (forall id, id ∈ ids <-> exists c, In c cs /\ case_id c = id) /\
  Ingestion.total_cases (Ingestion.getStats (ledger cs)) = Z.of_nat (length ids).
Proof.
  intros ids. unfold ids. rewrite getAllCaseIds_ledger.
  split; [done|]. split; [apply NoDup_of_list|]. split.
  - intros id. rewrite elem_of_of_list, list_elem_of_In, in_map_iff.
    split; intros (c & ? & ?); eauto.
  - rewrite <- getAllCaseIds_ledger. unfold Ingestion.getAllCaseIds. simpl.
    unfold OMap.size, OMap.keys. by rewrite length_map.
Qed.

(** X12. The lookups return the latest record: [getCaseById(id)] is the
    case most recently ingested under [id] ([null] if there is none), and
    [getArtifact(id, a)] and [getFinding(id, f)] are the last artifact and
    finding of that case carrying the id [a] and [f] ([null] if the case
    or the item does not exist). *)
Theorem lookups_return_latest_record (cs : list CaseStudyEnhanced)
    (cid item : string) :
  Ingestion.getCaseById (ledger cs) cid = caseOf cs cid /\
  Ingestion.getArtifact (ledger cs) cid item =
    match caseOf cs cid with
    | Some c =>
        List.find (fun a => String.eqb (artifact_id a) item) (rev (artifacts c))
    | None => None
    end /\
  Ingestion.getFinding (ledger cs) cid item =
    match caseOf cs cid with
    | Some c =>
        List.find (fun f => String.eqb (finding_id f) item) (rev (findings c))
    | None => None
    end.
Proof.
  split; [apply getCaseById_ledger|].
  split; [apply getArtifact_ledger|apply getFinding_ledger].
Qed.

(** X13. For ids that contain no colon, the ledger accepts the two-part
    citation [case_id:item_id] exactly when [getArtifact] or [getFinding]
    finds the item in that case, and the one-part citation [case_id]
    exactly when [getCaseById] finds the case. *)
Theorem citation_valid_iff_lookup_succeeds (s : Ingestion.Service)
    (cid item : string) :
  allChars (fun c => negb (bool_decide (c = ":"%char))) cid = true ->
  allChars (fun c => negb (bool_decide (c = ":"%char))) item = true ->
  (Ingestion.validateCitation s cid = true <->
   Ingestion.getCaseById s cid <> None) /\
  (Ingestion.validateCitation s (cid +:+ ":" +:+ item) = true <->
   Ingestion.getArtifact s cid item <> None \/
   Ingestion.getFinding s cid item <> None).
Proof.
  intros Hc Hi. unfold Ingestion.validateCitation.
  rewrite (split_no_sep _ _ Hc).
  change (cid +:+ ":" +:+ item) with (cid +:+ String ":" item).
  rewrite (split_two _ _ _ Hc Hi).
  unfold Ingestion.getCaseById, Ingestion.getArtifact, Ingestion.getFinding,
    OMap.has.
  destruct (OMap.get cid (Ingestion.indexedCases s)) as [ic|].
  - split; [done|]. rewrite orb_true_iff.
    destruct (OMap.get item (Ingestion.artifact_map ic)),
      (OMap.get item (Ingestion.finding_map ic)); naive_solver.
  - split; [done|]. naive_solver.
Qed.

Lemma citation_valid_iff_lookup_succeeds_witness :
  let s := ledger [demoCase] in
  allChars (fun c => negb (bool_decide (c = ":"%char)))
    "ransomware-investigation" = true /\
  allChars (fun c => negb (bool_decide (c = ":"%char))) "finding_1" = true /\
  (Ingestion.validateCitation s "ransomware-investigation" = true <->
   Ingestion.getCaseById s "ransomware-investigation" <> None) /\
  (Ingestion.validateCitation s
     ("ransomware-investigation" +:+ ":" +:+ "finding_1") = true <->
   Ingestion.getArtifact s "ransomware-investigation" "finding_1" <> None \/
   Ingestion.getFinding s "ransomware-investigation" "finding_1" <> None).
Proof.
  intros s.
  assert (allChars (fun c => negb (bool_decide (c = ":"%char)))
            "ransomware-investigation" = true) as H1 by (by vm_compute).
  assert (allChars (fun c => negb (bool_decide (c = ":"%char)))
            "finding_1" = true) as H2 by (by vm_compute).
  split; [exact H1|]. split; [exact H2|].
  exact (citation_valid_iff_lookup_succeeds s _ _ H1 H2).
Defined.

(** X14. Every token that [tokenize] produces has at least three
    characters, all of them lowercase letters, digits, underscores or
    hyphens: uppercase letters are folded, every other character is
    dropped, and white space separates tokens. *)
Theorem tokens_are_normalized (query : string) :
  Forall (fun t => 2 < Js.strlen t /\ allChars tokenChar t = true)
         (Ingestion.tokenize query).
Proof. apply tokenize_tokens. Qed.

(** X15. On a ledger built by ingestion, [search] never fails, whatever
    the query and the limit. The results are in order of non-increasing
    score, no case appears twice, and a non-negative limit bounds their
    number. Each result names a stored case; its matched keywords are
    exactly the query tokens under which the keyword index lists the
    case, in query order, and there is at least one; its score is at
    least 0.5 per matched keyword; and its matched artifact and finding
    ids are ids that [getArtifact] and [getFinding] find in that case. *)
Theorem search_results_are_well_formed (cs : list CaseStudyEnhanced)
    (query : string) (limit : Z) :
  exists rs,
    Ingestion.search (ledger cs) query limit = Some rs /\
    StronglySorted byScore rs /\
    NoDup (map Ingestion.sr_case_id rs) /\
    (0 <= limit -> Z.of_nat (length rs) <= limit) /\
    forall r, In r rs ->
      let id := Ingestion.sr_case_id r in
      Ingestion.getCaseById (ledger cs) id <> None /\
      Ingestion.matched_keywords r =
        filter (fun t => id ∈ idsFor (ledger cs) t) (Ingestion.tokenize query) /\
      Ingestion.matched_keywords r <> [] /\
      ((1 # 2) * inject_Z (Z.of_nat (length (Ingestion.matched_keywords r)))
       <= Ingestion.relevance_score r)%Q /\
      (forall x, In x (Ingestion.matched_artifacts r) ->
                 Ingestion.getArtifact (ledger cs) id x <> None) /\
      (forall x, In x (Ingestion.matched_findings r) ->
                 Ingestion.getFinding (ledger cs) id x <> None).
Proof. apply search_ledger. Qed.

(** X16. Which cases [search] returns: when the limit is at least the
    number of ingested cases, a case id is among the results exactly when
    some query token equals, in lowercase, one of the entries of the
    [keywords] array of a case ingested under that id. No other field of
    the record (title, summary, artifact types, tool names, the case id
    itself) makes a case match; and the keywords of an earlier record
    ingested under the same id still count. *)
Theorem search_hits_iff_keyword_matches (cs : list CaseStudyEnhanced)
    (query : string) (limit : Z) :
  Z.of_nat (length cs) <= limit ->
  exists rs,
    Ingestion.search (ledger cs) query limit = Some rs /\
    forall id,
      In id (map Ingestion.sr_case_id rs) <->
      exists t, t ∈ Ingestion.tokenize query /\ Indexed cs t id.
Proof.
  intros Hlimit.
  destruct (search_spec (ledger cs) query limit (WfIndex_ledger cs))
    as (rs & all & Hs & (k & -> & Hk) & Hsort & Hnd & Hall).
  assert (forall id, perCase (ledger cs) (Ingestion.tokenize query) id None <> None <->
            exists t, t ∈ Ingestion.tokenize query /\ Indexed cs t id) as Hper.
  { intros id.
    pose proof (perCase_spec (ledger cs) (Ingestion.tokenize query) id
                  (WfIndex_ledger cs)) as Hp.
    destruct (perCase _ _ id None) as [r|].
    - destruct Hp as ((t & Ht & Hid) & _). split; [intros _|done].
      exists t. split; [done|]. by apply idsFor_ledger.
    - split; [done|]. intros (t & Ht & Hid%idsFor_ledger). by destruct (Hp t Ht). }
  assert (length all <= length cs)%nat as Hlen.
  { apply results_length; [done|]. intros r Hr%Hall.
    pose proof (perCase_spec (ledger cs) (Ingestion.tokenize query)
                  (Ingestion.sr_case_id r) (WfIndex_ledger cs)) as Hp.
    rewrite Hr in Hp. destruct Hp as (_ & _ & _ & _ & ic & Hic & _).
    by eapply get_Some_has. }
  rewrite firstn_all2 in Hs by (rewrite Hk by lia; lia).
  exists all. split; [done|]. intros id. rewrite <- Hper, in_map_iff. split.
  - intros (r & <- & Hr%Hall). by rewrite Hr.
  - intros Hne.
    pose proof (perCase_spec (ledger cs) (Ingestion.tokenize query) id
                  (WfIndex_ledger cs)) as Hp.
    destruct (perCase _ _ id None) as [r|] eqn:E; [|done].
    destruct Hp as (_ & Hid & _). exists r. split; [done|].
    apply Hall. by rewrite Hid.
Qed.

Lemma search_hits_iff_keyword_matches_witness :
  Z.of_nat (length [demoCase]) <= 5 /\
  exists rs,
    Ingestion.search (ledger [demoCase]) "memory of the host" 5 = Some rs /\
    forall id,
      In id (map Ingestion.sr_case_id rs) <->
      exists t, t ∈ Ingestion.tokenize "memory of the host" /\
                Indexed [demoCase] t id.
Proof.
  assert (Z.of_nat (length [demoCase]) <= 5) as H by (by vm_compute).
  split; [exact H|].
  exact (search_hits_iff_keyword_matches [demoCase] "memory of the host" 5 H).
Defined.

(** X17. [getAutocompleteSuggestions(partial)] on a ledger built by
    ingestion returns at most 8 suggestions; each one starts, character
    for character, with the lowercase form of [partial], and is the
    lowercase form of the id or title of an ingested case, of the type of
    one of its artifacts, or of the name of one of its tools. *)
Theorem suggestions_are_indexed_names (cs : list CaseStudyEnhanced)
    (partial : string) :
  let r := Ingestion.getAutocompleteSuggestions (ledger cs) partial in
  Z.of_nat (length r) <= 8 /\
  forall x, In x r ->
    Js.startsWith x (Js.toLowerCase partial) = true /\
    In x (caseWords cs ++ artifactWords cs ++ toolWords cs).
Proof.
  intros r. unfold r, Ingestion.getAutocompleteSuggestions. cbv zeta.
  destruct (tries_ledger cs) as (-> & -> & ->).
  unfold Js.slice0. change (8 <? 0) with false. cbv iota.
  split; [rewrite length_firstn; lia|].
  intros x Hx.
  assert (In x (Trie.autocomplete (Trie.insertAll (caseWords cs))
                  (Js.toLowerCase partial) 3 ++
                Trie.autocomplete (Trie.insertAll (artifactWords cs))
                  (Js.toLowerCase partial) 3 ++
                Trie.autocomplete (Trie.insertAll (toolWords cs))
                  (Js.toLowerCase partial) 3)) as Hin.
  { rewrite <- (firstn_skipn (Z.to_nat 8) (_ ++ _)). apply in_or_app. by left. }
  clear Hx.
  assert (forall w, In w (caseWords cs) -> Js.toLowerCase w = w) as Lc.
  { unfold caseWords. intros w (c & _ & [<-|[<-|[]]])%in_flat_map;
      apply JsFacts.toLowerCase_idem. }
  assert (forall w, In w (artifactWords cs) -> Js.toLowerCase w = w) as La.
  { unfold artifactWords. intros w (c & _ & (a & <- & _)%in_map_iff)%in_flat_map.
    apply JsFacts.toLowerCase_idem. }
  assert (forall w, In w (toolWords cs) -> Js.toLowerCase w = w) as Lt.
  { unfold toolWords. intros w (c & _ & (a & <- & _)%in_map_iff)%in_flat_map.
    apply JsFacts.toLowerCase_idem. }
  apply in_app_or in Hin as [Hin|Hin%in_app_or].
  - apply list_elem_of_In, (suggestions_from _ _ _ _ Lc) in Hin as [? ?].
    split; [done|]. apply in_or_app. by left.
  - destruct Hin as [Hin|Hin].
    + apply list_elem_of_In, (suggestions_from _ _ _ _ La) in Hin as [? ?].
      split; [done|]. apply in_or_app. right. apply in_or_app. by left.
    + apply list_elem_of_In, (suggestions_from _ _ _ _ Lt) in Hin as [? ?].
      split; [done|]. apply in_or_app. right. apply in_or_app. by right.
Qed.

(** X26. On a ledger built by ingestion, [getCasesByArtifactType(type)]
    returns, each once, exactly the stored cases in which [getArtifact]
    finds an artifact of that type, and [getCasesByTool(name)] exactly
    the stored cases that list a tool of that name; types and names are
    compared in lowercase. *)
Theorem cases_by_artifact_type_and_tool (cs : list CaseStudyEnhanced)
    (ty name : string) :
  let s := ledger cs in
  let byType := Ingestion.getCasesByArtifactType s ty in
  let byTool := Ingestion.getCasesByTool s name in
  NoDup (map case_id byType) /\ NoDup (map case_id byTool) /\
  (forall c, In c byType <->
     Ingestion.getCaseById s (case_id c) = Some c /\
     exists aid a, Ingestion.getArtifact s (case_id c) aid = Some a /\
                   Js.toLowerCase (type a) = Js.toLowerCase ty) /\
  (forall c, In c byTool <->
     Ingestion.getCaseById s (case_id c) = Some c /\
     exists t, In t (tools_used c) /\
               Js.toLowerCase (tool_name t) = Js.toLowerCase name).
Proof.
  intros s byType byTool.
  unfold byType, byTool, Ingestion.getCasesByArtifactType,
    Ingestion.getCasesByTool. cbv zeta. rewrite !fold_push. cbn [app].
  set (pa := fun indexed_ : Ingestion.IndexedCase => Js.some _ _).
  set (pt := fun indexed_ : Ingestion.IndexedCase => Js.some _ _).
  destruct (stored_cases cs pa) as [Na Ha].
  destruct (stored_cases cs pt) as [Nt Ht].
  destruct (ledger_entries cs) as [_ Hent].
  split; [exact Na|]. split; [exact Nt|].
  unfold Ingestion.getCaseById, Ingestion.getArtifact. fold s in Ha, Ht, Hent.
  split.
  - intros c. rewrite Ha. split.
    + intros (ic & Hget & <- & Hp). rewrite Hget. split; [done|].
      unfold pa, Js.some in Hp. apply existsb_exists in Hp as (a & Hin & Heq).
      apply String.eqb_eq in Heq.
      apply values_In in Hin as [aid Hin]. exists aid, a. split; [|done].
      apply get_of_In; [|done].
      destruct (Hent _ _ (OMapFacts.get_Some_In _ _ _ Hget)) as (_ & -> & _).
      apply NoDup_artifactMapOf.
    + destruct (OMap.get (case_id c) (Ingestion.indexedCases s)) as [ic|];
        [|by intros [? _]].
      intros ([= Hc] & aid & a & Hget & Heq). exists ic.
      split; [done|]. split; [done|].
      unfold pa, Js.some. apply existsb_exists. exists a.
      split; [|by apply String.eqb_eq].
      apply values_In. exists aid. by apply OMapFacts.get_Some_In.
  - intros c. rewrite Ht. split.
    + intros (ic & Hget & <- & Hp). rewrite Hget. split; [done|].
      unfold pt, Js.some in Hp. apply existsb_exists in Hp as (tn & Hin & Heq).
      apply String.eqb_eq in Heq.
      destruct (Hent _ _ (OMapFacts.get_Some_In _ _ _ Hget)) as (_ & _ & Htn).
      rewrite Htn in Hin.
      apply list_elem_of_In, elem_of_of_list, list_elem_of_In, in_map_iff in Hin
        as (t & <- & Hin). eauto.
    + destruct (OMap.get (case_id c) (Ingestion.indexedCases s)) as [ic|] eqn:Hget;
        [|by intros [? _]].
      intros ([= Hc] & t & Hin & Heq). exists ic.
      split; [done|]. split; [done|].
      unfold pt, Js.some. apply existsb_exists. exists (tool_name t).
      split; [|by apply String.eqb_eq].
      destruct (Hent _ _ (OMapFacts.get_Some_In _ _ _ Hget)) as (_ & _ & Htn).
      rewrite Htn, Hc.
      apply list_elem_of_In, elem_of_of_list, list_elem_of_In, in_map. done.
Qed.

End LedgerProps.

(** ** Migration, citation extraction and the query pipeline *)

Module PipelineProps.
Import Schema LedgerSpec LedgerFacts LedgerModel LedgerFacts2 PipelineModel
  PipelineFacts OMapFacts2 Examples Examples2.

(** X18. [migrateLegacyCase] keeps the case id and numbers the records it
    creates: the artifact ids are [<id>_artifact_1], [<id>_artifact_2], ...
    and the finding ids [<id>_finding_1], ..., one per legacy artifact and
    per outcome in their order, so that within a migrated case no two
    artifacts and no two findings share an id; the timeline has one event
    per workflow step. *)
Theorem migration_numbers_its_records (l : Migration.LegacyCase) :
  let c := Migration.migrateLegacyCase l in
  case_id c = Migration.id l /\
  map artifact_id (artifacts c) =
    map (fun j => Migration.id l +:+ "_artifact_" +:+ Js.showZ (Z.of_nat j + 1))
        (seq 0 (length (Migration.lc_artifacts l))) /\
  map finding_id (findings c) =
    map (fun j => Migration.id l +:+ "_finding_" +:+ Js.showZ (Z.of_nat j + 1))
        (seq 0 (length (Migration.outcomes l))) /\
  NoDup (map artifact_id (artifacts c)) /\
  NoDup (map finding_id (findings c)) /\
  length (timeline c) = length (Migration.workflow l).
Proof.
  intros c. split; [done|].
  split; [apply migrate_artifact_ids|]. split; [apply migrate_finding_ids|].
  destruct (NoDup_migrate_ids l) as [? ?]. split; [done|]. split; [done|].
  unfold c, Migration.migrateLegacyCase. simpl. apply length_mapi.
Qed.

(** X19. The references inside a migrated case resolve: every
    supporting artifact of a finding (there are at most three) and every
    artifact id of a timeline event is the id of an artifact of the same
    case, the tool of every timeline event is one of the case's
    [tools_used], and no tool is listed twice. *)
Theorem migration_references_resolve (l : Migration.LegacyCase) :
  let c := Migration.migrateLegacyCase l in
  (forall f, In f (findings c) ->
     (forall a, In a (supporting_artifacts f) ->
                In a (map artifact_id (artifacts c))) /\
     (length (supporting_artifacts f) <= 3)%nat) /\
  (forall e, In e (timeline c) ->
     (forall a, event_artifact_id e = Some a ->
                In a (map artifact_id (artifacts c))) /\
     exists t, tool e = Some t /\ In t (map tool_name (tools_used c))) /\
  NoDup (map tool_name (tools_used c)).
Proof.
  intros c. split; [|split].
  - intros f Hf. unfold c, Migration.migrateLegacyCase in Hf. simpl in Hf.
    apply In_mapi in Hf as (outcome & j & _ & ->). simpl.
    unfold Migration.extractRelevantArtifacts. split.
    + intros a Ha%slice0_incl. apply in_map_iff in Ha as (art & <- & Hart).
      apply list_elem_of_In, list_elem_of_filter in Hart as [_ Hart].
      apply in_map. by apply list_elem_of_In.
    + pose proof (slice0_length 3
        (map artifact_id
           (filter (fun art => Js.includes (Js.toLowerCase outcome)
                                 (Js.toLowerCase (type art)) = true)
              (artifacts c))) ltac:(lia)) as Hlen.
      unfold c, Migration.migrateLegacyCase in Hlen. simpl in Hlen. lia.
  - intros e He. unfold c, Migration.migrateLegacyCase in He. simpl in He.
    apply In_mapi in He as (st & j & Hst & ->).
    cbn [tool event_artifact_id]. split.
    + intros a Ha. apply fmap_Some in Ha as (art & Hnth & ->).
      apply in_map. apply nth_error_In in Hnth. exact Hnth.
    + exists (Migration.ls_tool st). split; [done|].
      unfold c. rewrite migrate_tool_names.
      apply list_elem_of_In, elem_of_of_list.
      apply list_elem_of_In, in_map. done.
  - unfold c. rewrite migrate_tool_names. apply NoDup_of_list.
Qed.

(** X20. The bounded fields of a migrated case: at most 20 keywords, none
    of them twice; the conclusions are the first three outcomes; the
    summary has at most 200 characters. *)
Theorem migration_bounds (l : Migration.LegacyCase) :
  let c := Migration.migrateLegacyCase l in
  NoDup (keywords c) /\
  (length (keywords c) <= 20)%nat /\
  conclusions c = firstn 3 (Migration.outcomes l) /\
  (String.length (summary c) <= 200)%nat.
Proof.
  intros c. split; [apply NoDup_extractKeywords|]. split; [|split].
  - unfold c, Migration.migrateLegacyCase, Migration.extractKeywords. simpl.
    match goal with |- (length (Js.slice0 20 ?k) <= 20)%nat =>
      pose proof (slice0_length 20 k ltac:(lia)) end. lia.
  - done.
  - apply take_length.
Qed.

(** X21. After [initializeFromLegacy] on a list of legacy cases with
    pairwise distinct ids, every record of every case whose id contains no
    colon can be cited: the ledger accepts the citation [<id>] and, for
    each artifact and finding of the migrated case, the citation
    [<id>:<item id>]. *)
Theorem migrated_records_are_citable (ls : list Migration.LegacyCase)
    (l : Migration.LegacyCase) :
  NoDup (map Migration.id ls) -> In l ls -> noColon (Migration.id l) = true ->
  let s := RAGService.ingestionService (loaded ls) in
  let c := Migration.migrateLegacyCase l in
  Ingestion.validateCitation s (Migration.id l) = true /\
  (forall a, In a (artifacts c) ->
     Ingestion.validateCitation s (Migration.id l +:+ ":" +:+ artifact_id a) = true) /\
  (forall f, In f (findings c) ->
     Ingestion.validateCitation s (Migration.id l +:+ ":" +:+ finding_id f) = true).
Proof.
  intros Hnd Hl Hid s c. unfold s. rewrite loaded_ledger.
  set (cs := map Migration.migrateLegacyCase ls).
  assert (caseOf cs (Migration.id l) = Some c) as Hcase.
  { apply (caseOf_NoDup cs c); [|by apply in_map].
    unfold cs. rewrite map_map. done. }
  assert (forall c0, Js.is_digit c0 = true ->
            negb (bool_decide (c0 = ":"%char)) = true) as Hdigit.
  { intros c0 Hc0. case_bool_decide; [subst; by vm_compute in Hc0|done]. }
  assert (forall pre j,
            noColon pre = true ->
            noColon (Migration.id l +:+ pre +:+ Js.showZ (Z.of_nat j + 1)) = true)
    as Hnum.
  { intros pre j Hpre. unfold noColon in *.
    rewrite !allChars_app, Hid, Hpre. simpl.
    apply digits_showZ; [lia|done]. }
  split; [|split].
  - apply validateCitation_spec. unfold RealCitation.
    rewrite (split_no_sep _ _ Hid). eauto.
  - intros a Ha. apply validateCitation_spec. unfold RealCitation.
    assert (noColon (artifact_id a) = true) as Hna.
    { apply (in_map artifact_id) in Ha. unfold c in Ha.
      rewrite migrate_artifact_ids in Ha.
      apply in_map_iff in Ha as (j & <- & _). by apply Hnum. }
    change (Migration.id l +:+ ":" +:+ artifact_id a)
      with (Migration.id l +:+ String ":" (artifact_id a)).
    rewrite (split_two _ _ _ Hid Hna). exists c. split; [done|]. left. eauto.
  - intros f Hf. apply validateCitation_spec. unfold RealCitation.
    assert (noColon (finding_id f) = true) as Hnf.
    { apply (in_map finding_id) in Hf. unfold c in Hf.
      rewrite migrate_finding_ids in Hf.
      apply in_map_iff in Hf as (j & <- & _). by apply Hnum. }
    change (Migration.id l +:+ ":" +:+ finding_id f)
      with (Migration.id l +:+ String ":" (finding_id f)).
    rewrite (split_two _ _ _ Hid Hnf). exists c. split; [done|]. right. eauto.
Qed.

Lemma migrated_records_are_citable_witness :
  let ls := [legacyRansomware; legacyPhishing] in
  NoDup (map Migration.id ls) /\
  In legacyPhishing ls /\
  noColon (Migration.id legacyPhishing) = true /\
  let s := RAGService.ingestionService (loaded ls) in
  let c := Migration.migrateLegacyCase legacyPhishing in
  Ingestion.validateCitation s (Migration.id legacyPhishing) = true /\
  (forall a, In a (artifacts c) ->
     Ingestion.validateCitation s
       (Migration.id legacyPhishing +:+ ":" +:+ artifact_id a) = true) /\
  (forall f, In f (findings c) ->
     Ingestion.validateCitation s
       (Migration.id legacyPhishing +:+ ":" +:+ finding_id f) = true).
Proof.
  intros ls.
  assert (NoDup (map Migration.id ls)) as H1
    by (apply (bool_decide_unpack _); by vm_compute).
  assert (In legacyPhishing ls) as H2 by (right; by left).
  assert (noColon (Migration.id legacyPhishing) = true) as H3 by (by vm_compute).
  split; [exact H1|]. split; [exact H2|]. split; [exact H3|].
  exact (migrated_records_are_citable ls legacyPhishing H1 H2 H3).
Defined.

(** X22. [extractCitations] reads the bracketed citations of a text from
    left to right: after a stretch of text without an opening bracket, a
    non-empty bracketed citation without brackets inside is returned
    unchanged, followed by the citations of the rest of the text; a text
    without an opening bracket has no citation; and no extracted citation
    ever contains a bracket. *)
Theorem citations_are_extracted_in_order (pre cit post : string) :
  allChars (fun c => negb (bool_decide (c = "["%char))) pre = true ->
  cit <> "" -> noBracket cit = true ->
  PromptTemplates.extractCitations (pre +:+ "[" +:+ cit +:+ "]" +:+ post) =
    cit :: PromptTemplates.extractCitations post /\
  PromptTemplates.extractCitations pre = [] /\
  Forall (fun x => noBracket x = true) (PromptTemplates.extractCitations post).
Proof.
  intros Hpre Hne Hcit. split; [by apply extractCitations_bracket|].
  split; [by apply extractCitations_plain|apply extractCitations_noBracket].
Qed.

Lemma citations_are_extracted_in_order_witness :
  let pre := "Volatility was used " in
  let cit := "ransomware-investigation:artifact_1" in
  let post := " and see [phishing-campaign]." in
  allChars (fun c => negb (bool_decide (c = "["%char))) pre = true /\
  cit <> "" /\ noBracket cit = true /\
  PromptTemplates.extractCitations (pre +:+ "[" +:+ cit +:+ "]" +:+ post) =
    cit :: PromptTemplates.extractCitations post /\
  PromptTemplates.extractCitations pre = [] /\
  Forall (fun x => noBracket x = true) (PromptTemplates.extractCitations post).
Proof.
  intros pre cit post.
  assert (allChars (fun c => negb (bool_decide (c = "["%char))) pre = true)
    as H1 by (by vm_compute).
  assert (cit <> "") as H2 by discriminate.
  assert (noBracket cit = true) as H3 by (by vm_compute).
  split; [exact H1|]. split; [exact H2|]. split; [exact H3|].
  exact (citations_are_extracted_in_order pre cit post H1 H2 H3).
Defined.

(** X23. After [initializeFromLegacy] the service's own case map and the
    ledger agree: [getCaseById] of the service and of the ledger return
    the same record for every id (the migration of the last legacy case
    with that id), and [getAllCases()] lists the cases under the ids of
    [getAllCaseIds()], in the same order. Loading two lists one after the
    other gives the same service as loading their concatenation. *)
Theorem loaded_service_is_in_sync (ls ls' : list Migration.LegacyCase)
    (cid : string) :
  let s := loaded ls in
  RAGService.getCaseById s cid =
    Ingestion.getCaseById (RAGService.ingestionService s) cid /\
  RAGService.getCaseById s cid =
    caseOf (map Migration.migrateLegacyCase ls) cid /\
  map case_id (RAGService.getAllCases s) =
    Ingestion.getAllCaseIds (RAGService.ingestionService s) /\
  RAGService.initializeFromLegacy ls' s = loaded (ls ++ ls').
Proof.
  intros s. unfold s, RAGService.getCaseById.
  rewrite loaded_get, loaded_ledger, getCaseById_ledger.
  split; [done|]. split; [done|]. split.
  - rewrite <- (loaded_ledger ls), <- loaded_keys.
    unfold RAGService.getAllCases, OMap.values, OMap.keys.
    rewrite map_map. apply map_ext_in. intros [k c] Hin. simpl.
    assert (NoDup (map fst (RAGService.enhancedCases (loaded ls)))) as Hnd.
    { change (map fst ?m) with (OMap.keys m).
      rewrite loaded_keys, loaded_ledger, getAllCaseIds_ledger.
      apply NoDup_of_list. }
    apply (get_of_In _ _ _ Hnd) in Hin. rewrite loaded_get in Hin.
    by eapply ledger_caseOf_id.
  - unfold loaded, RAGService.initializeFromLegacy, Ingestion.ingestCases.
    simpl. by rewrite map_app, !fold_left_app.
Qed.

(** X24. When every legacy case loaded by [initializeFromLegacy] has at
    least one artifact and at least one workflow step, [processQuery]
    returns a response for every query: no answer builder reads a property
    of a missing first tool or first artifact. (The context string that
    [processQuery] builds on the way is never read; on migrated records
    its construction only reads fields that the migration sets.) *)
Theorem processQuery_always_answers (ls : list Migration.LegacyCase)
    (q : string) :
  (forall l, In l ls ->
     Migration.lc_artifacts l <> [] /\ Migration.workflow l <> []) ->
  exists r, RAGService.processQuery (loaded ls) q = Some r.
Proof. apply processQuery_total. Qed.

Lemma processQuery_always_answers_witness :
  let ls := [legacyRansomware; legacyPhishing] in
  (forall l, In l ls ->
     Migration.lc_artifacts l <> [] /\ Migration.workflow l <> []) /\
  exists r, RAGService.processQuery (loaded ls)
              "Which tool was used on the ransomware memory?" = Some r.
Proof.
  intros ls.
  assert (forall l, In l ls ->
            Migration.lc_artifacts l <> [] /\ Migration.workflow l <> []) as H.
  { intros l [<-|[<-|[]]]; split; discriminate. }
  split; [exact H|].
  exact (processQuery_always_answers ls _ H).
Defined.

(** X25. Every citation in a response of [processQuery], on any service
    whose ledger was built by ingestion, names a record the ledger holds:
    its case id is a stored case, its artifact id (if any) is the id of an
    artifact or finding of that case, and its finding id (if any) the id
    of a finding of that case. Its confidence is at least 0.5. The
    response itself has no citation and confidence 0 (refusal, or no
    match), or at least one citation and a confidence of at least 0.5. *)
Theorem citations_name_ledger_records (cs : list CaseStudyEnhanced)
    (ec : list (string * CaseStudyEnhanced)) (q : string) (r : RAGResponse) :
  RAGService.processQuery (RAGService.mkService (ledger cs) ec) q = Some r ->
  Forall (fun c => CitesRecord (ledger cs) c /\ (1 # 2 <= cit_confidence c)%Q)
         (citations r) /\
  ((citations r = [] /\ response_confidence r = 0%Q) \/
   (citations r <> [] /\ (1 # 2 <= response_confidence r)%Q)).
Proof. apply processQuery_cites. Qed.

Lemma citations_name_ledger_records_witness :
  let cs := map Migration.migrateLegacyCase [legacyRansomware; legacyPhishing] in
  let ec := RAGService.enhancedCases (loaded [legacyRansomware; legacyPhishing]) in
  exists r,
    RAGService.processQuery (RAGService.mkService (ledger cs) ec)
      "Explain the ransomware memory analysis" = Some r /\
    Forall (fun c => CitesRecord (ledger cs) c /\ (1 # 2 <= cit_confidence c)%Q)
           (citations r) /\
    ((citations r = [] /\ response_confidence r = 0%Q) \/
     (citations r <> [] /\ (1 # 2 <= response_confidence r)%Q)).
Proof.
  intros cs ec.
  destruct (RAGService.processQuery (RAGService.mkService (ledger cs) ec)
              "Explain the ransomware memory analysis") as [r|] eqn:E;
    [|vm_compute in E; discriminate].
  exists r. split; [reflexivity|].
  exact (citations_name_ledger_records cs ec _ r E).
Defined.

End PipelineProps.
